(** * PBR texture synthesis (services/textureGenerator.ts): embedding and properties

    The pixel pipeline of the texture generator, embedded function by
    function, and the properties of it that the specification states.

    Conventions of the embedding.
    - A JavaScript [number] is a rational ([Q]).  The rounding of a
      binary64 operation is [round64] (53 bits, to nearest, ties to even;
      the exponent is not bounded, the magnitudes of the pipeline being far
      from overflow and underflow).  It is applied in [generateMetallic]
      and [drawCover], whose results depend on it; the pixel loops of the
      other synthesizers are embedded with exact arithmetic.
    - The division of [generateHeight] yields a [Number], which may be an
      infinity or NaN: its divisor is the height range, which the code
      guards against zero.  The other divisions are in [Q], which is total
      ([x / 0 = 0]): their divisors are constants, [max(0.1, strength)]
      (positive, [normal_divisor_positive]) and the length of the gradient
      vector.
    - A [Uint8ClampedArray] is a [list Z]; a store converts the number with
      [toUint8Clamp] (clamp to 0..255, round to nearest, ties to even) and
      a store past the end is ignored, as in JavaScript.  A read past the
      end, [undefined] in JavaScript, is 0 in [get]: the theorems about a
      function that reads a raster assume the shape under which every
      read is in range.
    - Border thicknesses and pixel coordinates are integers ([Z]): the user
      interface produces the thicknesses with [parseInt].
    - [Math.sqrt], [Math.pow] and the canvas API belong to the runtime and
      are taken as interfaces ([JsMath], [Canvas2D]). *)

From Stdlib Require Import ZArith Znumtheory QArith Qround Qminmax Qreduction Qcanon Qpower Qabs Lqa Lia.
From stdpp Require Import base list strings.

Local Open Scope Z_scope.

(** ** Numbers and typed arrays *)

(** ECMAScript ToUint8Clamp, the conversion of a store into a
    [Uint8ClampedArray]. *)
Definition toUint8Clamp (v : Q) : Z :=
  let clamped := Qmin (Qmax v 0) 255 in
  let f := Qfloor clamped in
  match (clamped ?= inject_Z f + (1 # 2))%Q with
  | Lt => f
  | Gt => f + 1
  | Eq => if Z.even f then f else f + 1
  end.

(** [a || b] on numbers: [b] when [a] is falsy, that is zero. *)
Definition js_or (a b : Q) : Q := if Qeq_bool a 0 then b else a.

(** Rounding to the nearest integer, ties to even. *)
Definition roundHalfEven (q : Q) : Z :=
  let f := Qfloor q in
  match (q ?= inject_Z f + (1 # 2))%Q with
  | Lt => f
  | Gt => f + 1
  | Eq => if Z.even f then f else f + 1
  end.

(** The binade of a positive rational: the [e] with [2^e <= q < 2^(e+1)]. *)
Definition binade (q : Q) : Z :=
  let k := Z.log2 (Qnum q) - Z.log2 (Z.pos (Qden q)) in
  if Qle_bool (2 ^ k) q then k else k - 1.

(** The binary64 number nearest to a positive rational: 53 significant
    bits, ties to the even significand. *)
Definition roundPositive (q : Q) : Q :=
  let ulp := (2 ^ (binade q - 52))%Q in
  inject_Z (roundHalfEven (q / ulp)) * ulp.

(** The rounding of the exact result of a binary64 operation. *)
Definition round64 (q : Q) : Q :=
  match Qnum q with
  | 0 => 0
  | Z.pos _ => roundPositive q
  | Z.neg _ => - roundPositive (- q)
  end.

(** The result of a division: a number that need not be finite. *)
Inductive Number :=
| Finite (q : Q)
| Infinity
| NegInfinity
| NaN.

(** [a / b] on finite numbers (a zero divisor is [+0]). *)
Definition js_div (a b : Q) : Number :=
  if Qeq_bool b 0 then
    match (a ?= 0)%Q with
    | Eq => NaN
    | Gt => Infinity
    | Lt => NegInfinity
    end
  else Finite (a / b).

(** [v * c] for a finite [c]. *)
Definition js_mul (v : Number) (c : Q) : Number :=
  match v with
  | Finite q => Finite (q * c)
  | Infinity =>
      match (c ?= 0)%Q with Gt => Infinity | Lt => NegInfinity | Eq => NaN end
  | NegInfinity =>
      match (c ?= 0)%Q with Gt => NegInfinity | Lt => Infinity | Eq => NaN end
  | NaN => NaN
  end.

(** The number as a store into a [Uint8ClampedArray] takes it: ToUint8Clamp
    converts NaN to 0 and clamps the infinities to 0 and 255. *)
Definition stored (v : Number) : Q :=
  match v with
  | Finite q => q
  | Infinity => 255
  | NegInfinity => 0
  | NaN => 0
  end.

(** [d[i]] read as a number. *)
Definition get (d : list Z) (i : nat) : Q := inject_Z (d !!! i).

(** A sequence of stores [d[i] = v], in order. *)
Definition assign (d : list Z) (ws : list (nat * Q)) : list Z :=
  foldl (λ d '(i, v), <[i := toUint8Clamp v]> d) d ws.

Record ImageData := mkImageData {
  width : Z;
  height : Z;
  data : list Z
}.

(** The offset of pixel [(x, y)] in a raster [w] pixels wide. *)
Definition offset (w x y : Z) : nat := Z.to_nat ((y * w + x) * 4).

(** The four bytes at the offset of [(x, y)]. *)
Definition px (w : Z) (d : list Z) (x y : Z) : option (Z * Z * Z * Z) :=
  let i := offset w x y in
  r ← d !! i; g ← d !! (i + 1)%nat; b ← d !! (i + 2)%nat; a ← d !! (i + 3)%nat;
  Some (r, g, b, a).

Definition inside (w h x y : Z) : bool :=
  (0 <=? x) && (x <? w) && (0 <=? y) && (y <? h).

(** The pixel at [(x, y)], when it lies in the raster. *)
Definition pixelAt (img : ImageData) (x y : Z) : option (Z * Z * Z * Z) :=
  if inside (width img) (height img) x y then px (width img) (data img) x y
  else None.

(** [for (let i = 0; i < len; i += 4)]: the offsets visited. *)
Definition pixel_offsets (len : nat) : list nat :=
  (λ k, 4 * k)%nat <$> seq 0 ((len + 3) / 4).

Definition for_pixels {A} (len : nat) (body : nat → A → A) (a : A) : A :=
  foldl (λ acc i, body i acc) a (pixel_offsets len).

(** [for (let y = 0; y < m; y++) for (let x = 0; x < n; x++) body(x, y)]
    and the column-major variant. *)
Definition for_rows {A} (m n : Z) (body : Z → Z → A → A) (a : A) : A :=
  foldl (λ acc y, foldl (λ acc x, body x y acc) acc (seqZ 0 n)) a (seqZ 0 m).

Definition for_cols {A} (m n : Z) (body : Z → Z → A → A) (a : A) : A :=
  foldl (λ acc x, foldl (λ acc y, body x y acc) acc (seqZ 0 n)) a (seqZ 0 m).

(** ** Helper functions of the generator *)

(** [new ImageData(w, h)] is zero-filled; [new ImageData(copy, w, h)]
    takes a copy of the source bytes (the constructor rejects a length
    other than [4 * w * h], which no call of the pipeline passes). *)
Definition createBuffer (w h : Z) (sourceData : option (list Z)) : ImageData :=
  match sourceData with
  | Some copiedData => mkImageData w h copiedData
  | None => mkImageData w h (replicate (Z.to_nat (w * h * 4)) 0)
  end.

Definition toGrayscale (imgData : ImageData) : ImageData :=
  let res := createBuffer (width imgData) (height imgData) (Some (data imgData)) in
  let d := for_pixels (length (data res)) (λ i d,
      let avg := (299 # 1000) * get d i + (587 # 1000) * get d (i + 1)%nat
                 + (114 # 1000) * get d (i + 2)%nat in
      assign d [(i, avg); ((i + 1)%nat, avg); ((i + 2)%nat, avg); ((i + 3)%nat, 255%Q)])%Q
    (data res) in
  mkImageData (width res) (height res) d.

(** The pixel writer of [applyDataBorder]: the stores it makes at a
    coordinate, none when the bounds check returns early. *)
Definition setP_stores (w h : Z) (red green blue alpha : Q) (x y : Z)
    : list (nat * Q) :=
  if (x <? 0) || (x >=? w) || (y <? 0) || (y >=? h) then []
  else
    let i := Z.to_nat ((y * w + x) * 4) in
    [(i, red); ((i + 1)%nat, green); ((i + 2)%nat, blue); ((i + 3)%nat, alpha)].

Definition setP (w h : Z) (red green blue alpha : Q) (x y : Z) (d : list Z) : list Z :=
  assign d (setP_stores w h red green blue alpha x y).

(** The four loop nests of [applyDataBorder], over the action run at
    every coordinate visited. *)
Definition border_loops {A} (w h t r b l : Z) (act : Z → Z → A → A) (a : A) : A :=
  let a := if 0 <? t then for_rows t w (λ x y, act x y) a else a in
  let a := if 0 <? b then for_rows b w (λ x y, act x (h - 1 - y)) a else a in
  let a := if 0 <? l then for_cols l h (λ x y, act x y) a else a in
  let a := if 0 <? r then for_cols r h (λ x y, act (w - 1 - x) y) a else a in
  a.

(** [alpha] defaults to 255 in the source; every call below passes it. *)
Definition applyDataBorder (imageData : ImageData) (t r b l : Z)
    (red green blue : Q) (alpha : Q) : ImageData :=
  if (t <=? 0) && (r <=? 0) && (b <=? 0) && (l <=? 0) then imageData
  else
    let w := width imageData in
    let h := height imageData in
    let d := data imageData in
    mkImageData w h (border_loops w h t r b l (setP w h red green blue alpha) d).

(** The stores of one call of [applyDataBorder], in the order made. *)
Definition applyDataBorder_stores (imageData : ImageData) (t r b l : Z)
    (red green blue : Q) (alpha : Q) : list (nat * Q) :=
  if (t <=? 0) && (r <=? 0) && (b <=? 0) && (l <=? 0) then []
  else
    let w := width imageData in
    let h := height imageData in
    border_loops w h t r b l
      (λ x y acc, acc ++ setP_stores w h red green blue alpha x y) [].

(** The constant [range] of [generateHeight]: [maxV - minV || 1]. *)
Definition heightRange (minV maxV : Q) : Q := js_or (maxV - minV) 1.

(** The value the loop of [generateHeight] computes for the source byte
    [val], before it is stored. *)
Definition heightValue (minV maxV range : Q) (val : Q) : Number :=
  let val := Qmax minV (Qmin maxV val) in
  js_mul (js_div (val - minV) range) 255.

Definition generateHeight (grayData : ImageData) (minP maxP : Q) : ImageData :=
  let w := width grayData in
  let h := height grayData in
  let d := data grayData in
  let res := createBuffer w h None in
  let minV := ((minP / 100) * 255)%Q in
  let maxV := ((maxP / 100) * 255)%Q in
  let range := heightRange minV maxV in
  let rD := for_pixels (length d) (λ i rD,
      let val := stored (heightValue minV maxV range (get d i)) in
      assign rD [(i, val); ((i + 1)%nat, val); ((i + 2)%nat, val); ((i + 3)%nat, 255%Q)])%Q
    (data res) in
  mkImageData w h rD.

Definition generateDisplacement (heightData : ImageData) (strength : Q) : ImageData :=
  let res := createBuffer (width heightData) (height heightData)
                          (Some (data heightData)) in
  let d := for_pixels (length (data res)) (λ i d,
      let v := get d i in
      let v := (v - 128) * strength + 128 in
      let v := Qmax 0 (Qmin 255 v) in
      assign d [(i, v); ((i + 1)%nat, v); ((i + 2)%nat, v); ((i + 3)%nat, 255%Q)])%Q
    (data res) in
  mkImageData (width res) (height res) d.

Definition generateRoughness (heightData : ImageData) (offset : Q) : ImageData :=
  let res := createBuffer (width heightData) (height heightData) None in
  let d := data heightData in
  let shift := (offset * (3 # 2))%Q in
  let rD := for_pixels (length d) (λ i rD,
      let v := 255 - get d i in
      let v := v + shift in
      let v := Qmax 0 (Qmin 255 v) in
      assign rD [(i, v); ((i + 1)%nat, v); ((i + 2)%nat, v); ((i + 3)%nat, 255%Q)])%Q
    (data res) in
  mkImageData (width res) (height res) rD.

Definition generateMetallic (w h : Z) (value : Q) : ImageData :=
  let res := createBuffer w h None in
  let grayVal := inject_Z (Qfloor (round64 (value * 255))) in
  let d := for_pixels (length (data res)) (λ i d,
      assign d [(i, grayVal); ((i + 1)%nat, grayVal); ((i + 2)%nat, grayVal); ((i + 3)%nat, 255%Q)])
    (data res) in
  mkImageData w h d.

(** ** The runtime: [Math] and the canvas *)

Class JsMath := {
  Math_sqrt : Q → Q;
  Math_pow : Q → Q → Q
}.

Definition generateAO `{JsMath} (heightData : ImageData) (w h : Z) (strength : Q)
    : ImageData :=
  let res := createBuffer w h None in
  let d := data heightData in
  let rD := for_pixels (length d) (λ i rD,
      let v := get d i in
      let v := if negb (Qeq_bool strength 1)
               then let n := v / 255 in
                    let n := Math_pow n strength in
                    n * 255
               else v in
      let v := Qmax 0 (Qmin 255 v) in
      assign rD [(i, v); ((i + 1)%nat, v); ((i + 2)%nat, v); ((i + 3)%nat, 255%Q)])%Q
    (data res) in
  mkImageData w h rD.

(** The body of the two loops of [generateNormal], at pixel [(x, y)];
    [offset w] is its [idx]. *)
Definition normalAt `{JsMath} (src : list Z) (w h : Z) (strength : Q) (isDX : bool)
    (x y : Z) (dst : list Z) : list Z :=
  let idx := offset w in
  (let x1 := Z.max 0 (x - 1) in let x2 := Z.min (w - 1) (x + 1) in
   let y1 := Z.max 0 (y - 1) in let y2 := Z.min (h - 1) (y + 1) in
   let tr := get src (idx x2 y1) in
   let tl := get src (idx x1 y1) in
   let l := get src (idx x1 y) in
   let r := get src (idx x2 y) in
   let bl := get src (idx x1 y2) in
   let br := get src (idx x2 y2) in
   let t := get src (idx x y1) in
   let b := get src (idx x y2) in
   let dX := (tr + 2 * r + br) - (tl + 2 * l + bl) in
   let dY := (bl + 2 * b + br) - (tl + 2 * t + tr) in
   let dZ := 255 / Qmax (1 # 10) strength in
   let len := Math_sqrt (dX * dX + dY * dY + dZ * dZ) in
   let nx := (dX / len) * (1 # 2) + (1 # 2) in
   let ny := (dY / len) * (1 # 2) + (1 # 2) in
   let nz := (dZ / len) * (1 # 2) + (1 # 2) in
   let ny := if negb isDX then 1 - ny else ny in
   let i := idx x y in
   assign dst [(i, nx * 255); ((i + 1)%nat, ny * 255);
               ((i + 2)%nat, nz * 255); ((i + 3)%nat, 255)])%Q.

Definition generateNormal `{JsMath} (heightData : ImageData) (w h : Z)
    (strength : Q) (isDX : bool) : ImageData :=
  let res := createBuffer w h None in
  let src := data heightData in
  let dst := for_rows h w (normalAt src w h strength isDX) (data res) in
  mkImageData w h dst.

(** The part of the DOM the generator uses.  [getContext n w h] is the
    answer of [canvas.getContext('2d')] for the [n]-th canvas element
    created, of size [w] by [h]: [None] when the browser returns [null].
    A context is the state of its bitmap; the drawing state ([fillStyle],
    smoothing) travels with the drawing calls. *)
Class Canvas2D := {
  HTMLImageElement : Type;
  img_width : HTMLImageElement → Q;
  img_height : HTMLImageElement → Q;
  Context2D : Type;
  getContext : nat → Z → Z → option Context2D;
  fillRect : string → Q → Q → Q → Q → Context2D → Context2D;
  drawImage : HTMLImageElement → Q → Q → Q → Q → Q → Q → Q → Q →
              Context2D → Context2D;
  readPixel : Context2D → Z → Z → Z * Z * Z * Z;
  putImageData : ImageData → Z → Z → Context2D → Context2D;
  toDataURL : Context2D → string → Q → string
}.

(** [ctx.getImageData(sx, sy, sw, sh)]: the rows of the bitmap, four
    bytes a pixel. *)
Definition getImageData `{Canvas2D} (ctx : Context2D) (sx sy sw sh : Z) : ImageData :=
  mkImageData sw sh
    (y ← seqZ sy sh; x ← seqZ sx sw;
     let '(r, g, b, a) := readPixel ctx x y in [r; g; b; a]).

(** Creating DOM elements is an effect: the state is the number of canvas
    elements created so far. *)
Definition Dom (A : Type) : Type := nat → A * nat.

#[export] Instance Dom_ret : MRet Dom := λ A a n, (a, n).
#[export] Instance Dom_bind : MBind Dom :=
  λ A B f m n, let '(a, n') := m n in f a n'.

(** [document.createElement('canvas')], its size set, then
    [getContext('2d')]. *)
Definition createCanvas `{Canvas2D} (w h : Z) : Dom (option Context2D) :=
  λ n, (getContext n w h, S n).

Definition drawCover `{Canvas2D} (ctx : Context2D) (img : HTMLImageElement)
    (w h : Z) : Context2D :=
  let w := inject_Z w in
  let h := inject_Z h in
  let ratio := Qmax (round64 (w / img_width img)) (round64 (h / img_height img)) in
  let cx := round64 (round64 (w - round64 (img_width img * ratio)) / 2) in
  let cy := round64 (round64 (h - round64 (img_height img * ratio)) / 2) in
  let ctx := fillRect "#000000" 0 0 w h ctx in
  drawImage img 0 0 (img_width img) (img_height img)
            cx cy (round64 (img_width img * ratio)) (round64 (img_height img * ratio))
            ctx.

Definition applyVisualBorder `{Canvas2D} (ctx : Context2D) (w h t r b l : Z)
    (color : string) : Context2D :=
  if (t <=? 0) && (r <=? 0) && (b <=? 0) && (l <=? 0) then ctx
  else
    let ctx := if 0 <? t then fillRect color 0 0 (inject_Z w) (inject_Z t) ctx
               else ctx in
    let ctx := if 0 <? b
               then fillRect color 0 (inject_Z (h - b)) (inject_Z w) (inject_Z b) ctx
               else ctx in
    let ctx := if 0 <? l then fillRect color 0 0 (inject_Z l) (inject_Z h) ctx
               else ctx in
    let ctx := if 0 <? r
               then fillRect color (inject_Z (w - r)) 0 (inject_Z r) (inject_Z h) ctx
               else ctx in
    ctx.

Definition imageDataToDataURL `{Canvas2D} (imageData : ImageData) : Dom string :=
  ctx ← createCanvas (width imageData) (height imageData);
  match ctx with
  | Some ctx =>
      let ctx := putImageData imageData 0 0 ctx in
      mret (toDataURL ctx "image/jpeg" (95 # 100))
  | None => mret ""
  end.

(** ** Types (types.ts) and the entry point *)

Inductive Resolution := SQUARE_2K | WIDE_2K.
Inductive NormalMode := DX | GL.

Definition NormalMode_eqb (a b : NormalMode) : bool :=
  match a, b with DX, DX | GL, GL => true | _, _ => false end.

Module Params.
Record BorderSettings := {
  top : Z;
  bottom : Z;
  left : Z;
  right : Z;
  linked : bool;
  color : string
}.

Record PBRParams := {
  resolution : Resolution;
  normalStrength : Q;
  normalMode : NormalMode;
  displacementStrength : Q;
  heightMin : Q;
  heightMax : Q;
  roughness : Q;
  metallic : Q;
  aoStrength : Q;
  borders : BorderSettings
}.
End Params.

Module Textures.
Record TextureSet := {
  albedo : string;
  normal : string;
  roughness : string;
  metallic : string;
  height : string;
  displacement : string;
  ao : string
}.
End Textures.

(** The rasters behind the seven entries of a [TextureSet]. *)
Module Rasters.
Record t := {
  albedo : ImageData;
  normal : ImageData;
  roughness : ImageData;
  metallic : ImageData;
  height : ImageData;
  displacement : ImageData;
  ao : ImageData
}.
End Rasters.

Inductive JsError := Error (message : string).

Definition dimensions (res : Resolution) : Z * Z :=
  match res with SQUARE_2K => (2048, 2048) | WIDE_2K => (2048, 1080) end.

(** Steps 5 and 6 of [generateTextures]: every raster, from the albedo
    read back from the canvas. *)
Definition deriveMaps `{JsMath} (albedoData : ImageData) (width height : Z)
    (params : Params.PBRParams) : Rasters.t :=
  let bs := Params.borders params in
  let '(t, r, b, l) := (Params.top bs, Params.right bs, Params.bottom bs, Params.left bs) in
  let grayData := toGrayscale albedoData in
  let grayData := applyDataBorder grayData t r b l 0 0 0 255 in
  let heightData :=
    generateHeight grayData (Params.heightMin params) (Params.heightMax params) in
  let heightData := applyDataBorder heightData t r b l 0 0 0 255 in
  let normalData :=
    generateNormal heightData width height (Params.normalStrength params)
                   (NormalMode_eqb (Params.normalMode params) DX) in
  let dispData := generateDisplacement heightData (Params.displacementStrength params) in
  let dispData := applyDataBorder dispData t r b l 0 0 0 255 in
  let roughnessData := generateRoughness heightData (Params.roughness params) in
  let roughnessData := applyDataBorder roughnessData t r b l 255 255 255 255 in
  let metallicData := generateMetallic width height (Params.metallic params) in
  let metallicData := applyDataBorder metallicData t r b l 0 0 0 255 in
  let aoData := generateAO heightData width height (Params.aoStrength params) in
  {| Rasters.albedo := albedoData; Rasters.normal := normalData;
     Rasters.roughness := roughnessData; Rasters.metallic := metallicData;
     Rasters.height := heightData; Rasters.displacement := dispData;
     Rasters.ao := aoData |}.

(** The object literal that [generateTextures] returns: its fields are
    evaluated in the order written. *)
Definition encodeMaps `{Canvas2D} (m : Rasters.t) : Dom Textures.TextureSet :=
  albedo ← imageDataToDataURL (Rasters.albedo m);
  normal ← imageDataToDataURL (Rasters.normal m);
  roughness ← imageDataToDataURL (Rasters.roughness m);
  metallic ← imageDataToDataURL (Rasters.metallic m);
  height ← imageDataToDataURL (Rasters.height m);
  displacement ← imageDataToDataURL (Rasters.displacement m);
  ao ← imageDataToDataURL (Rasters.ao m);
  mret {| Textures.albedo := albedo; Textures.normal := normal;
          Textures.roughness := roughness; Textures.metallic := metallic;
          Textures.height := height; Textures.displacement := displacement;
          Textures.ao := ao |}.

(** The albedo as step 4 reads it back: cover-fit drawing, then the
    visual border. *)
Definition albedoOf `{Canvas2D} (ctx : Context2D) (sourceImage : HTMLImageElement)
    (width height : Z) (params : Params.PBRParams) : ImageData :=
  let bs := Params.borders params in
  let ctx := drawCover ctx sourceImage width height in
  let ctx := applyVisualBorder ctx width height (Params.top bs) (Params.right bs)
               (Params.bottom bs) (Params.left bs) (Params.color bs) in
  getImageData ctx 0 0 width height.

(** A rejected promise is [inl], a fulfilled one [inr]. *)
Definition generateTextures `{JsMath} `{Canvas2D} (sourceImage : HTMLImageElement)
    (params : Params.PBRParams) : Dom (JsError + Textures.TextureSet) :=
  let '(width, height) := dimensions (Params.resolution params) in
  ctx ← createCanvas width height;
  match ctx with
  | None => mret (inl (Error "Failed to create canvas context"))
  | Some ctx =>
      let albedoData := albedoOf ctx sourceImage width height params in
      let maps := deriveMaps albedoData width height params in
      ts ← encodeMaps maps;
      mret (inr ts)
  end.

(** ** Vocabulary of the properties *)

(** The byte a gray pixel loop leaves at index [j]: the converted value
    in the three colour channels, 255 in alpha. *)
Definition gray_byte (f : nat → list Z → Q) (d0 : list Z) (j : nat) : Z :=
  if decide (j `mod` 4 = 3)%nat then 255
  else toUint8Clamp (f (4 * (j `div` 4))%nat d0).

Definition gray_body (f : nat → list Z → Q) (i : nat) (d : list Z) : list Z :=
  assign d [(i, f i d); ((i + 1)%nat, f i d); ((i + 2)%nat, f i d);
            ((i + 3)%nat, 255%Q)].

(** The coordinates a row-major (column-major) loop nest visits, in
    order, and those of the four nests of [applyDataBorder]. *)
Definition visits_rows (m n : Z) : list (Z * Z) :=
  y ← seqZ 0 m; (λ x, (x, y)) <$> seqZ 0 n.

Definition visits_cols (m n : Z) : list (Z * Z) :=
  x ← seqZ 0 m; (λ y, (x, y)) <$> seqZ 0 n.

Definition border_visits (w h t r b l : Z) : list (Z * Z) :=
  border_loops w h t r b l (λ x y acc, acc ++ [(x, y)]) [].

(** The visits of [applyDataBorder], nest by nest: top rows, bottom rows
    counted from the last, left columns, right columns counted from the
    last. *)
Definition border_segments (w h t r b l : Z) : list (Z * Z) :=
  (if 0 <? t then visits_rows t w else []) ++
  (if 0 <? b then (λ p, (p.1, h - 1 - p.2)) <$> visits_rows b w else []) ++
  (if 0 <? l then visits_cols l h else []) ++
  (if 0 <? r then (λ p, (w - 1 - p.1, p.2)) <$> visits_cols r h else []).

(** [act] paints [P]: run on a buffer of [N] bytes at a coordinate of [L],
    it keeps the length and changes the pixel at that coordinate, and no
    other pixel of the raster, to [P]. *)
Definition paints (w h : Z) (N : nat) (L : list (Z * Z))
    (act : Z → Z → list Z → list Z) (P : Z * Z * Z * Z) : Prop :=
  ∀ x y d, (x, y) ∈ L → length d = N →
    length (act x y d) = N ∧
    ∀ x' y', 0 ≤ x' < w → 0 ≤ y' < h →
      px w (act x y d) x' y' =
        if decide ((x, y) = (x', y')) then Some P else px w d x' y'.

(** The border band: the top [t] and bottom [b] rows, the left [l] and
    right [r] columns. *)
Definition in_band (w h t r b l x y : Z) : bool :=
  (y <? t) || (h - b <=? y) || (x <? l) || (w - r <=? x).

(** A raster as the pipeline keeps it: non-negative dimensions, four
    bytes a pixel, every byte in 0..255. *)
Definition byte (b : Z) : bool := (0 <=? b) && (b <=? 255).

Definition well_formed (img : ImageData) : bool :=
  (0 <=? width img) && (0 <=? height img) &&
  (length (data img) =? Z.to_nat (width img * height img * 4))%nat &&
  forallb byte (data img).

(** A height field: a well-formed raster whose pixels are gray and opaque,
    as [generateHeight] and the data border leave them. *)
Fixpoint gray_opaque (d : list Z) : bool :=
  match d with
  | [] => true
  | r :: g :: b :: a :: d' => (g =? r) && (b =? r) && (a =? 255) && gray_opaque d'
  | _ => false
  end.

Definition is_height_field (img : ImageData) : bool :=
  well_formed img && gray_opaque (data img).

(** The bytes of gray, opaque pixels, index by index: alpha is 255 and
    the three colour channels hold the red one. *)
Definition gray_bytes (d : list Z) : Prop :=
  ∀ j, (j < length d)%nat →
    d !! j = Some (if decide (j `mod` 4 = 3)%nat then 255
                   else d !!! (4 * (j `div` 4))%nat).

(** [clamp(x, lo, hi)] as the specification writes it. *)
Definition clamp (x lo hi : Q) : Q :=
  if Qlt_le_dec x lo then lo else if Qlt_le_dec hi x then hi else x.

(** The roughness formula of the specification:
    [clamp((255 - height) + roughnessOffset*1.5, 0, 255)]. *)
Definition roughness_formula (height : Z) (roughnessOffset : Q) : Q :=
  clamp ((255 - inject_Z height) + roughnessOffset * (15 # 10)) 0 255.

(** The displacement formula of the specification:
    [clamp((height - 128) * displacementStrength + 128, 0, 255)]. *)
Definition displacement_formula (height : Z) (displacementStrength : Q) : Q :=
  clamp ((inject_Z height - 128) * displacementStrength + 128) 0 255.

(** A flat height field: the red channel, which [generateNormal] reads,
    is [c] at every pixel. *)
Definition flat (img : ImageData) (c : Z) : Prop :=
  ∀ x y, 0 ≤ x < width img → 0 ≤ y < height img →
    data img !! offset (width img) x y = Some c.

(** What the properties of [generateNormal] need of [Math.sqrt]: it is a
    function of the value of its argument, exact on squares. *)
Definition sqrt_exact_on_squares (M : JsMath) : Prop :=
  (∀ a b, a == b → Math_sqrt a == Math_sqrt b) ∧
  (∀ a, (0 <= a)%Q → Math_sqrt (a * a) == a).

(** The documented range of the border thicknesses:
    [0 .. min(width, height) / 2]. *)
Definition documented_border (w h : Z) (bs : Params.BorderSettings) : bool :=
  forallb (λ t, (0 <=? t) && (t <=? Z.min w h / 2))
          [Params.top bs; Params.right bs; Params.bottom bs; Params.left bs].

(** ** A reference runtime

    An instance of the two interfaces, to run the generator on small
    inputs: the square root is exact on the squares of rationals, the
    power on integer exponents, and [ok n] tells whether the [n]-th canvas
    gets a context. *)

Definition Qsqrt (q : Q) : Q :=
  let r := Qred q in Z.sqrt (Qnum r) # Pos.sqrt (Qden r).

Definition refMath : JsMath :=
  {| Math_sqrt := Qsqrt; Math_pow := λ x y, Qpower x (Qfloor y) |}.

Definition refCanvas (ok : nat → bool) : Canvas2D :=
  {| HTMLImageElement := unit;
     img_width := λ _, 1%Q;
     img_height := λ _, 1%Q;
     Context2D := option ImageData;
     getContext := λ n w h, if ok n then Some None else None;
     fillRect := λ _ _ _ _ _ ctx, ctx;
     drawImage := λ _ _ _ _ _ _ _ _ _ ctx, ctx;
     readPixel := λ _ _ _, (128, 128, 128, 255);
     putImageData := λ img _ _ _, Some img;
     toDataURL := λ _ type _, "data:" +:+ type |}.

Definition sampleParams (minP maxP : Q) (t r b l : Z) : Params.PBRParams :=
  {| Params.resolution := SQUARE_2K;
     Params.normalStrength := 3 # 2;
     Params.normalMode := DX;
     Params.displacementStrength := 22 # 10;
     Params.heightMin := minP;
     Params.heightMax := maxP;
     Params.roughness := 0;
     Params.metallic := 0;
     Params.aoStrength := 1;
     Params.borders :=
       {| Params.top := t; Params.bottom := b; Params.left := l;
          Params.right := r; Params.linked := false;
          Params.color := "#808080" |} |}.

(** ** Value functions of the synthesizers

    The byte each synthesizer stores for a source byte, as its loop body
    computes it. *)

Definition heightLevel (minP maxP : Q) (luma : Z) : Z :=
  let minV := ((minP / 100) * 255)%Q in
  let maxV := ((maxP / 100) * 255)%Q in
  toUint8Clamp ((Qmax minV (Qmin maxV (inject_Z luma)) - minV)
                / js_or (maxV - minV) 1 * 255).

Definition roughnessLevel (offset' : Q) (height : Z) : Z :=
  toUint8Clamp (Qmax 0 (Qmin 255 (255 - inject_Z height + offset' * (3 # 2)))).

Definition displacementLevel (strength : Q) (height : Z) : Z :=
  toUint8Clamp (Qmax 0 (Qmin 255 ((inject_Z height - 128) * strength + 128))).

(** [act] paints [P x y] at every coordinate [(x, y)] of [L]: the
    coordinate-dependent form of [paints]. *)
Definition paints_each (w h : Z) (N : nat) (L : list (Z * Z))
    (act : Z → Z → list Z → list Z) (P : Z → Z → Z * Z * Z * Z) : Prop :=
  ∀ x y d, (x, y) ∈ L → length d = N →
    length (act x y d) = N ∧
    ∀ x' y', 0 ≤ x' < w → 0 ≤ y' < h →
      px w (act x y d) x' y' =
        if decide ((x, y) = (x', y')) then Some (P x y) else px w d x' y'.

(** The three numbers [generateNormal] stores at [(x, y)]: the encoded
    components of the unit normal, as its loop body computes them. *)
Definition normalEncoding `{JsMath} (src : list Z) (w h : Z) (strength : Q)
    (isDX : bool) (x y : Z) : Q * Q * Q :=
  let idx := offset w in
  (let x1 := Z.max 0 (x - 1) in let x2 := Z.min (w - 1) (x + 1) in
   let y1 := Z.max 0 (y - 1) in let y2 := Z.min (h - 1) (y + 1) in
   let tr := get src (idx x2 y1) in
   let tl := get src (idx x1 y1) in
   let l := get src (idx x1 y) in
   let r := get src (idx x2 y) in
   let bl := get src (idx x1 y2) in
   let br := get src (idx x2 y2) in
   let t := get src (idx x y1) in
   let b := get src (idx x y2) in
   let dX := (tr + 2 * r + br) - (tl + 2 * l + bl) in
   let dY := (bl + 2 * b + br) - (tl + 2 * t + tr) in
   let dZ := 255 / Qmax (1 # 10) strength in
   let len := Math_sqrt (dX * dX + dY * dY + dZ * dZ) in
   let nx := (dX / len) * (1 # 2) + (1 # 2) in
   let ny := (dY / len) * (1 # 2) + (1 # 2) in
   let nz := (dZ / len) * (1 # 2) + (1 # 2) in
   let ny := if negb isDX then 1 - ny else ny in
   (nx * 255, ny * 255, nz * 255))%Q.

(** ** A recording canvas

    The canvas whose context is the list of the drawing calls made on it,
    to state where the generator draws.  An image is its width and
    height. *)

Inductive DrawCall :=
| FillRect (fillStyle : string) (x y w h : Q)
| DrawImage (sx sy sw sh dx dy dw dh : Q).

Definition traceCanvas : Canvas2D :=
  {| HTMLImageElement := Q * Q;
     img_width := fst;
     img_height := snd;
     Context2D := list DrawCall;
     getContext := λ _ _ _, Some [];
     fillRect := λ style x y w h ctx, ctx ++ [FillRect style x y w h];
     drawImage := λ _ sx sy sw sh dx dy dw dh ctx,
                    ctx ++ [DrawImage sx sy sw sh dx dy dw dh];
     readPixel := λ _ _ _, (0, 0, 0, 255);
     putImageData := λ _ _ _ ctx, ctx;
     toDataURL := λ _ _ _, "" |}.

(** The calls that fill the unit square of pixel [(x, y)] with [style]. *)
Definition fills (style : string) (x y : Z) (c : DrawCall) : bool :=
  match c with
  | FillRect s rx ry rw rh =>
      String.eqb s style &&
      Qle_bool rx (inject_Z x) && Qle_bool (inject_Z x + 1) (rx + rw) &&
      Qle_bool ry (inject_Z y) && Qle_bool (inject_Z y + 1) (ry + rh)
  | DrawImage _ _ _ _ _ _ _ _ => false
  end.

(** ** The component (App.tsx): parameter handlers

    The state the handlers act on is the [PBRParams] record; each handler
    is the function it passes to [setParams]. *)

Module App.

Definition DEFAULT_PARAMS : Params.PBRParams :=
  {| Params.resolution := SQUARE_2K;
     Params.normalStrength := 15 # 10;
     Params.normalMode := DX;
     Params.displacementStrength := 22 # 10;
     Params.heightMin := 20;
     Params.heightMax := 80;
     Params.roughness := 0;
     Params.metallic := 0;
     Params.aoStrength := 1;
     Params.borders :=
       {| Params.top := 0; Params.bottom := 0; Params.left := 0; Params.right := 0;
          Params.linked := true; Params.color := "#808080" |} |}.

(** A key of [PBRParams] with a value of its type. *)
Inductive ParamUpdate :=
| resolution (v : Resolution)
| normalStrength (v : Q)
| normalMode (v : NormalMode)
| displacementStrength (v : Q)
| heightMin (v : Q)
| heightMax (v : Q)
| roughness (v : Q)
| metallic (v : Q)
| aoStrength (v : Q)
| borders (v : Params.BorderSettings).

(** [setParams(prev => ({ ...prev, [key]: value }))]. *)
Definition updateParam (kv : ParamUpdate) (prev : Params.PBRParams)
    : Params.PBRParams :=
  let '(Params.Build_PBRParams res ns nm ds hmin hmax ro me ao bs) := prev in
  match kv with
  | resolution v => Params.Build_PBRParams v ns nm ds hmin hmax ro me ao bs
  | normalStrength v => Params.Build_PBRParams res v nm ds hmin hmax ro me ao bs
  | normalMode v => Params.Build_PBRParams res ns v ds hmin hmax ro me ao bs
  | displacementStrength v => Params.Build_PBRParams res ns nm v hmin hmax ro me ao bs
  | heightMin v => Params.Build_PBRParams res ns nm ds v hmax ro me ao bs
  | heightMax v => Params.Build_PBRParams res ns nm ds hmin v ro me ao bs
  | roughness v => Params.Build_PBRParams res ns nm ds hmin hmax v me ao bs
  | metallic v => Params.Build_PBRParams res ns nm ds hmin hmax ro v ao bs
  | aoStrength v => Params.Build_PBRParams res ns nm ds hmin hmax ro me v bs
  | borders v => Params.Build_PBRParams res ns nm ds hmin hmax ro me ao v
  end.

(** The keys of [BorderSettings], and the values [updateBorder] accepts:
    [number | boolean | string]. *)
Inductive BorderKey := Top | Bottom | Left | Right | Linked | Color.

Inductive BorderValue :=
| Num (n : Z)
| Bool (b : bool)
| Str (s : string).

(** [updateBorder].  Its last branch, [newBorders[key] = value], stores a
    number under any key: under ['linked'] or ['color'] the result leaves
    the type of [BorderSettings], and is [None] here.  No call of the
    component reaches that case. *)
Definition updateBorder (key : BorderKey) (value : BorderValue)
    (prev : Params.PBRParams) : option Params.PBRParams :=
  let '(Params.Build_BorderSettings t b l r lk c) := Params.borders prev in
  match key, value with
  | Linked, Bool v =>
      Some (updateParam (borders (Params.Build_BorderSettings t b l r v c)) prev)
  | Color, Str v =>
      Some (updateParam (borders (Params.Build_BorderSettings t b l r lk v)) prev)
  | _, Num v =>
      if lk
      then Some (updateParam (borders (Params.Build_BorderSettings v v v v lk c)) prev)
      else match key with
           | Top => Some (updateParam (borders (Params.Build_BorderSettings v b l r lk c)) prev)
           | Bottom => Some (updateParam (borders (Params.Build_BorderSettings t v l r lk c)) prev)
           | Left => Some (updateParam (borders (Params.Build_BorderSettings t b v r lk c)) prev)
           | Right => Some (updateParam (borders (Params.Build_BorderSettings t b l v lk c)) prev)
           | Linked | Color => None
           end
  | _, _ => Some (updateParam (borders (Params.Build_BorderSettings t b l r lk c)) prev)
  end.

Definition Qltb (x y : Q) : bool := negb (Qle_bool y x).

(** The two height sliders: [if (v < params.heightMax) updateParam('heightMin', v)]
    and [if (v > params.heightMin) updateParam('heightMax', v)]; [v] is the
    [parseInt] of the slider's value. *)
Definition onHeightMin (v : Z) (params : Params.PBRParams) : Params.PBRParams :=
  if Qltb (inject_Z v) (Params.heightMax params)
  then updateParam (heightMin (inject_Z v)) params else params.

Definition onHeightMax (v : Z) (params : Params.PBRParams) : Params.PBRParams :=
  if Qltb (Params.heightMin params) (inject_Z v)
  then updateParam (heightMax (inject_Z v)) params else params.

(** Every place of the component that changes the parameters: the reset
    buttons, the radio buttons, the sliders ([parseFloat] or [parseInt]
    of the slider's value) and the four border inputs
    ([parseInt(e.target.value) || 0]).  A handler that calls
    [updateParam] twice composes the two updates. *)
Inductive Event :=
| PickResolution (res : Resolution)
| ResetResolution
| ResetBorders
| ToggleLinked
| EditTop (n : Z)
| EditLeft (n : Z)
| EditRight (n : Z)
| EditBottom (n : Z)
| EditColor (c : string)
| ResetNormal
| PickNormalMode (m : NormalMode)
| SlideNormalStrength (v : Q)
| ResetDisplacement
| SlideDisplacement (v : Q)
| ResetHeight
| SlideHeightMin (v : Z)
| SlideHeightMax (v : Z)
| ResetRoughness
| SlideRoughness (v : Z)
| ResetMetallic
| SlideMetallic (v : Q)
| ResetAO
| SlideAO (v : Q)
| ResetAll.

Definition handle (e : Event) (params : Params.PBRParams) : Params.PBRParams :=
  match e with
  | PickResolution res => updateParam (resolution res) params
  | ResetResolution =>
      updateParam (resolution (Params.resolution DEFAULT_PARAMS)) params
  | ResetBorders => updateParam (borders (Params.borders DEFAULT_PARAMS)) params
  | ToggleLinked =>
      default params
        (updateBorder Linked (Bool (negb (Params.linked (Params.borders params)))) params)
  | EditTop n => default params (updateBorder Top (Num n) params)
  | EditLeft n => default params (updateBorder Left (Num n) params)
  | EditRight n => default params (updateBorder Right (Num n) params)
  | EditBottom n => default params (updateBorder Bottom (Num n) params)
  | EditColor c => default params (updateBorder Color (Str c) params)
  | ResetNormal =>
      updateParam (normalMode (Params.normalMode DEFAULT_PARAMS))
        (updateParam (normalStrength (Params.normalStrength DEFAULT_PARAMS)) params)
  | PickNormalMode m => updateParam (normalMode m) params
  | SlideNormalStrength v => updateParam (normalStrength v) params
  | ResetDisplacement =>
      updateParam (displacementStrength (Params.displacementStrength DEFAULT_PARAMS))
                  params
  | SlideDisplacement v => updateParam (displacementStrength v) params
  | ResetHeight =>
      updateParam (heightMax (Params.heightMax DEFAULT_PARAMS))
        (updateParam (heightMin (Params.heightMin DEFAULT_PARAMS)) params)
  | SlideHeightMin v => onHeightMin v params
  | SlideHeightMax v => onHeightMax v params
  | ResetRoughness => updateParam (roughness (Params.roughness DEFAULT_PARAMS)) params
  | SlideRoughness v => updateParam (roughness (inject_Z v)) params
  | ResetMetallic => updateParam (metallic (Params.metallic DEFAULT_PARAMS)) params
  | SlideMetallic v => updateParam (metallic v) params
  | ResetAO => updateParam (aoStrength (Params.aoStrength DEFAULT_PARAMS)) params
  | SlideAO v => updateParam (aoStrength v) params
  | ResetAll => DEFAULT_PARAMS
  end.

(** The parameters after a sequence of events, from the initial state. *)
Definition run (events : list Event) : Params.PBRParams :=
  foldl (λ params e, handle e params) DEFAULT_PARAMS events.

(** The thickness stored under a side key. *)
Definition side (key : BorderKey) (bs : Params.BorderSettings) : option Z :=
  match key with
  | Top => Some (Params.top bs)
  | Bottom => Some (Params.bottom bs)
  | Left => Some (Params.left bs)
  | Right => Some (Params.right bs)
  | Linked | Color => None
  end.

End App.

(** ** The component (App.tsx): the material name and the archive

    A JavaScript string is its sequence of UTF-16 code units; the two
    regular expressions have no [u] flag, so [replace] works unit by
    unit. *)

Module Archive.

Definition JsString := list N.

Definition units (s : string) : JsString :=
  (λ c, Ascii.N_of_ascii c) <$> String.list_ascii_of_string s.

Definition isDigit (c : N) : bool := ((48 <=? c) && (c <=? 57))%N.
Definition isUpper (c : N) : bool := ((65 <=? c) && (c <=? 90))%N.
Definition isLower (c : N) : bool := ((97 <=? c) && (c <=? 122))%N.

Definition underscore : N := 95.
Definition hyphen : N := 45.

(** The name field: [e.target.value.replace(/[^A-Za-z0-9_-]/g, '_')]. *)
Definition onNameChange (value : JsString) : JsString :=
  (λ c, if isUpper c || isLower c || isDigit c || (c =? underscore)%N || (c =? hyphen)%N
        then c else underscore) <$> value.

(** [materialName.replace(/[^a-z0-9]/gi, '_')]: with the [i] flag the
    class matches the letters of both cases (a unit above 127 is never
    folded onto an ASCII letter). *)
Definition cleanName (materialName : JsString) : JsString :=
  (λ c, if isLower c || isUpper c || isDigit c then c else underscore)
    <$> materialName.

(** [String.prototype.trim]: white space and line terminators. *)
Definition isWhiteSpace (c : N) : bool :=
  bool_decide (c ∈ [9; 10; 11; 12; 13; 32; 160; 5760; 8192; 8193; 8194; 8195;
                    8196; 8197; 8198; 8199; 8200; 8201; 8202; 8232; 8233;
                    8239; 8287; 12288; 65279]%N).

Fixpoint trimStart (s : JsString) : JsString :=
  match s with
  | c :: s' => if isWhiteSpace c then trimStart s' else s
  | [] => []
  end.

Definition trim (s : JsString) : JsString :=
  reverse (trimStart (reverse (trimStart s))).

Definition comma : Ascii.ascii := Ascii.ascii_of_N 44.

(** [dataUrl.split(',')], for a separator of one character. *)
Fixpoint split (sep : Ascii.ascii) (s : string) : list string :=
  match s with
  | EmptyString => [EmptyString]
  | String c s' =>
      if Ascii.eqb c sep then EmptyString :: split sep s'
      else match split sep s' with
           | hd :: tl => String c hd :: tl
           | [] => [String c EmptyString]
           end
  end.

(** A JSZip archive as the list of its [file] calls: name and base64
    data ([None] for [undefined]). *)
Definition Zip := list (JsString * option string).

Definition addToZip (cleanName : JsString) (suffix dataUrl : string)
    (isJpg : bool) (zip : Zip) : Zip :=
  let data := split comma dataUrl !! 1%nat in
  zip ++ [(cleanName ++ units "_" ++ units suffix ++ units "."
             ++ units (if isJpg then "jpg" else "png"), data)].

Definition addAll (cleanName : JsString) (textures : Textures.TextureSet) : Zip :=
  addToZip cleanName "AO" (Textures.ao textures) false
    (addToZip cleanName "Displacement" (Textures.displacement textures) false
      (addToZip cleanName "Height" (Textures.height textures) false
        (addToZip cleanName "Metallic" (Textures.metallic textures) false
          (addToZip cleanName "Roughness" (Textures.roughness textures) false
            (addToZip cleanName "Normal" (Textures.normal textures) false
              (addToZip cleanName "Albedo" (Textures.albedo textures) true [])))))).

(** The state of the component that the two generation paths read and
    write. *)
Record State `{Canvas2D} := mkState {
  materialName : JsString;
  nameError : bool;
  sourceImage : option HTMLImageElement;
  params : Params.PBRParams;
  generatedTextures : option Textures.TextureSet;
  isProcessing : bool;
  showPreview : bool
}.

Definition setNameError `{Canvas2D} (v : bool) (st : State) : State :=
  mkState _ (materialName st) v (sourceImage st) (params st)
          (generatedTextures st) (isProcessing st) (showPreview st).

Definition setIsProcessing `{Canvas2D} (v : bool) (st : State) : State :=
  mkState _ (materialName st) (nameError st) (sourceImage st) (params st)
          (generatedTextures st) v (showPreview st).

Definition setGeneratedTextures `{Canvas2D} (v : option Textures.TextureSet)
    (st : State) : State :=
  mkState _ (materialName st) (nameError st) (sourceImage st) (params st)
          v (isProcessing st) (showPreview st).

(** What [handleGenerateZip] hands to [FileSaver.saveAs]. *)
Record Download := mkDownload {
  fileName : JsString;
  content : Zip
}.

(** [handleGenerateZip]: the state it leaves and the archive it saves, if
    any.  The call of [generateTextures] is not inside a [try]: when it
    rejects, the handler ends there. *)
Definition handleGenerateZip `{Canvas2D} `{JsMath} (st : State)
    : Dom (State * option Download) :=
  match trim (materialName st) with
  | [] => mret (setNameError true st, None)
  | _ :: _ =>
      match sourceImage st with
      | None => mret (st, None)
      | Some img =>
          let st := setIsProcessing true st in
          r ← generateTextures img (params st);
          match r with
          | inl _ => mret (st, None)
          | inr textures =>
              let cleanName := cleanName (materialName st) in
              let zip := addAll cleanName textures in
              mret (setIsProcessing false st,
                    Some (mkDownload (cleanName ++ units "_D5_PBR.zip") zip))
          end
      end
  end.

(** The body of the debounced effect, once its timer fires: the call is
    inside [try / catch / finally]. *)
Definition previewEffect `{Canvas2D} `{JsMath} (st : State) : Dom State :=
  match sourceImage st with
  | None => mret st
  | Some img =>
      if showPreview st
      then
        let st := setIsProcessing true st in
        r ← generateTextures img (params st);
        match r with
        | inr textures =>
            mret (setIsProcessing false (setGeneratedTextures (Some textures) st))
        | inl _ => mret (setIsProcessing false st)
        end
      else mret st
  end.

End Archive.

(** ** The preview (Preview3D.tsx, [MaterialMesh]) *)

Module Preview.

(** [displacementScale * 0.03] and [-visualDisplacement / 2]. *)
Definition visualDisplacement (displacementScale : Q) : Q :=
  displacementScale * (3 # 100).

Definition displacementBias (displacementScale : Q) : Q :=
  - visualDisplacement displacementScale / 2.

(** The maps of the material, by the entry of the texture set each one
    loads. *)
Record Maps := mkMaps {
  map : string;
  normalMap : string;
  roughnessMap : string;
  metalnessMap : string;
  displacementMap : string;
  aoMap : string
}.

Definition maps (textures : Textures.TextureSet) : Maps :=
  {| map := Textures.albedo textures;
     normalMap := Textures.normal textures;
     roughnessMap := Textures.roughness textures;
     metalnessMap := Textures.metallic textures;
     displacementMap := Textures.height textures;
     aoMap := Textures.ao textures |}.

End Preview.

(** A state of the component over the reference canvas: a material name,
    a loaded image, the preview switched on. *)
Definition sampleState (ok : nat → bool) (name : string)
    : Archive.State (H := refCanvas ok) :=
  Archive.mkState (refCanvas ok) (Archive.units name) false (Some tt)
                  (sampleParams 20 80 0 0 0 0) None false true.

(** * Properties *)

(** ** Stores into a clamped byte array *)

Lemma toUint8Clamp_comp (v v' : Q) : v == v' → toUint8Clamp v = toUint8Clamp v'.
Proof.
  intros E. unfold toUint8Clamp.
  assert (Ec : Qmin (Qmax v 0) 255 == Qmin (Qmax v' 0) 255) by (rewrite E; reflexivity).
  rewrite (Qfloor_comp _ _ Ec).
  rewrite (Qcompare_comp _ _ Ec _ _ (Qeq_refl _)).
  reflexivity.
Qed.

Lemma inject_Z_le (a b : Z) : a ≤ b → (inject_Z a <= inject_Z b)%Q.
Proof. intros Hab. unfold Qle. simpl. lia. Qed.

Lemma toUint8Clamp_byte (z : Z) : 0 ≤ z ≤ 255 → toUint8Clamp (inject_Z z) = z.
Proof.
  intros Hz. unfold toUint8Clamp.
  assert (Ec : Qmin (Qmax (inject_Z z) 0) 255 == inject_Z z).
  { assert (E0 : Qmax (inject_Z z) 0 == inject_Z z).
    { apply Q.max_l. apply (inject_Z_le 0 z). lia. }
    rewrite E0. apply Q.min_l. apply (inject_Z_le z 255). lia. }
  rewrite (Qfloor_comp _ _ Ec), Qfloor_Z.
  rewrite (Qcompare_comp _ _ Ec _ _ (Qeq_refl _)).
  assert (Hlt : (inject_Z z < inject_Z z + (1 # 2))%Q) by lra.
  rewrite (proj1 (Qlt_alt _ _) Hlt). reflexivity.
Qed.

Lemma toUint8Clamp_range (v : Q) : 0 ≤ toUint8Clamp v ≤ 255.
Proof.
  unfold toUint8Clamp.
  set (c := Qmin (Qmax v 0) 255).
  assert (H0 : (0 <= c)%Q).
  { apply Q.min_glb; [apply Q.le_max_r | lra]. }
  assert (H1 : (c <= 255)%Q) by apply Q.le_min_r.
  assert (F0 : 0 ≤ Qfloor c).
  { change 0 with (Qfloor 0). apply Qfloor_resp_le, H0. }
  assert (F1 : Qfloor c ≤ 255).
  { change 255 with (Qfloor 255). apply Qfloor_resp_le, H1. }
  destruct (Z.eq_dec (Qfloor c) 255) as [E|N].
  - assert (Hc : c == 255).
    { apply Qle_antisym; [exact H1|]. rewrite <- E at 1. apply Qfloor_le. }
    rewrite (Qfloor_comp _ _ Hc).
    rewrite (Qcompare_comp _ _ Hc _ _ (Qeq_refl _)).
    change (0 ≤ 255 ≤ 255). lia.
  - destruct (c ?= _)%Q; [destruct (Z.even _)| |]; lia.
Qed.

Lemma assign_length (d : list Z) (ws : list (nat * Q)) :
  length (assign d ws) = length d.
Proof.
  unfold assign. revert d.
  induction ws as [|[i v] ws IH]; intros d; simpl; [done|].
  by rewrite IH, length_insert.
Qed.

Lemma assign_app (d : list Z) (ws ws' : list (nat * Q)) :
  assign d (ws ++ ws') = assign (assign d ws) ws'.
Proof. unfold assign. apply foldl_app. Qed.

(** A store list that misses index [j] leaves [d[j]] alone. *)
Lemma assign_lookup_other (d : list Z) (ws : list (nat * Q)) (j : nat) :
  (∀ i v, (i, v) ∈ ws → i ≠ j) → assign d ws !! j = d !! j.
Proof.
  unfold assign. revert d.
  induction ws as [|[i v] ws IH]; intros d Hws; simpl; [done|].
  rewrite IH by (intros i' v' Hin; apply (Hws i' v'); by right).
  apply list_lookup_insert_ne. apply (Hws i v). by left.
Qed.

(** The four stores of one pixel. *)
Lemma assign_pixel (d : list Z) (i : nat) (r g b a : Q) (j : nat) :
  (i + 3 < length d)%nat →
  assign d [(i, r); ((i + 1)%nat, g); ((i + 2)%nat, b); ((i + 3)%nat, a)] !! j =
    if decide (j = i) then Some (toUint8Clamp r)
    else if decide (j = (i + 1)%nat) then Some (toUint8Clamp g)
    else if decide (j = (i + 2)%nat) then Some (toUint8Clamp b)
    else if decide (j = (i + 3)%nat) then Some (toUint8Clamp a)
    else d !! j.
Proof.
  intros Hlen. unfold assign. simpl.
  rewrite !list_lookup_insert, !length_insert.
  repeat case_decide; try done; try lia.
Qed.

(** ** The per-pixel loops *)

Lemma toUint8Clamp_255 : toUint8Clamp 255 = 255.
Proof. reflexivity. Qed.

Lemma toUint8Clamp_0 : toUint8Clamp 0 = 0.
Proof. reflexivity. Qed.

Lemma div_mod_4 (m c : nat) :
  (c < 4)%nat →
  ((4 * m + c) `div` 4 = m)%nat ∧ ((4 * m + c) `mod` 4 = c)%nat.
Proof.
  intros Hc. split.
  - symmetry. apply (Nat.div_unique _ 4 m c); lia.
  - symmetry. apply (Nat.mod_unique _ 4 m c); lia.
Qed.

Lemma gray_steps (f : nat → list Z → Q) (d0 : list Z) (m : nat) :
  (∀ i d d', (∀ j, (i ≤ j)%nat → d !! j = d' !! j) → f i d = f i d') →
  (4 * m ≤ length d0)%nat →
  let d := foldl (λ acc i, gray_body f i acc) d0 ((λ k, 4 * k)%nat <$> seq 0 m) in
  length d = length d0 ∧
  ∀ j, ((j < 4 * m)%nat → d !! j = Some (gray_byte f d0 j)) ∧
       ((4 * m ≤ j)%nat → d !! j = d0 !! j).
Proof.
  intros Hloc. induction m as [|m IH]; intros Hlen.
  { simpl. split; [done|]. intros j. split; [lia|done]. }
  rewrite seq_S, fmap_app, foldl_app. cbn [fmap list_fmap foldl Nat.add].
  destruct IH as [IHlen IHj]; [lia|].
  set (d := foldl _ d0 _) in *.
  assert (Hf : f (4 * m)%nat d = f (4 * m)%nat d0).
  { apply Hloc. intros j Hj. by apply IHj. }
  split; [unfold gray_body; by rewrite assign_length|].
  intros j. unfold gray_body. rewrite assign_pixel by lia.
  rewrite Hf, toUint8Clamp_255. unfold gray_byte.
  split; intros Hj.
  - destruct (decide (j < 4 * m)%nat) as [Hlt|Hge].
    + rewrite !decide_False by lia. by apply IHj.
    + assert (∃ c, (c < 4)%nat ∧ j = (4 * m + c)%nat) as (c & Hc & ->)
        by (exists (j - 4 * m)%nat; lia).
      destruct (div_mod_4 m c Hc) as [E1 E2]. rewrite E1, E2.
      repeat case_decide; try lia; done.
  - repeat case_decide; try lia. apply IHj. lia.
Qed.

(** A gray pixel loop over a buffer of whole pixels: every byte of the
    result, in terms of the buffer the loop started from. *)
Lemma for_pixels_gray (f : nat → list Z → Q) (d0 : list Z) (len n : nat) :
  (∀ i d d', (∀ j, (i ≤ j)%nat → d !! j = d' !! j) → f i d = f i d') →
  len = (4 * n)%nat → length d0 = len →
  let d := for_pixels len (gray_body f) d0 in
  length d = len ∧ ∀ j, (j < len)%nat → d !! j = Some (gray_byte f d0 j).
Proof.
  intros Hloc -> Hlen. unfold for_pixels, pixel_offsets.
  replace ((4 * n + 3) `div` 4)%nat with n.
  2:{ replace (4 * n + 3)%nat with (3 + n * 4)%nat by lia.
      by rewrite Nat.div_add by lia. }
  destruct (gray_steps f d0 n Hloc) as [Hl Hj]; [lia|].
  split; [lia|]. intros j Hlt. by apply Hj.
Qed.

(** ** Offsets and pixels *)

Lemma inside_spec (w h x y : Z) :
  inside w h x y = true ↔ 0 ≤ x < w ∧ 0 ≤ y < h.
Proof. unfold inside. rewrite !andb_true_iff. lia. Qed.

Lemma offset_mul4 (w x y : Z) :
  0 ≤ w → 0 ≤ x → 0 ≤ y → offset w x y = (4 * Z.to_nat (y * w + x))%nat.
Proof. intros Hw Hx Hy. unfold offset. nia. Qed.

Lemma offset_lt (w h x y : Z) :
  0 ≤ x < w → 0 ≤ y < h → (offset w x y + 3 < Z.to_nat (w * h * 4))%nat.
Proof. intros Hx Hy. unfold offset. nia. Qed.

Lemma offset_apart (w x y x' y' : Z) (c c' : nat) :
  0 ≤ x < w → 0 ≤ y → 0 ≤ x' < w → 0 ≤ y' →
  (x, y) ≠ (x', y') → (c < 4)%nat → (c' < 4)%nat →
  (offset w x y + c)%nat ≠ (offset w x' y' + c')%nat.
Proof.
  intros Hx Hy Hx' Hy' Hne Hc Hc'.
  rewrite !offset_mul4 by lia. intros E.
  assert (E' : y * w + x = y' * w + x') by nia.
  apply Hne. assert (y = y') by nia. subst y'. f_equal. lia.
Qed.

Lemma px_Some (w : Z) (d : list Z) (x y : Z) (r g b a : Z) :
  px w d x y = Some (r, g, b, a) ↔
  d !! offset w x y = Some r ∧ d !! (offset w x y + 1)%nat = Some g ∧
  d !! (offset w x y + 2)%nat = Some b ∧ d !! (offset w x y + 3)%nat = Some a.
Proof.
  unfold px. split.
  - intros H.
    destruct (d !! offset w x y); simpl in H; [|done].
    destruct (d !! (offset w x y + 1)%nat); simpl in H; [|done].
    destruct (d !! (offset w x y + 2)%nat); simpl in H; [|done].
    destruct (d !! (offset w x y + 3)%nat); simpl in H; [|done].
    by simplify_eq.
  - by intros (-> & -> & -> & ->).
Qed.

(** Two buffers that agree on the four bytes of a pixel agree on it. *)
Lemma px_ext (w : Z) (d d' : list Z) (x y : Z) :
  (∀ c, (c < 4)%nat → d !! (offset w x y + c)%nat = d' !! (offset w x y + c)%nat) →
  px w d x y = px w d' x y.
Proof.
  intros H. unfold px.
  rewrite <- (H 1%nat), <- (H 2%nat), <- (H 3%nat) by lia.
  specialize (H 0%nat). rewrite Nat.add_0_r in H. rewrite <- H by lia. done.
Qed.

Lemma px_assign_same (w : Z) (d : list Z) (x y : Z) (r g b a : Q) :
  (offset w x y + 3 < length d)%nat →
  px w (assign d [(offset w x y, r); ((offset w x y + 1)%nat, g);
                  ((offset w x y + 2)%nat, b); ((offset w x y + 3)%nat, a)]) x y
  = Some (toUint8Clamp r, toUint8Clamp g, toUint8Clamp b, toUint8Clamp a).
Proof.
  intros Hlen. apply px_Some. rewrite !assign_pixel by done.
  repeat split; repeat case_decide; try lia; done.
Qed.

Lemma px_assign_other (w : Z) (d : list Z) (x y x' y' : Z) (r g b a : Q) :
  0 ≤ x < w → 0 ≤ y → 0 ≤ x' < w → 0 ≤ y' → (x, y) ≠ (x', y') →
  (offset w x y + 3 < length d)%nat →
  px w (assign d [(offset w x y, r); ((offset w x y + 1)%nat, g);
                  ((offset w x y + 2)%nat, b); ((offset w x y + 3)%nat, a)]) x' y'
  = px w d x' y'.
Proof.
  intros Hx Hy Hx' Hy' Hne Hlen. apply px_ext. intros c Hc.
  rewrite assign_pixel by done.
  pose proof (offset_apart w x y x' y' 0 c Hx Hy Hx' Hy' Hne) as H0.
  pose proof (offset_apart w x y x' y' 1 c Hx Hy Hx' Hy' Hne) as H1.
  pose proof (offset_apart w x y x' y' 2 c Hx Hy Hx' Hy' Hne) as H2.
  pose proof (offset_apart w x y x' y' 3 c Hx Hy Hx' Hy' Hne) as H3.
  rewrite Nat.add_0_r in H0.
  repeat case_decide; try done; exfalso; eauto with lia.
Qed.

(** ** Loop nests over coordinates *)

Lemma foldl_bind {A B C} (g : A → C → A) (k : B → list C) (l : list B) (a : A) :
  foldl g a (l ≫= k) = foldl (λ a y, foldl g a (k y)) a l.
Proof.
  revert a. induction l as [|y l IH]; intros a; [done|].
  rewrite bind_cons, foldl_app. apply IH.
Qed.

Lemma foldl_ext {A B} (f g : A → B → A) (l : list B) (a : A) :
  (∀ a x, f a x = g a x) → foldl f a l = foldl g a l.
Proof.
  intros Hfg. revert a. induction l as [|x l IH]; intros a; simpl; [done|].
  by rewrite Hfg, IH.
Qed.

Lemma for_rows_visits {A} (m n : Z) (body : Z → Z → A → A) (a : A) :
  for_rows m n body a = foldl (λ a p, body p.1 p.2 a) a (visits_rows m n).
Proof.
  unfold for_rows, visits_rows. rewrite foldl_bind.
  apply foldl_ext. intros acc y. by rewrite foldl_fmap.
Qed.

Lemma for_cols_visits {A} (m n : Z) (body : Z → Z → A → A) (a : A) :
  for_cols m n body a = foldl (λ a p, body p.1 p.2 a) a (visits_cols m n).
Proof.
  unfold for_cols, visits_cols. rewrite foldl_bind.
  apply foldl_ext. intros acc x. by rewrite foldl_fmap.
Qed.

Lemma elem_of_visits_rows (m n x y : Z) :
  (x, y) ∈ visits_rows m n ↔ 0 ≤ y < m ∧ 0 ≤ x < n.
Proof.
  unfold visits_rows. rewrite list_elem_of_bind. split.
  - intros (y' & Hin & Hy). apply list_elem_of_fmap in Hin as (x' & E & Hx).
    simplify_eq. apply elem_of_seqZ in Hy, Hx. lia.
  - intros [Hy Hx]. exists y. split.
    + apply list_elem_of_fmap. exists x. split; [done|]. apply elem_of_seqZ. lia.
    + apply elem_of_seqZ. lia.
Qed.

Lemma elem_of_visits_cols (m n x y : Z) :
  (x, y) ∈ visits_cols m n ↔ 0 ≤ x < m ∧ 0 ≤ y < n.
Proof.
  unfold visits_cols. rewrite list_elem_of_bind. split.
  - intros (x' & Hin & Hx). apply list_elem_of_fmap in Hin as (y' & E & Hy).
    simplify_eq. apply elem_of_seqZ in Hy, Hx. lia.
  - intros [Hx Hy]. exists x. split.
    + apply list_elem_of_fmap. exists y. split; [done|]. apply elem_of_seqZ. lia.
    + apply elem_of_seqZ. lia.
Qed.

(** A trace-recording action yields the visits, whatever it starts from. *)
Lemma foldl_record {B C} (k : B → list C) (l : list B) (acc : list C) :
  foldl (λ acc p, acc ++ k p) acc l = acc ++ (l ≫= k).
Proof.
  revert acc. induction l as [|p l IH]; intros acc.
  - simpl. by rewrite app_nil_r.
  - cbn [foldl]. rewrite IH, bind_cons. by rewrite app_assoc.
Qed.

Lemma bind_singleton_fmap {B C} (g : B → C) (l : list B) :
  l ≫= (λ p, [g p]) = g <$> l.
Proof.
  induction l as [|p l IH]; [done|]. rewrite bind_cons, IH. done.
Qed.

Lemma border_loops_segments {A} (w h t r b l : Z) (act : Z → Z → A → A) (a : A) :
  border_loops w h t r b l act a =
  foldl (λ a p, act p.1 p.2 a) a (border_segments w h t r b l).
Proof.
  unfold border_loops, border_segments. rewrite !foldl_app.
  destruct (0 <? t), (0 <? b), (0 <? l), (0 <? r);
    rewrite ?for_rows_visits, ?for_cols_visits, ?foldl_fmap; done.
Qed.

Lemma border_visits_segments (w h t r b l : Z) :
  border_visits w h t r b l = border_segments w h t r b l.
Proof.
  unfold border_visits. rewrite border_loops_segments.
  rewrite (foldl_record (λ p, [(p.1, p.2)])). simpl.
  rewrite bind_singleton_fmap. rewrite <- (list_fmap_id (border_segments _ _ _ _ _ _)) at 2.
  apply list_fmap_ext. by intros i [x y] _.
Qed.

Lemma border_loops_visits {A} (w h t r b l : Z) (act : Z → Z → A → A) (a : A) :
  border_loops w h t r b l act a =
  foldl (λ a p, act p.1 p.2 a) a (border_visits w h t r b l).
Proof. rewrite border_visits_segments. apply border_loops_segments. Qed.

(** Inside the raster, the coordinates visited are those of the band. *)
Lemma elem_of_border_visits (w h t r b l x y : Z) :
  0 ≤ x < w → 0 ≤ y < h →
  (x, y) ∈ border_visits w h t r b l ↔ in_band w h t r b l x y = true.
Proof.
  intros Hx Hy. rewrite border_visits_segments. unfold border_segments, in_band.
  rewrite !elem_of_app, !orb_true_iff.
  assert (S1 : (x, y) ∈ (if 0 <? t then visits_rows t w else []) ↔ y < t).
  { destruct (Z.ltb_spec 0 t).
    - rewrite elem_of_visits_rows. lia.
    - rewrite elem_of_nil. lia. }
  assert (S2 : (x, y) ∈ (if 0 <? b
                         then (λ p, (p.1, h - 1 - p.2)) <$> visits_rows b w
                         else []) ↔ h - b ≤ y).
  { destruct (Z.ltb_spec 0 b).
    - rewrite list_elem_of_fmap. split.
      + intros ([x' y'] & E & Hin). apply elem_of_visits_rows in Hin.
        simpl in E. simplify_eq. lia.
      + intros Hb. exists (x, h - 1 - y). split; [simpl; f_equal; lia|].
        apply elem_of_visits_rows. lia.
    - rewrite elem_of_nil. lia. }
  assert (S3 : (x, y) ∈ (if 0 <? l then visits_cols l h else []) ↔ x < l).
  { destruct (Z.ltb_spec 0 l).
    - rewrite elem_of_visits_cols. lia.
    - rewrite elem_of_nil. lia. }
  assert (S4 : (x, y) ∈ (if 0 <? r
                         then (λ p, (w - 1 - p.1, p.2)) <$> visits_cols r h
                         else []) ↔ w - r ≤ x).
  { destruct (Z.ltb_spec 0 r).
    - rewrite list_elem_of_fmap. split.
      + intros ([x' y'] & E & Hin). apply elem_of_visits_cols in Hin.
        simpl in E. simplify_eq. lia.
      + intros Hb. exists (w - 1 - x, y). split; [simpl; f_equal; lia|].
        apply elem_of_visits_cols. lia.
    - rewrite elem_of_nil. lia. }
  rewrite S1, S2, S3, S4. lia.
Qed.

(** ** Painting pixels along a list of coordinates *)

Lemma paint_fold (w h : Z) (N : nat) (L : list (Z * Z))
    (act : Z → Z → list Z → list Z) (P : Z * Z * Z * Z) :
  paints w h N L act P →
  ∀ d, length d = N →
    length (foldl (λ d p, act p.1 p.2 d) d L) = N ∧
    ∀ x' y', 0 ≤ x' < w → 0 ≤ y' < h →
      px w (foldl (λ d p, act p.1 p.2 d) d L) x' y' =
        if decide ((x', y') ∈ L) then Some P else px w d x' y'.
Proof.
  induction L as [|[x y] L IH]; intros Hact d Hlen.
  { split; [done|]. intros x' y' _ _. cbn [foldl].
    destruct (decide ((x', y') ∈ [])) as [Hin|_]; [|done].
    by apply elem_of_nil in Hin. }
  destruct (Hact x y d) as [Hl1 Hp1]; [by left|done|].
  destruct (IH (λ x0 y0 d0 Hin, Hact x0 y0 d0 (list_elem_of_further _ _ _ Hin))
               (act x y d) Hl1) as [Hl2 Hp2].
  simpl. split; [done|]. intros x' y' Hx' Hy'.
  rewrite Hp2, Hp1 by done.
  destruct (decide ((x', y') ∈ L)) as [Hin|Hnin].
  - rewrite decide_True; [done|by right].
  - destruct (decide ((x, y) = (x', y'))) as [E|Hne].
    + rewrite decide_True; [done|]. rewrite <- E. by left.
    + rewrite decide_False; [done|]. intros Hin'.
      apply elem_of_cons in Hin' as [E|Hin']; [by apply Hne|by apply Hnin].
Qed.

Lemma setP_paints (w h : Z) (red green blue alpha : Q) (L : list (Z * Z)) :
  0 ≤ w →
  paints w h (Z.to_nat (w * h * 4)) L (setP w h red green blue alpha)
    (toUint8Clamp red, toUint8Clamp green, toUint8Clamp blue, toUint8Clamp alpha).
Proof.
  intros Hw x y d _ Hlen. unfold setP, setP_stores.
  destruct ((x <? 0) || (x >=? w) || (y <? 0) || (y >=? h)) eqn:Hguard.
  - split; [done|]. intros x' y' Hx' Hy'.
    rewrite decide_False; [done|]. intros E. simplify_eq.
    rewrite !orb_true_iff in Hguard. lia.
  - rewrite !orb_false_iff in Hguard. destruct Hguard as [[[G1 G2] G3] G4].
    assert (Hx : 0 ≤ x < w) by lia. assert (Hy : 0 ≤ y < h) by lia.
    pose proof (offset_lt w h x y Hx Hy) as Hoff.
    split; [by rewrite assign_length|]. intros x' y' Hx' Hy'.
    change (Z.to_nat ((y * w + x) * 4)) with (offset w x y).
    destruct (decide ((x, y) = (x', y'))) as [E|Hne].
    + simplify_eq. apply px_assign_same. lia.
    + apply px_assign_other; try done; lia.
Qed.

(** What [applyDataBorder] does to a raster of whole pixels: the pixels
    of the band get the colour, the others stay. *)
Lemma applyDataBorder_pixel (img : ImageData) (t r b l : Z)
    (red green blue alpha : Q) (x y : Z) :
  0 ≤ width img →
  length (data img) = Z.to_nat (width img * height img * 4) →
  0 ≤ x < width img → 0 ≤ y < height img →
  pixelAt (applyDataBorder img t r b l red green blue alpha) x y =
    if in_band (width img) (height img) t r b l x y
    then Some (toUint8Clamp red, toUint8Clamp green,
               toUint8Clamp blue, toUint8Clamp alpha)
    else pixelAt img x y.
Proof.
  intros Hw Hlen Hx Hy. unfold applyDataBorder.
  destruct ((t <=? 0) && (r <=? 0) && (b <=? 0) && (l <=? 0)) eqn:Hearly.
  - rewrite !andb_true_iff in Hearly.
    replace (in_band _ _ t r b l x y) with false; [done|].
    symmetry. unfold in_band. rewrite !orb_false_iff. lia.
  - unfold pixelAt. simpl.
    replace (inside (width img) (height img) x y) with true
      by (symmetry; apply inside_spec; lia).
    rewrite border_loops_visits.
    destruct (paint_fold _ _ _ (border_visits (width img) (height img) t r b l) _ _
                (setP_paints (width img) (height img) red green blue alpha _ Hw)
                (data img) Hlen) as [_ Hpx].
    rewrite Hpx by done.
    destruct (in_band _ _ t r b l x y) eqn:Hband.
    + rewrite decide_True; [done|]. by apply elem_of_border_visits.
    + rewrite decide_False; [done|]. rewrite elem_of_border_visits by done.
      by rewrite Hband.
Qed.

Lemma applyDataBorder_shape (img : ImageData) (t r b l : Z)
    (red green blue alpha : Q) :
  let out := applyDataBorder img t r b l red green blue alpha in
  width out = width img ∧ height out = height img ∧
  length (data out) = length (data img).
Proof.
  unfold applyDataBorder.
  destruct ((t <=? 0) && (r <=? 0) && (b <=? 0) && (l <=? 0)); simpl; [done|].
  split; [done|]. split; [done|].
  rewrite border_loops_visits.
  generalize (data img). induction (border_visits _ _ _ _ _ _) as [|p L IH];
    intros d; simpl; [done|].
  rewrite IH. unfold setP. apply assign_length.
Qed.

(** ** Rasters written by a gray pixel loop *)

Lemma well_formed_spec (img : ImageData) :
  well_formed img = true →
  0 ≤ width img ∧ 0 ≤ height img ∧
  length (data img) = Z.to_nat (width img * height img * 4) ∧
  ∀ j b, data img !! j = Some b → 0 ≤ b ≤ 255.
Proof.
  unfold well_formed. rewrite !andb_true_iff.
  intros [[[Hw Hh] Hlen] Hb].
  apply Nat.eqb_eq in Hlen.
  repeat split; try lia.
  - rewrite forallb_forall in Hb.
    assert (Hin : In b (data img)) by (apply list_elem_of_In; by eapply list_elem_of_lookup_2).
    apply Hb in Hin. unfold byte in Hin. lia.
  - rewrite forallb_forall in Hb.
    assert (Hin : In b (data img)) by (apply list_elem_of_In; by eapply list_elem_of_lookup_2).
    apply Hb in Hin. unfold byte in Hin. lia.
Qed.

Lemma pixelAt_gray_loop (w h : Z) (f : nat → list Z → Q) (d0 : list Z) (x y : Z) :
  (∀ i d d', (∀ j, (i ≤ j)%nat → d !! j = d' !! j) → f i d = f i d') →
  length d0 = Z.to_nat (w * h * 4) →
  0 ≤ x < w → 0 ≤ y < h →
  pixelAt (mkImageData w h (for_pixels (Z.to_nat (w * h * 4)) (gray_body f) d0)) x y =
    let v := toUint8Clamp (f (offset w x y) d0) in Some (v, v, v, 255).
Proof.
  intros Hloc Hlen Hx Hy.
  destruct (for_pixels_gray f d0 (Z.to_nat (w * h * 4)) (Z.to_nat (w * h)) Hloc)
    as [_ Hj]; [nia|done|].
  unfold pixelAt. simpl.
  replace (inside w h x y) with true by (symmetry; apply inside_spec; lia).
  pose proof (offset_lt w h x y Hx Hy) as Hoff.
  assert (Hk : offset w x y = (4 * Z.to_nat (y * w + x))%nat)
    by (apply offset_mul4; lia).
  apply px_Some.
  assert (Hc : ∀ c, (c < 4)%nat →
    gray_byte f d0 (offset w x y + c) =
      if decide (c = 3%nat) then 255 else toUint8Clamp (f (offset w x y) d0)).
  { intros c Hc. unfold gray_byte. rewrite Hk.
    destruct (div_mod_4 (Z.to_nat (y * w + x)) c Hc) as [-> ->]. done. }
  rewrite <- (Nat.add_0_r (offset w x y)) at 1.
  rewrite !Hj by lia. rewrite !Hc by lia. done.
Qed.

Lemma clamp_max_min (v : Q) : Qmax 0 (Qmin 255 v) == clamp v 0 255.
Proof.
  unfold clamp.
  destruct (Q.min_spec 255 v) as [[H1 E1]|[H1 E1]];
    destruct (Q.max_spec 0 (Qmin 255 v)) as [[H2 E2]|[H2 E2]];
    rewrite E2; rewrite E1 in *;
    destruct (Qlt_le_dec v 0); destruct (Qlt_le_dec 255 v); lra.
Qed.

Lemma inject_Z_sub (a b : Z) : inject_Z (a - b) == inject_Z a - inject_Z b.
Proof. unfold Qeq. simpl. lia. Qed.

Lemma get_lookup (d : list Z) (i : nat) (v : Z) :
  d !! i = Some v → get d i = inject_Z v.
Proof. intros H. unfold get. by rewrite (list_lookup_total_correct _ _ _ H). Qed.

Lemma get_local (d d' : list Z) (i : nat) :
  d !! i = d' !! i → get d i = get d' i.
Proof. intros H. unfold get. by rewrite !list_lookup_total_alt, H. Qed.

Lemma pixelAt_inside (img : ImageData) (x y : Z) (p : Z * Z * Z * Z) :
  pixelAt img x y = Some p →
  0 ≤ x < width img ∧ 0 ≤ y < height img ∧ px (width img) (data img) x y = Some p.
Proof.
  unfold pixelAt. destruct (inside _ _ x y) eqn:Hin; [|done].
  apply inside_spec in Hin. intros H. repeat split; try lia. done.
Qed.

(** ** Rounding to binary64 *)

Ltac Qcompare_hyps :=
  repeat match goal with
  | H : (_ ?= _)%Q = Eq |- _ => apply Qeq_alt in H
  | H : (_ ?= _)%Q = Lt |- _ => apply Qlt_alt in H
  | H : (_ ?= _)%Q = Gt |- _ => apply Qgt_alt in H
  end.

Lemma roundHalfEven_bounds (q : Q) :
  (q - (1 # 2) <= inject_Z (roundHalfEven q) <= q + (1 # 2))%Q.
Proof.
  unfold roundHalfEven.
  pose proof (Qfloor_le q) as L. pose proof (Qlt_floor q) as U.
  rewrite inject_Z_plus in U. change (inject_Z 1) with 1%Q in U.
  destruct (q ?= inject_Z (Qfloor q) + (1 # 2))%Q eqn:C.
  - apply Qeq_alt in C. destruct (Z.even _);
      rewrite ?inject_Z_plus; change (inject_Z 1) with 1%Q; lra.
  - apply Qlt_alt in C. lra.
  - apply Qgt_alt in C. rewrite inject_Z_plus. change (inject_Z 1) with 1%Q. lra.
Qed.

Lemma roundHalfEven_mono (x y : Q) :
  (x <= y)%Q → roundHalfEven x ≤ roundHalfEven y.
Proof.
  intros Hxy. pose proof (Qfloor_resp_le _ _ Hxy) as F.
  unfold roundHalfEven.
  destruct (Z.eq_dec (Qfloor x) (Qfloor y)) as [E|N].
  - rewrite E.
    destruct (x ?= inject_Z (Qfloor y) + (1 # 2))%Q eqn:Cx;
    destruct (y ?= inject_Z (Qfloor y) + (1 # 2))%Q eqn:Cy;
      Qcompare_hyps; try (destruct (Z.even _)); try lia; exfalso; lra.
  - assert (Qfloor x + 1 ≤ Qfloor y) by lia.
    destruct (x ?= _)%Q; destruct (y ?= _)%Q;
      try (destruct (Z.even (Qfloor x))); try (destruct (Z.even (Qfloor y))); lia.
Qed.

Lemma roundHalfEven_Z (z : Z) : roundHalfEven (inject_Z z) = z.
Proof.
  unfold roundHalfEven. rewrite Qfloor_Z.
  destruct (inject_Z z ?= _)%Q eqn:C; Qcompare_hyps;
    [exfalso; lra|done|exfalso; lra].
Qed.

Lemma pow2_pos (e : Z) : (0 < 2 ^ e)%Q.
Proof. by apply Qpower_0_lt. Qed.

Lemma pow2_plus (a b : Z) : (2 ^ (a + b) == 2 ^ a * 2 ^ b)%Q.
Proof. by apply Qpower_plus. Qed.

Lemma pow2_succ (a : Z) : (2 ^ (a + 1) == 2 * 2 ^ a)%Q.
Proof. rewrite pow2_plus. change (2 ^ 1)%Q with 2%Q. ring. Qed.

Lemma pow2_le (a b : Z) : a ≤ b → (2 ^ a <= 2 ^ b)%Q.
Proof. intros. by apply Qpower_le_compat_l. Qed.

Lemma pow2_lt (a b : Z) : a < b → (2 ^ a < 2 ^ b)%Q.
Proof. intros. by apply Qpower_lt_compat_l. Qed.

Lemma pow2_Z (n : Z) : 0 ≤ n → (2 ^ n == inject_Z (2 ^ n))%Q.
Proof. intros. by rewrite Zpower_Qpower. Qed.

Lemma binade_spec (q : Q) :
  (0 < q)%Q → (2 ^ binade q <= q)%Q ∧ (q < 2 ^ (binade q + 1))%Q.
Proof.
  intros Hq. unfold binade. destruct q as [n d]. cbn [Qnum Qden].
  assert (Hn : 0 < n) by (unfold Qlt in Hq; cbn in Hq; lia).
  set (a := Z.log2 n). set (b := Z.log2 (Z.pos d)).
  destruct (Z.log2_spec n Hn) as [A1 A2]. fold a in A1, A2.
  destruct (Z.log2_spec (Z.pos d) eq_refl) as [B1 B2]. fold b in B1, B2.
  assert (Ha : 0 ≤ a) by apply Z.log2_nonneg.
  assert (Hb : 0 ≤ b) by apply Z.log2_nonneg.
  replace (Z.succ a) with (a + 1) in A2 by lia.
  replace (Z.succ b) with (b + 1) in B2 by lia.
  rewrite Z.pow_add_r in A2, B2 by lia. change (2 ^ 1) with 2 in A2, B2.
  set (q := (n # d)%Q) in *.
  assert (QD : (q * inject_Z (Z.pos d) == inject_Z n)%Q).
  { unfold q. rewrite (Qmake_Qdiv n d). field.
    intros E. apply (inject_Z_injective (Z.pos d) 0) in E. lia. }
  assert (PB : (2 ^ (a - b) * inject_Z (2 ^ b) == inject_Z (2 ^ a))%Q).
  { rewrite <- !pow2_Z by lia. rewrite <- pow2_plus. by replace (a - b + b) with a by lia. }
  assert (Pp := pow2_pos (a - b)).
  assert (N1 : (inject_Z (2 ^ a) <= inject_Z n)%Q) by (rewrite <- Zle_Qle; lia).
  assert (N2 : (inject_Z n < 2 * inject_Z (2 ^ a))%Q).
  { change 2%Q with (inject_Z 2). rewrite <- inject_Z_mult, <- Zlt_Qlt. lia. }
  assert (D1 : (inject_Z (2 ^ b) <= inject_Z (Z.pos d))%Q) by (rewrite <- Zle_Qle; lia).
  assert (D2 : (inject_Z (Z.pos d) < 2 * inject_Z (2 ^ b))%Q).
  { change 2%Q with (inject_Z 2). rewrite <- inject_Z_mult, <- Zlt_Qlt. lia. }
  assert (Bp : (0 < inject_Z (2 ^ b))%Q).
  { rewrite <- pow2_Z by lia. apply pow2_pos. }
  set (N := inject_Z n) in *. set (D := inject_Z (Z.pos d)) in *.
  set (A := inject_Z (2 ^ a)) in *. set (B := inject_Z (2 ^ b)) in *.
  destruct (Qle_bool (2 ^ (a - b)) q) eqn:C.
  - apply Qle_bool_iff in C. split; [done|].
    rewrite pow2_succ. set (P := (2 ^ (a - b))%Q) in *. nra.
  - assert (C' : (q < 2 ^ (a - b))%Q).
    { apply Qnot_le_lt. intros L. apply Qle_bool_iff in L. congruence. }
    replace (a - b - 1 + 1) with (a - b) by lia. split; [|done].
    assert (E : (2 * 2 ^ (a - b - 1) == 2 ^ (a - b))%Q).
    { rewrite <- pow2_succ. by replace (a - b - 1 + 1) with (a - b) by lia. }
    set (P := (2 ^ (a - b))%Q) in *. set (P' := (2 ^ (a - b - 1))%Q) in *. nra.
Qed.

Lemma binade_le (x y : Q) : (0 < x)%Q → (x <= y)%Q → binade x ≤ binade y.
Proof.
  intros Hx Hxy. destruct (binade_spec x Hx) as [X1 X2].
  assert (Hy : (0 < y)%Q) by lra. destruct (binade_spec y Hy) as [Y1 Y2].
  destruct (Z_le_gt_dec (binade x) (binade y)) as [L|G]; [done|exfalso].
  pose proof (pow2_le (binade y + 1) (binade x) ltac:(lia)). lra.
Qed.

(** The significand of a positive number lies in [2^52, 2^53). *)
Lemma scaled_range (q : Q) :
  (0 < q)%Q →
  (inject_Z (2 ^ 52) <= q / 2 ^ (binade q - 52))%Q ∧
  (q / 2 ^ (binade q - 52) < inject_Z (2 ^ 53))%Q.
Proof.
  intros Hq. destruct (binade_spec q Hq) as [L U].
  assert (U' := pow2_pos (binade q - 52)).
  assert (E1 : (2 ^ binade q == inject_Z (2 ^ 52) * 2 ^ (binade q - 52))%Q).
  { rewrite <- (pow2_Z 52) by lia. rewrite <- pow2_plus.
    by replace (52 + (binade q - 52)) with (binade q) by lia. }
  assert (E2 : (2 ^ (binade q + 1) == inject_Z (2 ^ 53) * 2 ^ (binade q - 52))%Q).
  { rewrite <- (pow2_Z 53) by lia. rewrite <- pow2_plus.
    by replace (53 + (binade q - 52)) with (binade q + 1) by lia. }
  split.
  - apply Qle_shift_div_l; [done|]. by rewrite <- E1.
  - apply Qlt_shift_div_r; [done|]. by rewrite <- E2.
Qed.

Lemma roundPositive_range (q : Q) :
  (0 < q)%Q →
  (2 ^ binade q <= roundPositive q)%Q ∧ (roundPositive q <= 2 ^ (binade q + 1))%Q.
Proof.
  intros Hq. destruct (scaled_range q Hq) as [L U]. unfold roundPositive.
  set (u := (2 ^ (binade q - 52))%Q) in *. set (s := (q / u)%Q) in *.
  assert (Up : (0 < u)%Q) by apply pow2_pos.
  assert (E1 : (2 ^ binade q == inject_Z (2 ^ 52) * u)%Q).
  { unfold u. rewrite <- (pow2_Z 52) by lia. rewrite <- pow2_plus.
    by replace (52 + (binade q - 52)) with (binade q) by lia. }
  assert (E2 : (2 ^ (binade q + 1) == inject_Z (2 ^ 53) * u)%Q).
  { unfold u. rewrite <- (pow2_Z 53) by lia. rewrite <- pow2_plus.
    by replace (53 + (binade q - 52)) with (binade q + 1) by lia. }
  assert (R1 : 2 ^ 52 ≤ roundHalfEven s).
  { rewrite <- (roundHalfEven_Z (2 ^ 52)). by apply roundHalfEven_mono. }
  assert (R2 : roundHalfEven s ≤ 2 ^ 53).
  { rewrite <- (roundHalfEven_Z (2 ^ 53)). apply roundHalfEven_mono. lra. }
  rewrite Zle_Qle in R1, R2. rewrite E1, E2. split; apply Qmult_le_compat_r; lra.
Qed.

Lemma roundPositive_mono (x y : Q) :
  (0 < x)%Q → (x <= y)%Q → (roundPositive x <= roundPositive y)%Q.
Proof.
  intros Hx Hxy. assert (Hy : (0 < y)%Q) by lra.
  pose proof (binade_le x y Hx Hxy) as B.
  destruct (Z.eq_dec (binade x) (binade y)) as [E|N].
  - unfold roundPositive. rewrite E.
    assert (Up : (0 < 2 ^ (binade y - 52))%Q) by apply pow2_pos.
    apply Qmult_le_compat_r; [|lra].
    rewrite <- Zle_Qle. apply roundHalfEven_mono.
    apply Qmult_le_compat_r; [done|]. apply Qlt_le_weak, Qinv_lt_0_compat, Up.
  - destruct (roundPositive_range x Hx) as [_ X].
    destruct (roundPositive_range y Hy) as [Y _].
    pose proof (pow2_le (binade x + 1) (binade y) ltac:(lia)). lra.
Qed.

Lemma roundPositive_pos (q : Q) : (0 < q)%Q → (0 < roundPositive q)%Q.
Proof.
  intros Hq. destruct (roundPositive_range q Hq) as [L _].
  pose proof (pow2_pos (binade q)). lra.
Qed.

Lemma round64_cases (q : Q) :
  ((q < 0)%Q ∧ round64 q = (- roundPositive (- q))%Q) ∨
  (q == 0 ∧ round64 q = 0%Q) ∨
  ((0 < q)%Q ∧ round64 q = roundPositive q).
Proof.
  destruct q as [[|p|p] d]; unfold round64; cbn [Qnum].
  - right. left. done.
  - right. right. done.
  - left. done.
Qed.

Lemma round64_mono (x y : Q) : (x <= y)%Q → (round64 x <= round64 y)%Q.
Proof.
  intros Hxy.
  destruct (round64_cases x) as [[Hx ->]|[[Hx ->]|[Hx ->]]];
  destruct (round64_cases y) as [[Hy ->]|[[Hy ->]|[Hy ->]]]; try (exfalso; lra).
  - apply Qopp_le_compat. apply roundPositive_mono; lra.
  - pose proof (roundPositive_pos (- x) ltac:(lra)). lra.
  - pose proof (roundPositive_pos (- x) ltac:(lra)).
    pose proof (roundPositive_pos y Hy). lra.
  - lra.
  - pose proof (roundPositive_pos y Hy). lra.
  - by apply roundPositive_mono.
Qed.

Lemma round64_comp (x y : Q) : x == y → round64 x == round64 y.
Proof.
  intros E. apply Qle_antisym; apply round64_mono; rewrite E; lra.
Qed.

(** The relative error of a rounding is at most [2^-53]. *)
Lemma roundPositive_error (q : Q) :
  (0 < q)%Q →
  (q * (1 - 2 ^ (-53)) <= roundPositive q)%Q ∧
  (roundPositive q <= q * (1 + 2 ^ (-53)))%Q.
Proof.
  intros Hq. destruct (binade_spec q Hq) as [L _]. unfold roundPositive.
  set (u := (2 ^ (binade q - 52))%Q) in *.
  assert (Up : (0 < u)%Q) by apply pow2_pos.
  pose proof (roundHalfEven_bounds (q / u)) as [R1 R2].
  set (r := inject_Z (roundHalfEven (q / u))) in *.
  assert (S : (q / u * u == q)%Q) by (field; lra).
  assert (E : (2 ^ binade q * 2 ^ (-53) == u * (1 # 2))%Q).
  { rewrite <- pow2_plus. unfold u.
    replace (binade q + -53) with (binade q - 52 + -1) by lia.
    rewrite pow2_plus. reflexivity. }
  set (e := (2 ^ (-53))%Q) in *.
  assert (Ep : (0 < e)%Q) by apply pow2_pos.
  set (s := (q / u)%Q) in *. set (P := (2 ^ binade q)%Q) in *. nra.
Qed.

Lemma round64_pos (q : Q) :
  (0 < q)%Q →
  (q * (1 - 2 ^ (-53)) <= round64 q)%Q ∧ (round64 q <= q * (1 + 2 ^ (-53)))%Q.
Proof.
  intros Hq. destruct (round64_cases q) as [[Hx _]|[[Hx _]|[_ ->]]];
    [exfalso; lra|exfalso; lra|]. by apply roundPositive_error.
Qed.

Lemma round64_neg (q : Q) :
  (q < 0)%Q →
  (q * (1 + 2 ^ (-53)) <= round64 q)%Q ∧ (round64 q <= q * (1 - 2 ^ (-53)))%Q.
Proof.
  intros Hq. destruct (round64_cases q) as [[_ ->]|[[Hx _]|[Hx _]]];
    [|exfalso; lra|exfalso; lra].
  destruct (roundPositive_error (- q) ltac:(lra)) as [L U]. split; lra.
Qed.

Lemma round64_zero (q : Q) : q == 0 → round64 q == 0.
Proof.
  intros Hq. destruct (round64_cases q) as [[Hx _]|[[_ ->]|[Hx _]]];
    [exfalso; lra|reflexivity|exfalso; lra].
Qed.

Lemma eps_facts :
  (0 < 2 ^ (-53))%Q ∧ (2 ^ (-53) <= 1 # 8)%Q ∧ (2 ^ (-51) == 4 * 2 ^ (-53))%Q.
Proof. repeat split; by vm_compute. Qed.

(** Twice the rounded half of the rounded [t] is [t], up to rounding. *)
Lemma halved_error (t : Q) :
  let c := round64 (round64 t / 2) in
  (Qabs (c + c - t) <= 2 ^ (-51) * Qabs t)%Q.
Proof.
  cbv zeta. destruct eps_facts as (E0 & E1 & E2). rewrite E2.
  set (e := (2 ^ (-53))%Q) in *.
  destruct (Q_dec t 0) as [[Hneg|Hpos]|Hz].
  - destruct (round64_neg t Hneg) as [L1 U1]. fold e in L1, U1.
    set (c1 := round64 t) in *.
    assert (Hc : (c1 / 2 < 0)%Q) by (unfold Qdiv; change (/ 2)%Q with (1 # 2)%Q; nra).
    destruct (round64_neg _ Hc) as [L2 U2]. fold e in L2, U2.
    set (c := round64 (c1 / 2)) in *.
    unfold Qdiv in L2, U2. change (/ 2)%Q with (1 # 2)%Q in L2, U2.
    rewrite (Qabs_neg t) by lra.
    apply Qabs_Qle_condition. split; nra.
  - destruct (round64_pos t Hpos) as [L1 U1]. fold e in L1, U1.
    set (c1 := round64 t) in *.
    assert (Hc : (0 < c1 / 2)%Q) by (unfold Qdiv; change (/ 2)%Q with (1 # 2)%Q; nra).
    destruct (round64_pos _ Hc) as [L2 U2]. fold e in L2, U2.
    set (c := round64 (c1 / 2)) in *.
    unfold Qdiv in L2, U2. change (/ 2)%Q with (1 # 2)%Q in L2, U2.
    rewrite (Qabs_pos t) by lra.
    apply Qabs_Qle_condition. split; nra.
  - pose proof (round64_zero t Hz) as C1.
    assert (C2 : round64 t / 2 == 0) by (rewrite C1; reflexivity).
    pose proof (round64_zero _ C2) as C3. rewrite C3, Hz. by vm_compute.
Qed.

(** ** The metallic synthesizer *)

Lemma generateMetallic_pixel (w h : Z) (value : Q) (x y : Z) :
  0 ≤ x < w → 0 ≤ y < h →
  pixelAt (generateMetallic w h value) x y =
    let v := toUint8Clamp (inject_Z (Qfloor (round64 (value * 255)))) in
    Some (v, v, v, 255).
Proof.
  intros Hx Hy. unfold generateMetallic, createBuffer. simpl.
  rewrite length_replicate.
  apply (pixelAt_gray_loop w h (λ _ _, inject_Z (Qfloor (round64 (value * 255)))));
    try done.
  apply length_replicate.
Qed.

(** C8. For every target width and height > 0 and every [metallic] in
    [0, 1], [generateMetallic] returns a uniform buffer: every pixel is
    [floor(metallic * 255)], the floor of the binary64 product, in its
    three colour channels (and opaque), a value in 0..255; for
    [metallic = 0.5] every pixel is 127. *)
Theorem generateMetallic_uniform (w h : Z) (metallic : Q) (x y : Z) :
  0 < w → 0 < h → (0 <= metallic)%Q → (metallic <= 1)%Q →
  0 ≤ x < w → 0 ≤ y < h →
  let v := Qfloor (round64 (metallic * 255)) in
  pixelAt (generateMetallic w h metallic) x y = Some (v, v, v, 255) ∧
  0 ≤ v ≤ 255 ∧
  (metallic == 1 # 2 →
   pixelAt (generateMetallic w h metallic) x y = Some (127, 127, 127, 255)).
Proof.
  intros Hw Hh Hm0 Hm1 Hx Hy v.
  assert (Hv : 0 ≤ v ≤ 255).
  { unfold v. split.
    - assert (L : (round64 0 <= round64 (metallic * 255))%Q)
        by (apply round64_mono; lra).
      apply Qfloor_resp_le in L. exact L.
    - assert (L : (round64 (metallic * 255) <= round64 255)%Q)
        by (apply round64_mono; lra).
      apply Qfloor_resp_le in L. exact L. }
  assert (Hpx : pixelAt (generateMetallic w h metallic) x y = Some (v, v, v, 255)).
  { rewrite generateMetallic_pixel by done. simpl.
    fold v. by rewrite toUint8Clamp_byte. }
  split; [done|]. split; [done|]. intros Hhalf. rewrite Hpx.
  assert (E : v = 127).
  { unfold v. rewrite (Qfloor_comp _ (round64 ((1 # 2) * 255))).
    - reflexivity.
    - apply round64_comp. rewrite Hhalf. reflexivity. }
  by rewrite E.
Qed.

(** At the slider position 0.5, and at 0.6, whose double is below 0.6
    while the product rounds to 153. *)
Lemma generateMetallic_uniform_witness :
  pixelAt (generateMetallic 2 1 (1 # 2)) 1 0 = Some (127, 127, 127, 255) ∧
  pixelAt (generateMetallic 2 1 (round64 (6 # 10))) 1 0 = Some (153, 153, 153, 255).
Proof.
  split.
  - refine (proj1 (generateMetallic_uniform 2 1 (1 # 2) 1 0 _ _ _ _ _ _));
      first [lia | discriminate].
  - refine (proj1 (generateMetallic_uniform 2 1 (round64 (6 # 10)) 1 0 _ _ _ _ _ _));
      first [lia | by vm_compute].
Defined.

(** ** The roughness synthesizer *)

Lemma generateRoughness_pixel (heightData : ImageData) (offset' : Q) (x y : Z) :
  length (data heightData) = Z.to_nat (width heightData * height heightData * 4) →
  0 ≤ x < width heightData → 0 ≤ y < height heightData →
  pixelAt (generateRoughness heightData offset') x y =
    let v := toUint8Clamp
      (Qmax 0 (Qmin 255 (255 - get (data heightData) (offset (width heightData) x y)
                         + offset' * (3 # 2)))) in
    Some (v, v, v, 255).
Proof.
  intros Hlen Hx Hy. unfold generateRoughness, createBuffer. simpl.
  rewrite Hlen.
  apply (pixelAt_gray_loop (width heightData) (height heightData)
           (λ i _, Qmax 0 (Qmin 255 (255 - get (data heightData) i + offset' * (3 # 2)))));
    try done.
  apply length_replicate.
Qed.

(** C7. At every pixel [generateRoughness] computes
    [v = clamp((255 - height) + roughnessOffset*1.5, 0, 255)], [height]
    being the red channel of the height buffer there, and stores it in the
    three colour channels (as a byte: [toUint8Clamp]); with
    [roughnessOffset = 0] the pixel is exactly [255 - height]. *)
Theorem generateRoughness_formula (heightData : ImageData) (roughnessOffset : Q)
    (x y hv g b a : Z) :
  well_formed heightData = true →
  pixelAt heightData x y = Some (hv, g, b, a) →
  let v := toUint8Clamp (roughness_formula hv roughnessOffset) in
  pixelAt (generateRoughness heightData roughnessOffset) x y = Some (v, v, v, 255) ∧
  (roughnessOffset == 0 → v = 255 - hv).
Proof.
  intros Hwf Hpx v.
  apply well_formed_spec in Hwf as (Hw & Hh & Hlen & Hbytes).
  apply pixelAt_inside in Hpx as (Hx & Hy & Hpx).
  apply px_Some in Hpx as (Hr & _).
  split.
  - rewrite generateRoughness_pixel by done. simpl.
    rewrite (get_lookup _ _ _ Hr).
    assert (E : toUint8Clamp
                  (Qmax 0 (Qmin 255 (255 - inject_Z hv + roughnessOffset * (3 # 2)))) = v).
    { apply toUint8Clamp_comp. rewrite clamp_max_min. unfold roughness_formula, clamp.
      set (u := (255 - inject_Z hv + roughnessOffset * (3 # 2))%Q).
      set (u' := (255 - inject_Z hv + roughnessOffset * (15 # 10))%Q).
      assert (Eu : u == u') by (unfold u, u'; lra).
      destruct (Qlt_le_dec u 0), (Qlt_le_dec 255 u),
               (Qlt_le_dec u' 0), (Qlt_le_dec 255 u'); lra. }
    by rewrite E.
  - intros Hoff. unfold v.
    specialize (Hbytes _ _ Hr).
    rewrite <- (toUint8Clamp_byte (255 - hv)) by lia.
    apply toUint8Clamp_comp. rewrite inject_Z_sub.
    pose proof (inject_Z_le 0 hv (proj1 Hbytes)) as H0.
    pose proof (inject_Z_le hv 255 (proj2 Hbytes)) as H1.
    unfold roughness_formula, clamp.
    set (u' := (255 - inject_Z hv + roughnessOffset * (15 # 10))%Q).
    assert (Eu : u' == 255 - inject_Z hv) by (unfold u'; lra).
    destruct (Qlt_le_dec u' 0), (Qlt_le_dec 255 u');
      change (inject_Z 0) with 0%Q in *; change (inject_Z 255) with 255%Q in *; lra.
Qed.

Lemma generateRoughness_formula_witness :
  pixelAt (generateRoughness (mkImageData 2 1 [10; 10; 10; 255; 200; 200; 200; 255]) 5)
          1 0
  = Some (62, 62, 62, 255).
Proof.
  refine (proj1 (generateRoughness_formula
                   (mkImageData 2 1 [10; 10; 10; 255; 200; 200; 200; 255]) 5
                   1 0 200 200 200 255 _ _)); reflexivity.
Defined.

(** ** The height mapper *)

Lemma normal_divisor_positive (strength : Q) : (0 < Qmax (1 # 10) strength)%Q.
Proof. pose proof (Q.le_max_l (1 # 10) strength). lra. Qed.

Lemma js_or_nonzero (a : Q) : ¬ js_or a 1 == 0.
Proof.
  unfold js_or. destruct (Qeq_bool a 0) eqn:E.
  - discriminate.
  - apply Qeq_bool_neq in E. exact E.
Qed.

(** The guard keeps the divisor away from zero: the value computed for a
    pixel is a finite number, whatever the bounds. *)
Lemma heightValue_finite (minV maxV val : Q) :
  heightValue minV maxV (heightRange minV maxV) val =
    Finite ((Qmax minV (Qmin maxV val) - minV) / js_or (maxV - minV) 1 * 255).
Proof.
  unfold heightValue, heightRange, js_div.
  destruct (Qeq_bool (js_or (maxV - minV) 1) 0) eqn:E; [|reflexivity].
  apply Qeq_bool_iff in E. by destruct (js_or_nonzero _ E).
Qed.

Lemma generateHeight_pixel (grayData : ImageData) (minP maxP : Q) (x y : Z) :
  length (data grayData) = Z.to_nat (width grayData * height grayData * 4) →
  0 ≤ x < width grayData → 0 ≤ y < height grayData →
  pixelAt (generateHeight grayData minP maxP) x y =
    let minV := (minP / 100 * 255)%Q in
    let maxV := (maxP / 100 * 255)%Q in
    let val := get (data grayData) (offset (width grayData) x y) in
    let v := toUint8Clamp
      ((Qmax minV (Qmin maxV val) - minV) / js_or (maxV - minV) 1 * 255) in
    Some (v, v, v, 255).
Proof.
  intros Hlen Hx Hy. unfold generateHeight, createBuffer. simpl.
  rewrite Hlen.
  etransitivity.
  - apply (pixelAt_gray_loop (width grayData) (height grayData)
             (λ i _, stored (heightValue (minP / 100 * 255) (maxP / 100 * 255)
                               (heightRange (minP / 100 * 255) (maxP / 100 * 255))
                               (get (data grayData) i)))%Q);
      try done.
    apply length_replicate.
  - cbv zeta. by rewrite heightValue_finite.
Qed.

Lemma for_pixels_length (len : nat) (f : nat → list Z → Q) (d0 : list Z) :
  length (for_pixels len (gray_body f) d0) = length d0.
Proof.
  unfold for_pixels. revert d0.
  induction (pixel_offsets len) as [|i L IH]; intros d0; simpl; [done|].
  rewrite IH. unfold gray_body. apply assign_length.
Qed.

Lemma generateHeight_shape (grayData : ImageData) (minP maxP : Q) :
  let out := generateHeight grayData minP maxP in
  width out = width grayData ∧ height out = height grayData ∧
  length (data out) = Z.to_nat (width grayData * height grayData * 4).
Proof.
  simpl. split; [done|]. split; [done|].
  etransitivity; [|apply (length_replicate _ 0)].
  apply (for_pixels_length _
    (λ i _, stored (heightValue (minP / 100 * 255) (maxP / 100 * 255)
                      (heightRange (minP / 100 * 255) (maxP / 100 * 255))
                      (get (data grayData) i)))%Q).
Qed.



(** ** The displacement synthesizer *)

Lemma gray_opaque_spec (n : nat) (d : list Z) :
  (length d ≤ n)%nat → gray_opaque d = true →
  (∃ k, length d = (4 * k)%nat) ∧
  ∀ j, (j < length d)%nat →
    d !! j = Some (if decide (j `mod` 4 = 3)%nat then 255
                   else d !!! (4 * (j `div` 4))%nat).
Proof.
  revert d. induction n as [|n IH]; intros d Hn Hg.
  { destruct d; [|simpl in Hn; lia].
    split; [by exists 0%nat|]. intros j Hj. simpl in Hj. lia. }
  destruct d as [|r [|g [|b [|a d']]]]; try done.
  { split; [by exists 0%nat|]. intros j Hj. simpl in Hj. lia. }
  cbn [gray_opaque] in Hg. rewrite !andb_true_iff in Hg.
  destruct Hg as [[[Eg Eb] Ea] Hd'].
  apply Z.eqb_eq in Eg, Eb, Ea. subst g b a.
  destruct (IH d') as [[k Hk] Hj']; [simpl in Hn; lia|done|].
  split; [exists (S k); simpl; lia|].
  intros j Hj.
  destruct (decide (j < 4)%nat) as [Hlt|Hge].
  - destruct j as [|[|[|[|j]]]]; try lia; reflexivity.
  - assert (∃ j', j = (4 + j')%nat) as [j' ->] by (exists (j - 4)%nat; lia).
    assert (Hm : ((4 + j') `mod` 4 = j' `mod` 4)%nat).
    { replace (4 + j')%nat with (j' + 1 * 4)%nat by lia. apply Nat.Div0.mod_add. }
    assert (Hq : ((4 + j') `div` 4 = S (j' `div` 4))%nat).
    { replace (4 + j')%nat with (j' + 1 * 4)%nat by lia.
      rewrite Nat.div_add by lia. lia. }
    rewrite Hm, Hq.
    replace (4 * S (j' `div` 4))%nat with (4 + 4 * (j' `div` 4))%nat by lia.
    change ((r :: r :: r :: 255 :: d') !! (4 + j')%nat) with (d' !! j').
    change ((r :: r :: r :: 255 :: d') !!! (4 + 4 * (j' `div` 4))%nat)
      with (d' !!! (4 * (j' `div` 4))%nat).
    apply Hj'. simpl in Hj. lia.
Qed.

Lemma displacement_local (strength : Q) (i : nat) (d d' : list Z) :
  (∀ j, (i ≤ j)%nat → d !! j = d' !! j) →
  Qmax 0 (Qmin 255 ((get d i - 128) * strength + 128)) =
  Qmax 0 (Qmin 255 ((get d' i - 128) * strength + 128)).
Proof. intros H. by rewrite (get_local d d' i) by (apply H; lia). Qed.

Lemma displacement_formula_identity (hv : Z) :
  0 ≤ hv ≤ 255 → toUint8Clamp (displacement_formula hv 1) = hv.
Proof.
  intros Hhv. rewrite <- (toUint8Clamp_byte hv) at 2 by done.
  apply toUint8Clamp_comp.
  pose proof (inject_Z_le 0 hv (proj1 Hhv)) as H0.
  pose proof (inject_Z_le hv 255 (proj2 Hhv)) as H1.
  change (inject_Z 0) with 0%Q in *. change (inject_Z 255) with 255%Q in *.
  unfold displacement_formula, clamp.
  set (u := ((inject_Z hv - 128) * 1 + 128)%Q).
  assert (Eu : u == inject_Z hv) by (unfold u; lra).
  destruct (Qlt_le_dec u 0), (Qlt_le_dec 255 u); lra.
Qed.

(** C6. With [displacementStrength = 1], [generateDisplacement] returns a
    buffer equal to the height field it is given, byte for byte: the
    transform [clamp((height - 128) * strength + 128, 0, 255)] is the
    identity at strength 1. *)
Theorem generateDisplacement_identity (heightData : ImageData) :
  is_height_field heightData = true →
  generateDisplacement heightData 1 = heightData ∧
  ∀ hv, 0 ≤ hv ≤ 255 → toUint8Clamp (displacement_formula hv 1) = hv.
Proof.
  intros Hhf. split; [|apply displacement_formula_identity].
  unfold is_height_field in Hhf. apply andb_true_iff in Hhf as [Hwf Hgray].
  apply well_formed_spec in Hwf as (_ & _ & _ & Hbytes).
  destruct heightData as [w h d]. simpl in *.
  unfold generateDisplacement, createBuffer. simpl. f_equal.
  destruct (gray_opaque_spec (length d) d (le_n _) Hgray) as [[k Hk] Hd].
  destruct (for_pixels_gray
              (λ i d, Qmax 0 (Qmin 255 ((get d i - 128) * 1 + 128)))
              d (length d) k (displacement_local 1) Hk eq_refl) as [Hlen Hj].
  apply list_eq. intros j.
  destruct (decide (j < length d)%nat) as [Hlt|Hge].
  - etransitivity; [apply (Hj j Hlt)|]. rewrite (Hd j Hlt). f_equal.
    unfold gray_byte. case_decide; [done|].
    assert (Hi : (4 * (j `div` 4) < length d)%nat).
    { pose proof (Nat.Div0.mul_div_le j 4). lia. }
    pose proof (list_lookup_lookup_total_lt d _ Hi) as Hlook.
    specialize (Hbytes _ _ Hlook).
    etransitivity; [|apply (displacement_formula_identity _ Hbytes)].
    apply toUint8Clamp_comp. rewrite clamp_max_min.
    unfold displacement_formula, get. reflexivity.
  - rewrite !lookup_ge_None_2; [done|lia|].
    etransitivity; [|apply Nat.nlt_ge, Hge]. apply Nat.eq_le_incl, Hlen.
Qed.

Lemma generateDisplacement_identity_witness :
  generateDisplacement (mkImageData 2 1 [10; 10; 10; 255; 200; 200; 200; 255]) 1
  = mkImageData 2 1 [10; 10; 10; 255; 200; 200; 200; 255].
Proof.
  refine (proj1 (generateDisplacement_identity
                   (mkImageData 2 1 [10; 10; 10; 255; 200; 200; 200; 255]) _)).
  reflexivity.
Defined.

(** ** The height field of the pipeline

    The raster that [generateTextures] hands to [generateDisplacement] is
    a height field in the sense of C6. *)

Lemma gray_opaque_intro (n : nat) (d : list Z) :
  (length d ≤ n)%nat → (∃ k, length d = (4 * k)%nat) → gray_bytes d →
  gray_opaque d = true.
Proof.
  revert d. induction n as [|n IH]; intros d Hn [k Hk] Hg.
  { destruct d; [done|simpl in Hn; lia]. }
  destruct d as [|r [|g [|b [|a d']]]]; try done; try (simpl in Hk; lia).
  pose proof (Hg 1%nat) as H1. pose proof (Hg 2%nat) as H2.
  pose proof (Hg 3%nat) as H3. simpl in H1, H2, H3.
  specialize (H1 ltac:(lia)). specialize (H2 ltac:(lia)). specialize (H3 ltac:(lia)).
  change (Some g = Some r) in H1. change (Some b = Some r) in H2.
  change (Some a = Some 255) in H3. simplify_eq.
  cbn [gray_opaque]. rewrite !Z.eqb_refl. cbn [andb].
  apply IH; [simpl in Hn; lia|exists (k - 1)%nat; simpl in Hk; lia|].
  intros j Hj.
  assert (Hm : ((4 + j) `mod` 4 = j `mod` 4)%nat).
  { replace (4 + j)%nat with (j + 1 * 4)%nat by lia. apply Nat.Div0.mod_add. }
  assert (Hq : ((4 + j) `div` 4 = S (j `div` 4))%nat).
  { replace (4 + j)%nat with (j + 1 * 4)%nat by lia.
    rewrite Nat.div_add by lia. lia. }
  specialize (Hg (4 + j)%nat ltac:(simpl; lia)).
  rewrite Hm, Hq in Hg.
  replace (4 * S (j `div` 4))%nat with (4 + 4 * (j `div` 4))%nat in Hg by lia.
  exact Hg.
Qed.

Lemma gray_body_gray_bytes (f : nat → list Z → Q) (d0 : list Z) (n : nat) :
  (∀ i d d', (∀ j, (i ≤ j)%nat → d !! j = d' !! j) → f i d = f i d') →
  length d0 = (4 * n)%nat →
  let d := for_pixels (length d0) (gray_body f) d0 in
  gray_bytes d ∧ Forall (λ b, 0 ≤ b ≤ 255) d.
Proof.
  intros Hloc Hlen d.
  destruct (for_pixels_gray f d0 (length d0) n Hloc Hlen eq_refl) as [Hl Hj].
  fold d in Hl, Hj.
  assert (Hbyte : ∀ j, 0 ≤ gray_byte f d0 j ≤ 255).
  { intros j. unfold gray_byte. case_decide; [lia|apply toUint8Clamp_range]. }
  split.
  - intros j Hlt. rewrite Hl in Hlt. rewrite (Hj j Hlt). f_equal.
    assert (Hi : (4 * (j `div` 4) < length d0)%nat).
    { pose proof (Nat.Div0.mul_div_le j 4). lia. }
    rewrite (list_lookup_total_correct d _ _ (Hj _ Hi)).
    unfold gray_byte.
    destruct (div_mod_4 (j `div` 4) 0) as [E1 E2]; [lia|].
    rewrite Nat.add_0_r in E1, E2. rewrite E1, E2.
    by rewrite (decide_False (P := (0 = 3)%nat)) by lia.
  - apply Forall_lookup. intros j b Hb.
    assert (Hlt : (j < length d0)%nat).
    { rewrite <- Hl. by eapply lookup_lt_Some. }
    rewrite (Hj j Hlt) in Hb. simplify_eq. apply Hbyte.
Qed.

(** One gray, opaque pixel stored at a whole-pixel offset keeps a buffer
    of gray, opaque pixels so. *)
Lemma assign_gray_bytes (d : list Z) (k : nat) (v : Q) :
  gray_bytes d → (4 * k + 3 < length d)%nat →
  gray_bytes (assign d [((4 * k)%nat, v); ((4 * k + 1)%nat, v);
                        ((4 * k + 2)%nat, v); ((4 * k + 3)%nat, 255%Q)]).
Proof.
  intros Hg Hlen j Hj. rewrite assign_length in Hj.
  rewrite list_lookup_total_alt, !assign_pixel by done.
  rewrite toUint8Clamp_255.
  pose proof (Nat.div_mod_eq j 4) as Hdm.
  pose proof (Nat.mod_upper_bound j 4 ltac:(lia)) as Hmod.
  specialize (Hg j Hj). rewrite list_lookup_total_alt in Hg.
  destruct (decide (j `div` 4 = k)%nat) as [Ek|Nk].
  - rewrite (decide_True (P := (4 * (j `div` 4) = 4 * k)%nat)) by lia. simpl.
    repeat case_decide; try lia; done.
  - rewrite !(decide_False (P := (4 * (j `div` 4) = _)%nat)) by lia.
    rewrite !(decide_False (P := (j = _)%nat)) by lia. exact Hg.
Qed.

Lemma setP_gray_bytes (w h : Z) (v : Q) (x y : Z) (d : list Z) :
  0 ≤ w → length d = Z.to_nat (w * h * 4) →
  gray_bytes d ∧ Forall (λ b, 0 ≤ b ≤ 255) d →
  let d' := setP w h v v v 255 x y d in
  length d' = length d ∧ gray_bytes d' ∧ Forall (λ b, 0 ≤ b ≤ 255) d'.
Proof.
  intros Hw Hlen [Hg Hb]. unfold setP, setP_stores.
  destruct ((x <? 0) || (x >=? w) || (y <? 0) || (y >=? h)) eqn:Hguard; [done|].
  rewrite !orb_false_iff in Hguard.
  assert (Hx : 0 ≤ x < w) by lia. assert (Hy : 0 ≤ y < h) by lia.
  pose proof (offset_lt w h x y Hx Hy) as Hoff.
  change (Z.to_nat ((y * w + x) * 4)) with (offset w x y).
  rewrite (offset_mul4 w x y) in * by lia.
  split; [apply assign_length|]. split.
  - apply assign_gray_bytes; [done|lia].
  - unfold assign. simpl.
    repeat apply Forall_insert; try done; apply toUint8Clamp_range.
Qed.

Lemma applyDataBorder_gray_bytes (img : ImageData) (t r b l : Z) (v : Q) :
  0 ≤ width img →
  length (data img) = Z.to_nat (width img * height img * 4) →
  gray_bytes (data img) → Forall (λ b, 0 ≤ b ≤ 255) (data img) →
  let out := applyDataBorder img t r b l v v v 255 in
  gray_bytes (data out) ∧ Forall (λ b, 0 ≤ b ≤ 255) (data out).
Proof.
  intros Hw Hlen Hg Hb. unfold applyDataBorder.
  destruct (_ && _); [done|]. simpl.
  rewrite border_loops_visits.
  assert (Hinv : ∀ L d,
    length d = Z.to_nat (width img * height img * 4) →
    gray_bytes d ∧ Forall (λ b, 0 ≤ b ≤ 255) d →
    gray_bytes (foldl (λ a p, setP (width img) (height img) v v v 255 p.1 p.2 a) d L) ∧
    Forall (λ b, 0 ≤ b ≤ 255)
      (foldl (λ a p, setP (width img) (height img) v v v 255 p.1 p.2 a) d L)).
  { induction L as [|p L IH]; intros d Hl Hd; [done|]. cbn [foldl].
    destruct (setP_gray_bytes (width img) (height img) v p.1 p.2 d Hw Hl Hd)
      as (S1 & S2 & S3).
    apply IH; [lia|done]. }
  by apply Hinv.
Qed.

Lemma length_bind_const {A B} (f : A → list B) (c : nat) (l : list A) :
  (∀ x, length (f x) = c) → length (l ≫= f) = (length l * c)%nat.
Proof.
  intros Hf. induction l as [|x l IH]; [done|].
  rewrite bind_cons, length_app, Hf, IH. simpl. lia.
Qed.

Lemma getImageData_length `{Canvas2D} (ctx : Context2D) (sx sy sw sh : Z) :
  0 ≤ sw → 0 ≤ sh →
  length (data (getImageData ctx sx sy sw sh)) = Z.to_nat (sw * sh * 4).
Proof.
  intros Hw Hh. unfold getImageData. simpl.
  rewrite (length_bind_const _ (Z.to_nat sw * 4)).
  - rewrite length_seqZ. nia.
  - intros y. rewrite (length_bind_const _ 4).
    + by rewrite length_seqZ.
    + intros x. by destruct (readPixel ctx x y) as [[[r g] b] a].
Qed.

Lemma toGrayscale_length (imgData : ImageData) :
  length (data (toGrayscale imgData)) = length (data imgData).
Proof.
  apply (for_pixels_length _
    (λ i d, (299 # 1000) * get d i + (587 # 1000) * get d (i + 1)%nat
            + (114 # 1000) * get d (i + 2)%nat)%Q).
Qed.

(** The height raster of the pipeline is a height field. *)
Lemma deriveMaps_height_field `{JsMath} (albedoData : ImageData) (w h : Z)
    (params : Params.PBRParams) :
  width albedoData = w → height albedoData = h → 0 ≤ w → 0 ≤ h →
  length (data albedoData) = Z.to_nat (w * h * 4) →
  is_height_field (Rasters.height (deriveMaps albedoData w h params)) = true.
Proof.
  intros Ew Eh Hw Hh Hlen. unfold deriveMaps. cbv zeta. cbn [Rasters.height].
  set (bs := Params.borders params).
  set (t := Params.top bs). set (r := Params.right bs).
  set (b := Params.bottom bs). set (l := Params.left bs).
  set (grayData := applyDataBorder (toGrayscale albedoData) t r b l 0 0 0 255).
  destruct (applyDataBorder_shape (toGrayscale albedoData) t r b l 0 0 0 255)
    as (G1 & G2 & G3). fold grayData in G1, G2, G3.
  rewrite toGrayscale_length, Hlen in G3. simpl in G1, G2.
  rewrite Ew in G1. rewrite Eh in G2.
  set (N := Z.to_nat (w * h * 4)) in *.
  set (minP := Params.heightMin params). set (maxP := Params.heightMax params).
  set (f := λ (i : nat) (_ : list Z),
        stored (heightValue (minP / 100 * 255) (maxP / 100 * 255)
                  (heightRange (minP / 100 * 255) (maxP / 100 * 255))
                  (get (data grayData) i))%Q).
  assert (E0 : generateHeight grayData minP maxP =
               mkImageData w h (for_pixels (length (replicate N 0)) (gray_body f)
                                           (replicate N 0))).
  { unfold generateHeight, createBuffer. cbv zeta. cbn [width height data].
    rewrite G1, G2, G3, length_replicate. reflexivity. }
  rewrite E0.
  destruct (gray_body_gray_bytes f (replicate N 0) (Z.to_nat (w * h)))
    as [Hg Hb]; [done|rewrite length_replicate; unfold N; nia|].
  set (height0 := mkImageData w h _) in *.
  assert (Hl0 : length (data height0) = N).
  { unfold height0. cbn [data]. by rewrite for_pixels_length, length_replicate. }
  destruct (applyDataBorder_gray_bytes height0 t r b l 0 Hw Hl0 Hg Hb) as [Hg' Hb'].
  destruct (applyDataBorder_shape height0 t r b l 0 0 0 255) as (S1 & S2 & S3).
  set (heightData := applyDataBorder height0 t r b l 0 0 0 255) in *.
  simpl in S1, S2. rewrite Hl0 in S3.
  unfold is_height_field, well_formed. rewrite S1, S2, S3.
  rewrite !andb_true_iff. repeat split.
  - lia.
  - lia.
  - by apply Nat.eqb_eq.
  - apply forallb_forall. intros z Hz. apply list_elem_of_In in Hz.
    rewrite Forall_forall in Hb'. specialize (Hb' z Hz). unfold byte. lia.
  - apply (gray_opaque_intro (length (data heightData))); [done| |done].
    exists (Z.to_nat (w * h)). rewrite S3. unfold N. nia.
Qed.

Lemma generateTextures_height_field `{JsMath} `{Canvas2D} (ctx : Context2D)
    (sourceImage : HTMLImageElement) (params : Params.PBRParams) :
  let d := dimensions (Params.resolution params) in
  is_height_field
    (Rasters.height
       (deriveMaps (albedoOf ctx sourceImage d.1 d.2 params) d.1 d.2 params)) = true.
Proof.
  intros d.
  assert (Hd : 0 ≤ d.1 ∧ 0 ≤ d.2) by (unfold d; by destruct (Params.resolution params)).
  apply deriveMaps_height_field; try done; try lia.
  unfold albedoOf. apply getImageData_length; lia.
Qed.

(** ** The data border *)

Lemma setP_stores_inside (w h : Z) (red green blue alpha : Q) (x y : Z)
    (i : nat) (v : Q) :
  (i, v) ∈ setP_stores w h red green blue alpha x y →
  0 ≤ x < w ∧ 0 ≤ y < h ∧ ∃ c, (c < 4)%nat ∧ i = (offset w x y + c)%nat.
Proof.
  unfold setP_stores.
  destruct ((x <? 0) || (x >=? w) || (y <? 0) || (y >=? h)) eqn:Hguard.
  { intros Hin. by apply elem_of_nil in Hin. }
  rewrite !orb_false_iff in Hguard.
  change (Z.to_nat ((y * w + x) * 4)) with (offset w x y).
  intros Hin. split; [lia|]. split; [lia|].
  rewrite !elem_of_cons, elem_of_nil in Hin.
  destruct Hin as [E|[E|[E|[E|[]]]]]; simplify_eq.
  - exists 0%nat. lia.
  - exists 1%nat. lia.
  - exists 2%nat. lia.
  - exists 3%nat. lia.
Qed.

Lemma foldl_assign {B} (k : B → list (nat * Q)) (L : list B) (d : list Z) :
  foldl (λ d p, assign d (k p)) d L = assign d (L ≫= k).
Proof.
  revert d. induction L as [|p L IH]; intros d; [done|].
  cbn [foldl]. by rewrite IH, bind_cons, assign_app.
Qed.

Lemma applyDataBorder_stores_visits (img : ImageData) (t r b l : Z)
    (red green blue alpha : Q) :
  applyDataBorder_stores img t r b l red green blue alpha =
  if (t <=? 0) && (r <=? 0) && (b <=? 0) && (l <=? 0) then []
  else border_visits (width img) (height img) t r b l ≫=
         (λ p, setP_stores (width img) (height img) red green blue alpha p.1 p.2).
Proof.
  unfold applyDataBorder_stores. destruct (_ && _); [done|].
  rewrite border_loops_visits.
  by rewrite (foldl_record
    (λ p, setP_stores (width img) (height img) red green blue alpha p.1 p.2)).
Qed.

(** C10. Every pixel write of [applyDataBorder] is bounds-checked.  For
    arbitrary thicknesses [t r b l], also larger than the raster: the
    result is the input after the recorded stores, every store lands on a
    byte of a pixel [(x, y)] with [0 <= x < width] and [0 <= y < height],
    inside the pixel array, whose length and dimensions do not change, and
    the pixels outside the four bands are left as they were. *)
Theorem applyDataBorder_bounds_checked (img : ImageData) (t r b l : Z)
    (red green blue alpha : Q) :
  well_formed img = true →
  let out := applyDataBorder img t r b l red green blue alpha in
  let stores := applyDataBorder_stores img t r b l red green blue alpha in
  data out = assign (data img) stores ∧
  (∀ i v, (i, v) ∈ stores →
     (i < length (data img))%nat ∧
     ∃ x y c, 0 ≤ x < width img ∧ 0 ≤ y < height img ∧ (c < 4)%nat ∧
              i = (offset (width img) x y + c)%nat) ∧
  width out = width img ∧ height out = height img ∧
  length (data out) = length (data img) ∧
  (∀ x y, 0 ≤ x < width img → 0 ≤ y < height img →
     in_band (width img) (height img) t r b l x y = false →
     pixelAt out x y = pixelAt img x y).
Proof.
  intros Hwf out stores.
  apply well_formed_spec in Hwf as (Hw & Hh & Hlen & _).
  split; [|split].
  - unfold out, stores. rewrite applyDataBorder_stores_visits.
    unfold applyDataBorder. destruct (_ && _); [done|]. simpl.
    rewrite border_loops_visits. unfold setP.
    apply (foldl_assign
      (λ p, setP_stores (width img) (height img) red green blue alpha p.1 p.2)).
  - intros i v Hin. unfold stores in Hin.
    rewrite applyDataBorder_stores_visits in Hin.
    destruct (_ && _); [by apply elem_of_nil in Hin|].
    apply list_elem_of_bind in Hin as ([x y] & Hin & _). simpl in Hin.
    apply setP_stores_inside in Hin as (Hx & Hy & c & Hc & ->).
    pose proof (offset_lt _ _ x y Hx Hy) as Hoff.
    split; [lia|]. by exists x, y, c.
  - destruct (applyDataBorder_shape img t r b l red green blue alpha)
      as (S1 & S2 & S3).
    repeat (split; [done|]).
    intros x y Hx Hy Hband. unfold out.
    rewrite applyDataBorder_pixel by done. by rewrite Hband.
Qed.

Lemma applyDataBorder_bounds_checked_witness :
  pixelAt (applyDataBorder (mkImageData 2 2 (replicate 16 7)) 9 0 0 (-3) 0 0 0 255) 1 1
  = Some (0, 0, 0, 255) ∧
  length (data (applyDataBorder (mkImageData 2 2 (replicate 16 7)) 9 0 0 (-3) 0 0 0 255))
  = 16%nat.
Proof.
  split; [reflexivity|].
  refine (proj1 (proj2 (proj2 (proj2 (proj2
    (applyDataBorder_bounds_checked (mkImageData 2 2 (replicate 16 7))
       9 0 0 (-3) 0 0 0 255 _)))))).
  reflexivity.
Defined.

(** ** Shapes of the derived rasters *)

Lemma toGrayscale_shape (imgData : ImageData) :
  width (toGrayscale imgData) = width imgData ∧
  height (toGrayscale imgData) = height imgData.
Proof. done. Qed.

Lemma generateRoughness_shape (heightData : ImageData) (offset' : Q) :
  let out := generateRoughness heightData offset' in
  width out = width heightData ∧ height out = height heightData ∧
  length (data out) = Z.to_nat (width heightData * height heightData * 4).
Proof.
  simpl. split; [done|]. split; [done|].
  etransitivity; [|apply (length_replicate _ 0)].
  apply (for_pixels_length _
    (λ i _, Qmax 0 (Qmin 255 (255 - get (data heightData) i + offset' * (3 # 2))))).
Qed.

Lemma generateMetallic_shape (w h : Z) (value : Q) :
  let out := generateMetallic w h value in
  width out = w ∧ height out = h ∧ length (data out) = Z.to_nat (w * h * 4).
Proof.
  simpl. split; [done|]. split; [done|].
  etransitivity; [|apply (length_replicate _ 0)].
  apply (for_pixels_length _ (λ _ _, inject_Z (Qfloor (round64 (value * 255))))).
Qed.

Lemma generateDisplacement_shape (heightData : ImageData) (strength : Q) :
  let out := generateDisplacement heightData strength in
  width out = width heightData ∧ height out = height heightData ∧
  length (data out) = length (data heightData).
Proof.
  simpl. split; [done|]. split; [done|].
  apply (for_pixels_length _
    (λ i d, Qmax 0 (Qmin 255 ((get d i - 128) * strength + 128)))).
Qed.

(** ** The border invariant of the derived maps *)

(** A data border over a raster of whole pixels forces the band. *)
Lemma applyDataBorder_band (img : ImageData) (w h t r b l : Z)
    (red green blue alpha : Q) (x y : Z) :
  width img = w → height img = h → 0 ≤ w →
  length (data img) = Z.to_nat (w * h * 4) →
  0 ≤ x < w → 0 ≤ y < h → in_band w h t r b l x y = true →
  pixelAt (applyDataBorder img t r b l red green blue alpha) x y =
    Some (toUint8Clamp red, toUint8Clamp green, toUint8Clamp blue, toUint8Clamp alpha).
Proof.
  intros <- <- Hw Hlen Hx Hy Hband.
  rewrite applyDataBorder_pixel by done. by rewrite Hband.
Qed.

Section Pipeline.
Context `{JsMath}.

Lemma deriveMaps_band (albedoData : ImageData) (w h : Z)
    (params : Params.PBRParams) (x y : Z) :
  let bs := Params.borders params in
  let maps := deriveMaps albedoData w h params in
  width albedoData = w → height albedoData = h → 0 ≤ w →
  0 ≤ x < w → 0 ≤ y < h →
  in_band w h (Params.top bs) (Params.right bs) (Params.bottom bs)
          (Params.left bs) x y = true →
  pixelAt (Rasters.roughness maps) x y = Some (255, 255, 255, 255) ∧
  pixelAt (Rasters.metallic maps) x y = Some (0, 0, 0, 255) ∧
  pixelAt (Rasters.height maps) x y = Some (0, 0, 0, 255) ∧
  pixelAt (Rasters.displacement maps) x y = Some (0, 0, 0, 255).
Proof.
  intros bs maps Ew Eh Hw Hx Hy Hband. unfold maps, deriveMaps. fold bs.
  set (t := Params.top bs) in *. set (r := Params.right bs) in *.
  set (b := Params.bottom bs) in *. set (l := Params.left bs) in *.
  cbv zeta. cbn [Rasters.roughness Rasters.metallic Rasters.height
                 Rasters.displacement].
  set (grayData := applyDataBorder (toGrayscale albedoData) t r b l 0 0 0 255).
  set (height0 := generateHeight grayData (Params.heightMin params)
                                 (Params.heightMax params)).
  set (heightData := applyDataBorder height0 t r b l 0 0 0 255).
  destruct (applyDataBorder_shape (toGrayscale albedoData) t r b l 0 0 0 255)
    as (G1 & G2 & _). fold grayData in G1, G2. simpl in G1, G2.
  destruct (generateHeight_shape grayData (Params.heightMin params)
              (Params.heightMax params)) as (H1 & H2 & H3).
  fold height0 in H1, H2, H3. rewrite G1, Ew in H1. rewrite G2, Eh in H2.
  rewrite G1, G2, Ew, Eh in H3.
  destruct (applyDataBorder_shape height0 t r b l 0 0 0 255) as (D1 & D2 & D3).
  fold heightData in D1, D2, D3. rewrite H1 in D1. rewrite H2 in D2.
  rewrite H3 in D3.
  destruct (generateRoughness_shape heightData (Params.roughness params))
    as (R1 & R2 & R3). rewrite D1 in R1. rewrite D2 in R2. rewrite D1, D2 in R3.
  destruct (generateMetallic_shape w h (Params.metallic params)) as (M1 & M2 & M3).
  destruct (generateDisplacement_shape heightData
              (Params.displacementStrength params)) as (P1 & P2 & P3).
  rewrite D1 in P1. rewrite D2 in P2. rewrite D3 in P3.
  repeat split.
  - by apply (applyDataBorder_band _ w h).
  - by apply (applyDataBorder_band _ w h).
  - by apply (applyDataBorder_band _ w h).
  - by apply (applyDataBorder_band _ w h).
Qed.
End Pipeline.

(** ** The normal synthesizer on a flat field *)

Section Normal.
Context `{M : JsMath}.
Hypothesis sqrt_ok : sqrt_exact_on_squares M.

(** The three encoded components over a zero gradient. *)
Lemma flat_components (c strength : Q) :
  let dX := ((c + 2 * c + c) - (c + 2 * c + c))%Q in
  let dZ := (255 / Qmax (1 # 10) strength)%Q in
  let len := Math_sqrt (dX * dX + dX * dX + dZ * dZ) in
  (dX / len * (1 # 2) + (1 # 2)) * 255 == 255 # 2 ∧
  (1 - (dX / len * (1 # 2) + (1 # 2))) * 255 == 255 # 2 ∧
  (dZ / len * (1 # 2) + (1 # 2)) * 255 == 255.
Proof.
  intros dX dZ len. destruct sqrt_ok as [Hcomp Hsq].
  assert (HX : dX == 0) by (unfold dX; ring).
  assert (HM : (0 < Qmax (1 # 10) strength)%Q).
  { pose proof (Q.le_max_l (1 # 10) strength). lra. }
  assert (HZ : (0 < dZ)%Q).
  { unfold dZ, Qdiv. apply Qmult_lt_0_compat; [reflexivity|].
    by apply Qinv_lt_0_compat. }
  assert (Hlen : len == dZ).
  { unfold len. rewrite (Hcomp _ (dZ * dZ)%Q).
    - apply Hsq. lra.
    - rewrite HX. ring. }
  assert (H0 : dX / len == 0).
  { unfold Qdiv. rewrite HX. ring. }
  assert (H1 : dZ / len == 1).
  { rewrite Hlen. unfold Qdiv. apply Qmult_inv_r. lra. }
  rewrite H0, H1. repeat split; reflexivity.
Qed.

Lemma generateNormal_flat_any (heightData : ImageData) (w h c : Z)
    (strength : Q) (isDX : bool) (x y : Z) :
  width heightData = w → height heightData = h → flat heightData c →
  0 ≤ x < w → 0 ≤ y < h →
  pixelAt (generateNormal heightData w h strength isDX) x y =
    Some (128, 128, 255, 255).
Proof.
  intros Ew Eh Hflat Hx Hy. unfold generateNormal, createBuffer, pixelAt.
  cbn [width height data].
  replace (inside w h x y) with true by (symmetry; apply inside_spec; lia).
  rewrite for_rows_visits.
  destruct (paint_fold w h (Z.to_nat (w * h * 4)) (visits_rows h w)
              (normalAt (data heightData) w h strength isDX)
              (128, 128, 255, 255)) with (d := replicate (Z.to_nat (w * h * 4)) 0)
    as [_ Hpx].
  - intros x0 y0 d Hin Hlen. apply elem_of_visits_rows in Hin as [Hy0 Hx0].
    assert (G : ∀ x' y', 0 ≤ x' < w → 0 ≤ y' < h →
              get (data heightData) (offset w x' y') = inject_Z c).
    { intros x' y' Hx' Hy'. apply get_lookup.
      specialize (Hflat x' y'). rewrite Ew, Eh in Hflat. by apply Hflat. }
    unfold normalAt. cbv beta zeta.
    rewrite !G by lia.
    pose proof (offset_lt w h x0 y0 Hx0 Hy0) as Hoff.
    destruct (flat_components (inject_Z c) strength) as (C1 & C2 & C3).
    split; [by rewrite assign_length|]. intros x' y' Hx' Hy'.
    destruct (decide ((x0, y0) = (x', y'))) as [E|Hne].
    + simplify_eq. rewrite px_assign_same by lia.
      rewrite (toUint8Clamp_comp _ _ C1), (toUint8Clamp_comp _ _ C3).
      destruct isDX; cbn [negb].
      * by rewrite (toUint8Clamp_comp _ _ C1).
      * by rewrite (toUint8Clamp_comp _ _ C2).
    + apply px_assign_other; try done; lia.
  - apply length_replicate.
  - rewrite Hpx by done. rewrite decide_True; [done|].
    apply elem_of_visits_rows. lia.
Qed.
End Normal.

(** The reference square root is exact on squares. *)
Lemma Qred_coprime (n : Z) (d : positive) :
  Z.gcd n (Zpos d) = 1 → Qred (n # d) = n # d.
Proof. intros Hg. by apply Qred_iff. Qed.

Lemma Qsqrt_square (a : Q) : (0 <= a)%Q → Qsqrt (a * a) == a.
Proof.
  intros Ha. unfold Qsqrt.
  assert (Hred : Qred (a * a) = (Qred a * Qred a)%Q).
  { rewrite (Qred_complete (a * a) (Qred a * Qred a))
      by (by rewrite (Qred_correct a)).
    destruct (Qred a) as [n d] eqn:En.
    assert (Hg : Z.gcd n (Zpos d) = 1).
    { apply (Qred_iff (n # d)). rewrite <- En. apply Qred_involutive. }
    change ((n # d) * (n # d))%Q with ((n * n) # (d * d)).
    apply Qred_coprime. change (Zpos (d * d)) with (Zpos d * Zpos d).
    apply Z.coprime_mul_l; apply Z.coprime_mul_r; exact Hg. }
  rewrite Hred.
  assert (Hn : 0 ≤ Qnum (Qred a)).
  { assert (Hr : (0 <= Qred a)%Q) by (by rewrite Qred_correct).
    unfold Qle in Hr. simpl in Hr. lia. }
  destruct (Qred a) as [n d] eqn:En. simpl in Hn |- *.
  rewrite Z.sqrt_square by done.
  assert (Hd : Pos.sqrt (d * d) = d).
  { assert (E : Zpos (Pos.sqrt (d * d)) = Zpos d).
    { change (Zpos (Pos.sqrt (d * d))) with (Z.sqrt (Zpos d * Zpos d)).
      by apply Z.sqrt_square. }
    by injection E. }
  rewrite Hd, <- En. apply Qred_correct.
Qed.

Lemma refMath_sqrt_ok : sqrt_exact_on_squares refMath.
Proof.
  split.
  - intros a b E. simpl. unfold Qsqrt. by rewrite (Qred_complete a b E).
  - apply Qsqrt_square.
Qed.

(** C1. A perfectly flat height field, of any constant value, encodes to
    [(128, 128, 255)] at every pixel, for every [normalStrength] in
    [0.5, 6.0] and under both conventions ([isDX] true or false): at
    a zero gradient the GL flip of Y is a no-op.  [Math.sqrt] is assumed
    exact on squares. *)
Theorem generateNormal_flat `{M : JsMath} (heightData : ImageData) (w h c : Z)
    (normalStrength : Q) (isDX : bool) (x y : Z) :
  sqrt_exact_on_squares M →
  width heightData = w → height heightData = h → flat heightData c →
  (1 # 2 <= normalStrength)%Q → (normalStrength <= 6)%Q →
  0 ≤ x < w → 0 ≤ y < h →
  pixelAt (generateNormal heightData w h normalStrength isDX) x y =
    Some (128, 128, 255, 255).
Proof.
  intros Hsqrt Ew Eh Hflat _ _ Hx Hy.
  by apply (generateNormal_flat_any Hsqrt heightData w h c).
Qed.

Lemma generateNormal_flat_witness :
  pixelAt (generateNormal (H := refMath)
             (mkImageData 2 1 [90; 90; 90; 255; 90; 90; 90; 255]) 2 1 (3 # 2) false)
          1 0
  = Some (128, 128, 255, 255).
Proof.
  refine (generateNormal_flat (M := refMath)
            (mkImageData 2 1 [90; 90; 90; 255; 90; 90; 90; 255]) 2 1 90 (3 # 2) false
            1 0 refMath_sqrt_ok eq_refl eq_refl _ _ _ _ _);
    try (simpl; lia); try discriminate.
  intros x y Hx Hy. simpl in Hx, Hy.
  assert (y = 0) as -> by lia.
  assert (x = 0 ∨ x = 1) as [-> | ->] by lia; reflexivity.
Defined.

(** ** The entry point *)

Section Entry.
Context `{JsMath} `{Canvas2D}.

(** One call of the encoder: a canvas is created, and the raster goes
    through [toDataURL('image/jpeg', 0.95)], or is replaced by the
    empty string when the canvas has no context. *)
Lemma imageDataToDataURL_run (imageData : ImageData) (n : nat) :
  imageDataToDataURL imageData n =
    (match getContext n (width imageData) (height imageData) with
     | Some ctx => toDataURL (putImageData imageData 0 0 ctx) "image/jpeg" (95 # 100)
     | None => ""
     end, S n).
Proof.
  unfold imageDataToDataURL, mbind, Dom_bind, createCanvas.
  by destruct (getContext n _ _).
Qed.

Lemma encodeMaps_run (m : Rasters.t) (n : nat) :
  encodeMaps m n =
    ({| Textures.albedo := (imageDataToDataURL (Rasters.albedo m) n).1;
        Textures.normal := (imageDataToDataURL (Rasters.normal m) (n + 1)%nat).1;
        Textures.roughness := (imageDataToDataURL (Rasters.roughness m) (n + 2)%nat).1;
        Textures.metallic := (imageDataToDataURL (Rasters.metallic m) (n + 3)%nat).1;
        Textures.height := (imageDataToDataURL (Rasters.height m) (n + 4)%nat).1;
        Textures.displacement :=
          (imageDataToDataURL (Rasters.displacement m) (n + 5)%nat).1;
        Textures.ao := (imageDataToDataURL (Rasters.ao m) (n + 6)%nat).1 |},
     (n + 7)%nat).
Proof.
  unfold encodeMaps, mbind, Dom_bind, mret, Dom_ret.
  rewrite !imageDataToDataURL_run. cbn [fst].
  replace (n + 1)%nat with (S n) by lia.
  replace (n + 2)%nat with (S (S n)) by lia.
  replace (n + 3)%nat with (S (S (S n))) by lia.
  replace (n + 4)%nat with (S (S (S (S n)))) by lia.
  replace (n + 5)%nat with (S (S (S (S (S n))))) by lia.
  replace (n + 6)%nat with (S (S (S (S (S (S n)))))) by lia.
  replace (n + 7)%nat with (S (S (S (S (S (S (S n))))))) by lia.
  reflexivity.
Qed.

Lemma generateTextures_run (sourceImage : HTMLImageElement)
    (params : Params.PBRParams) (n : nat) :
  let d := dimensions (Params.resolution params) in
  generateTextures sourceImage params n =
    match getContext n d.1 d.2 with
    | None => (inl (Error "Failed to create canvas context"), S n)
    | Some ctx =>
        let maps := deriveMaps (albedoOf ctx sourceImage d.1 d.2 params)
                               d.1 d.2 params in
        (inr (encodeMaps maps (S n)).1, (S n + 7)%nat)
    end.
Proof.
  unfold generateTextures. destruct (dimensions _) as [w h]. cbn [fst snd].
  unfold mbind, Dom_bind, createCanvas.
  destruct (getContext n w h) as [ctx|]; [|done].
  rewrite encodeMaps_run. reflexivity.
Qed.
End Entry.

(** C2. Border invariant.  For border thicknesses in their documented
    range and any other parameter values, the rasters that one call of
    [generateTextures] encodes have, at every pixel of the border band,
    255 in the roughness map and 0 in the metallic, height and displacement
    maps (alpha 255 throughout). *)
Theorem border_invariant `{JsMath} `{Canvas2D} (sourceImage : HTMLImageElement)
    (params : Params.PBRParams) (n : nat) (ctx : Context2D) (x y : Z) :
  let d := dimensions (Params.resolution params) in
  let bs := Params.borders params in
  let maps := deriveMaps (albedoOf ctx sourceImage d.1 d.2 params) d.1 d.2 params in
  getContext n d.1 d.2 = Some ctx →
  documented_border d.1 d.2 bs = true →
  0 ≤ x < d.1 → 0 ≤ y < d.2 →
  in_band d.1 d.2 (Params.top bs) (Params.right bs) (Params.bottom bs)
          (Params.left bs) x y = true →
  (generateTextures sourceImage params n).1 = inr (encodeMaps maps (S n)).1 ∧
  pixelAt (Rasters.roughness maps) x y = Some (255, 255, 255, 255) ∧
  pixelAt (Rasters.metallic maps) x y = Some (0, 0, 0, 255) ∧
  pixelAt (Rasters.height maps) x y = Some (0, 0, 0, 255) ∧
  pixelAt (Rasters.displacement maps) x y = Some (0, 0, 0, 255).
Proof.
  intros d bs maps Hctx _ Hx Hy Hband. split.
  - pose proof (generateTextures_run sourceImage params n) as E.
    cbv zeta in E. fold d in E. rewrite Hctx in E. by rewrite E.
  - apply deriveMaps_band; try done.
    unfold d. by destruct (Params.resolution params).
Qed.

Lemma border_invariant_witness :
  pixelAt (Rasters.roughness
             (deriveMaps (H := refMath)
                (albedoOf (H := refCanvas (λ _, true)) None tt 2048 2048
                          (sampleParams 20 80 4 0 0 0))
                2048 2048 (sampleParams 20 80 4 0 0 0))) 17 3
  = Some (255, 255, 255, 255).
Proof.
  refine (proj1 (proj2 (border_invariant (H := refMath) (H0 := refCanvas (λ _, true))
            tt (sampleParams 20 80 4 0 0 0) 0%nat None 17 3 _ _ _ _ _)));
    first [reflexivity | cbn; lia].
Defined.



(** When the canvas of the entry point gets its context and a canvas of
    the encoder does not, the entry is the empty string and the call
    still succeeds. *)
Lemma encoder_without_context `{JsMath} `{Canvas2D} (imageData : ImageData) (n : nat) :
  getContext n (width imageData) (height imageData) = None →
  (imageDataToDataURL imageData n).1 = "".
Proof. intros Hnone. by rewrite imageDataToDataURL_run, Hnone. Qed.

(** C4, at a failing input: the first canvas gets a context, the seven
    canvases of the encoder get none.  The call does not fail: it returns
    a [TextureSet] of seven empty strings. *)
Theorem encoding_failure_downgraded :
  (generateTextures (H := refMath) (H0 := refCanvas (λ n, Nat.eqb n 0))
     tt (sampleParams 20 80 0 0 0 0) 0%nat).1
  = inr {| Textures.albedo := ""; Textures.normal := "";
           Textures.roughness := ""; Textures.metallic := "";
           Textures.height := ""; Textures.displacement := "";
           Textures.ao := "" |}.
Proof. rewrite generateTextures_run. reflexivity. Qed.

(** C9. With a context for its canvas, [generateTextures] returns the
    seven entries albedo, normal, roughness, metallic, height,
    displacement, ao, each the result of the same routine
    [imageDataToDataURL] on its raster, and that routine serializes with
    [toDataURL('image/jpeg', 0.95)]: the lossy encoding, for every map. *)
Theorem uniform_jpeg_encoding `{JsMath} `{Canvas2D} (sourceImage : HTMLImageElement)
    (params : Params.PBRParams) (n : nat) (ctx : Context2D) :
  let d := dimensions (Params.resolution params) in
  let maps := deriveMaps (albedoOf ctx sourceImage d.1 d.2 params) d.1 d.2 params in
  getContext n d.1 d.2 = Some ctx →
  (generateTextures sourceImage params n).1 =
    inr {| Textures.albedo := (imageDataToDataURL (Rasters.albedo maps) (S n)).1;
           Textures.normal := (imageDataToDataURL (Rasters.normal maps) (S n + 1)%nat).1;
           Textures.roughness :=
             (imageDataToDataURL (Rasters.roughness maps) (S n + 2)%nat).1;
           Textures.metallic :=
             (imageDataToDataURL (Rasters.metallic maps) (S n + 3)%nat).1;
           Textures.height := (imageDataToDataURL (Rasters.height maps) (S n + 4)%nat).1;
           Textures.displacement :=
             (imageDataToDataURL (Rasters.displacement maps) (S n + 5)%nat).1;
           Textures.ao := (imageDataToDataURL (Rasters.ao maps) (S n + 6)%nat).1 |} ∧
  ∀ (imageData : ImageData) (k : nat) (c : Context2D),
    getContext k (width imageData) (height imageData) = Some c →
    (imageDataToDataURL imageData k).1 =
      toDataURL (putImageData imageData 0 0 c) "image/jpeg" (95 # 100).
Proof.
  intros d maps Hctx. split.
  - pose proof (generateTextures_run sourceImage params n) as E.
    cbv zeta in E. fold d in E. rewrite Hctx in E. fold maps in E.
    rewrite E, encodeMaps_run. reflexivity.
  - intros imageData k c Hc. by rewrite imageDataToDataURL_run, Hc.
Qed.

Lemma uniform_jpeg_encoding_witness :
  (generateTextures (H := refMath) (H0 := refCanvas (λ _, true))
     tt (sampleParams 20 80 0 0 0 0) 0%nat).1
  = inr {| Textures.albedo := "data:image/jpeg"; Textures.normal := "data:image/jpeg";
           Textures.roughness := "data:image/jpeg";
           Textures.metallic := "data:image/jpeg";
           Textures.height := "data:image/jpeg";
           Textures.displacement := "data:image/jpeg";
           Textures.ao := "data:image/jpeg" |}.
Proof.
  refine (proj1 (uniform_jpeg_encoding (H := refMath) (H0 := refCanvas (λ _, true))
                   tt (sampleParams 20 80 0 0 0 0) 0%nat None _)).
  reflexivity.
Defined.

(** * Further properties of the generator *)

(** ** Rounding is monotone *)

Lemma toUint8Clamp_mono (v v' : Q) : (v <= v')%Q → toUint8Clamp v ≤ toUint8Clamp v'.
Proof.
  intros Hv. unfold toUint8Clamp.
  set (c := Qmin (Qmax v 0) 255). set (c' := Qmin (Qmax v' 0) 255).
  assert (Hc : (c <= c')%Q).
  { unfold c, c'. apply Q.min_le_compat; [|lra]. apply Q.max_le_compat; [done|lra]. }
  pose proof (Qfloor_resp_le c c' Hc) as Hf.
  pose proof (Qfloor_le c) as L1. pose proof (Qlt_floor c) as L2.
  pose proof (Qfloor_le c') as L1'. pose proof (Qlt_floor c') as L2'.
  destruct (Z.eq_dec (Qfloor c) (Qfloor c')) as [E|N].
  - rewrite <- E in *.
    destruct (Qcompare_spec c (inject_Z (Qfloor c) + (1 # 2))) as [E1|E1|E1];
      destruct (Qcompare_spec c' (inject_Z (Qfloor c) + (1 # 2))) as [E2|E2|E2];
      try destruct (Z.even (Qfloor c)); try lia; lra.
  - assert (Hlt : Qfloor c + 1 ≤ Qfloor c') by lia.
    destruct (c ?= _)%Q; destruct (c' ?= _)%Q;
      try destruct (Z.even (Qfloor c)); try destruct (Z.even (Qfloor c')); lia.
Qed.

(** ** Gray pixel loops that copy *)

(** A gray pixel loop whose value at every pixel is the red byte of a
    gray, opaque buffer [d] rebuilds [d]. *)
Lemma gray_loop_copy (f : nat → list Z → Q) (d0 d : list Z) (n : nat) :
  (∀ i d1 d2, (∀ j, (i ≤ j)%nat → d1 !! j = d2 !! j) → f i d1 = f i d2) →
  length d0 = (4 * n)%nat → length d = (4 * n)%nat → gray_opaque d = true →
  (∀ q, (q < n)%nat → toUint8Clamp (f (4 * q)%nat d0) = d !!! (4 * q)%nat) →
  for_pixels (length d) (gray_body f) d0 = d.
Proof.
  intros Hloc Hl0 Hl Hgray Hval.
  destruct (gray_opaque_spec (length d) d (le_n _) Hgray) as [_ Hd].
  destruct (for_pixels_gray f d0 (length d) n Hloc Hl) as [Hlen Hj]; [lia|].
  apply list_eq. intros j.
  destruct (decide (j < length d)%nat) as [Hlt|Hge].
  - rewrite (Hj j Hlt), (Hd j Hlt). f_equal. unfold gray_byte.
    case_decide; [done|]. apply Hval.
    pose proof (Nat.Div0.mul_div_le j 4). pose proof (Nat.div_mod_eq j 4).
    pose proof (Nat.mod_upper_bound j 4). lia.
  - rewrite !lookup_ge_None_2; [done|lia|lia].
Qed.

Lemma is_height_field_spec (img : ImageData) :
  is_height_field img = true →
  0 ≤ width img ∧ 0 ≤ height img ∧
  length (data img) = (4 * Z.to_nat (width img * height img))%nat ∧
  gray_opaque (data img) = true ∧
  ∀ j, (j < length (data img))%nat → 0 ≤ data img !!! j ≤ 255.
Proof.
  unfold is_height_field. rewrite andb_true_iff. intros [Hwf Hg].
  apply well_formed_spec in Hwf as (Hw & Hh & Hlen & Hb).
  repeat split; try done; try nia.
  - apply (Hb j). by apply list_lookup_lookup_total_lt.
  - apply (Hb j). by apply list_lookup_lookup_total_lt.
Qed.

(** The three colour bytes of a pixel of a gray, opaque buffer. *)
Lemma gray_opaque_pixel (d : list Z) (q : nat) :
  gray_opaque d = true → (4 * q < length d)%nat →
  d !!! (4 * q + 1)%nat = d !!! (4 * q)%nat ∧
  d !!! (4 * q + 2)%nat = d !!! (4 * q)%nat ∧
  d !!! (4 * q + 3)%nat = 255 ∧ (4 * q + 3 < length d)%nat.
Proof.
  intros Hg Hq.
  destruct (gray_opaque_spec (length d) d (le_n _) Hg) as [[k Hk] Hd].
  assert (H3 : (4 * q + 3 < length d)%nat) by lia.
  assert (Hc : ∀ c, (c < 4)%nat →
    d !!! (4 * q + c)%nat = if decide (c = 3)%nat then 255 else d !!! (4 * q)%nat).
  { intros c Hc. apply list_lookup_total_correct. rewrite Hd by lia.
    destruct (div_mod_4 q c Hc) as [-> ->]. done. }
  rewrite (Hc 1%nat), (Hc 2%nat), (Hc 3%nat) by lia. done.
Qed.

(** A stored byte is within one half of the clamped number. *)
Lemma toUint8Clamp_near (v : Q) :
  let c := Qmin (Qmax v 0) 255 in
  (c - (1 # 2) <= inject_Z (toUint8Clamp v) <= c + (1 # 2))%Q.
Proof.
  cbv zeta. unfold toUint8Clamp.
  set (c := Qmin (Qmax v 0) 255).
  pose proof (Qfloor_le c) as L1. pose proof (Qlt_floor c) as L2.
  assert (E : inject_Z (Qfloor c + 1) == inject_Z (Qfloor c) + 1)
    by (rewrite inject_Z_plus; reflexivity).
  rewrite E in L2.
  destruct (Qcompare_spec c (inject_Z (Qfloor c) + (1 # 2))) as [E1|E1|E1];
    try destruct (Z.even (Qfloor c)); rewrite ?E; lra.
Qed.

(** ** The luminance extractor *)

Lemma luma_local_eq (i : nat) (d d' : list Z) :
  (∀ j, (i ≤ j)%nat → d !! j = d' !! j) →
  ((299 # 1000) * get d i + (587 # 1000) * get d (i + 1)%nat
   + (114 # 1000) * get d (i + 2)%nat =
   (299 # 1000) * get d' i + (587 # 1000) * get d' (i + 1)%nat
   + (114 # 1000) * get d' (i + 2)%nat)%Q.
Proof.
  intros H.
  by rewrite (get_local d d' i), (get_local d d' (i + 1)), (get_local d d' (i + 2))
    by (apply H; lia).
Qed.



Lemma toGrayscale_height_field (imgData : ImageData) :
  well_formed imgData = true → is_height_field (toGrayscale imgData) = true.
Proof.
  intros Hwf. pose proof Hwf as Hwf'.
  apply well_formed_spec in Hwf as (Hw & Hh & Hlen & _).
  destruct (gray_body_gray_bytes
    (λ i d, (299 # 1000) * get d i + (587 # 1000) * get d (i + 1)%nat
            + (114 # 1000) * get d (i + 2)%nat)%Q
    (data imgData) (Z.to_nat (width imgData * height imgData)) luma_local_eq)
    as [Hg Hb]; [nia|].
  pose proof (toGrayscale_length imgData) as Hl.
  unfold is_height_field, well_formed.
  change (width (toGrayscale imgData)) with (width imgData).
  change (height (toGrayscale imgData)) with (height imgData).
  rewrite Hl, Hlen. rewrite !andb_true_iff. repeat split; try lia.
  - by apply Nat.eqb_eq.
  - apply forallb_forall. intros z Hz. apply list_elem_of_In in Hz.
    rewrite Forall_forall in Hb. specialize (Hb z Hz). unfold byte. lia.
  - apply (gray_opaque_intro (length (data (toGrayscale imgData)))); [done| |exact Hg].
    exists (Z.to_nat (width imgData * height imgData)). rewrite Hl, Hlen. nia.
Qed.

Lemma toGrayscale_fixed (imgData : ImageData) :
  is_height_field imgData = true → toGrayscale imgData = imgData.
Proof.
  intros Hhf. apply is_height_field_spec in Hhf as (Hw & Hh & Hlen & Hg & Hb).
  destruct imgData as [w h d]. cbn [width height data] in *.
  unfold toGrayscale, createBuffer. cbn [width height data]. f_equal.
  apply (gray_loop_copy _ d d (Z.to_nat (w * h))); try done.
  - exact luma_local_eq.
  - intros q Hq.
    destruct (gray_opaque_pixel d q Hg ltac:(lia)) as (E1 & E2 & _ & _).
    unfold get. rewrite E1, E2.
    rewrite <- (toUint8Clamp_byte (d !!! (4 * q)%nat)) at 4 by (apply Hb; lia).
    apply toUint8Clamp_comp. ring.
Qed.

(** X2.  [toGrayscale] is idempotent, and leaves a gray, opaque raster as it
    is: the three weights sum to 1. *)
Theorem toGrayscale_idempotent (imgData : ImageData) :
  well_formed imgData = true →
  toGrayscale (toGrayscale imgData) = toGrayscale imgData ∧
  (gray_opaque (data imgData) = true → toGrayscale imgData = imgData).
Proof.
  intros Hwf. split.
  - by apply toGrayscale_fixed, toGrayscale_height_field.
  - intros Hg. apply toGrayscale_fixed. unfold is_height_field. by rewrite Hwf, Hg.
Qed.

Lemma toGrayscale_idempotent_witness :
  toGrayscale (toGrayscale (mkImageData 1 1 [255; 0; 0; 9]))
  = toGrayscale (mkImageData 1 1 [255; 0; 0; 9]).
Proof.
  refine (proj1 (toGrayscale_idempotent (mkImageData 1 1 [255; 0; 0; 9]) _)).
  reflexivity.
Defined.

(** ** The height mapper: levels *)

Lemma percent_le (a b : Q) : (a <= b)%Q → (a / 100 * 255 <= b / 100 * 255)%Q.
Proof. intros H. unfold Qdiv. change (/ 100)%Q with (1 # 100). lra. Qed.

Lemma percent_lt (a b : Q) : (a < b)%Q → (0 < b / 100 * 255 - a / 100 * 255)%Q.
Proof. intros H. unfold Qdiv. change (/ 100)%Q with (1 # 100). lra. Qed.

Lemma generateHeight_level (grayData : ImageData) (minP maxP : Q)
    (x y r g b a : Z) :
  well_formed grayData = true →
  pixelAt grayData x y = Some (r, g, b, a) →
  pixelAt (generateHeight grayData minP maxP) x y =
    let v := heightLevel minP maxP r in Some (v, v, v, 255).
Proof.
  intros Hwf Hpx.
  apply well_formed_spec in Hwf as (Hw & Hh & Hlen & _).
  apply pixelAt_inside in Hpx as (Hx & Hy & Hpx).
  apply px_Some in Hpx as (Hr & _).
  rewrite generateHeight_pixel by done. cbv zeta.
  by rewrite (get_lookup _ _ _ Hr).
Qed.

(** X3.  With [heightMin >= heightMax] the height map is black: the clamp to
    [[minV, maxV]] returns [minV] for every luminance. *)
Theorem generateHeight_inverted (grayData : ImageData) (minP maxP : Q)
    (x y : Z) :
  well_formed grayData = true → (maxP <= minP)%Q →
  0 ≤ x < width grayData → 0 ≤ y < height grayData →
  pixelAt (generateHeight grayData minP maxP) x y = Some (0, 0, 0, 255).
Proof.
  intros Hwf Hinv Hx Hy.
  apply well_formed_spec in Hwf as (Hw & Hh & Hlen & _).
  rewrite generateHeight_pixel by done. cbv zeta.
  set (m := (minP / 100 * 255)%Q). set (M := (maxP / 100 * 255)%Q).
  set (val := get _ _).
  assert (HmM : (M <= m)%Q) by (by apply percent_le).
  assert (Em : Qmax m (Qmin M val) == m).
  { apply Q.max_l. pose proof (Q.le_min_l M val). lra. }
  assert (E : toUint8Clamp ((Qmax m (Qmin M val) - m) / js_or (M - m) 1 * 255) = 0).
  { rewrite <- toUint8Clamp_0. apply toUint8Clamp_comp.
    rewrite Em. unfold Qdiv. ring. }
  by rewrite E.
Qed.

Lemma generateHeight_inverted_witness :
  pixelAt (generateHeight (mkImageData 2 1 [10; 10; 10; 255; 200; 200; 200; 255]) 80 20)
          1 0
  = Some (0, 0, 0, 255).
Proof.
  refine (generateHeight_inverted
            (mkImageData 2 1 [10; 10; 10; 255; 200; 200; 200; 255]) 80 20 1 0 _ _ _ _);
    first [reflexivity | discriminate | simpl; lia].
Defined.

Lemma heightLevel_range_positive (minP maxP : Q) :
  (minP < maxP)%Q →
  js_or (maxP / 100 * 255 - minP / 100 * 255) 1 = (maxP / 100 * 255 - minP / 100 * 255)%Q ∧
  (0 < maxP / 100 * 255 - minP / 100 * 255)%Q.
Proof.
  intros Hlt. pose proof (percent_lt minP maxP Hlt) as Hpos.
  split; [|done]. unfold js_or.
  destruct (Qeq_bool _ 0) eqn:E; [|done].
  apply Qeq_bool_iff in E. lra.
Qed.

Lemma heightLevel_stretch (minP maxP : Q) (r r' : Z) :
  (minP < maxP)%Q →
  (r ≤ r' → heightLevel minP maxP r ≤ heightLevel minP maxP r') ∧
  ((inject_Z r <= minP / 100 * 255)%Q → heightLevel minP maxP r = 0) ∧
  ((maxP / 100 * 255 <= inject_Z r)%Q → heightLevel minP maxP r = 255).
Proof.
  intros Hlt. unfold heightLevel. cbv zeta.
  destruct (heightLevel_range_positive minP maxP Hlt) as [-> Hpos].
  set (m := (minP / 100 * 255)%Q) in *. set (M := (maxP / 100 * 255)%Q) in *.
  assert (Hk : (0 < / (M - m))%Q) by (by apply Qinv_lt_0_compat).
  assert (Hone : (M - m) * / (M - m) == 1) by (apply Qmult_inv_r; lra).
  unfold Qdiv. set (k := (/ (M - m))%Q) in *.
  split; [|split].
  - intros Hr. apply toUint8Clamp_mono.
    pose proof (inject_Z_le r r' Hr) as Hq.
    assert (Hc : (Qmax m (Qmin M (inject_Z r)) <= Qmax m (Qmin M (inject_Z r')))%Q).
    { apply Q.max_le_compat; [lra|]. apply Q.min_le_compat; [lra|done]. }
    nra.
  - intros Hlow. etransitivity; [apply (toUint8Clamp_comp _ 0)|exact toUint8Clamp_0].
    assert (Em : Qmax m (Qmin M (inject_Z r)) == m).
    { apply Q.max_l. pose proof (Q.le_min_r M (inject_Z r)). lra. }
    rewrite Em. ring.
  - intros Hhigh. etransitivity; [apply (toUint8Clamp_comp _ 255)|exact toUint8Clamp_255].
    assert (Em : Qmax m (Qmin M (inject_Z r)) == M).
    { assert (E1 : Qmin M (inject_Z r) == M) by (by apply Q.min_l).
      rewrite E1. apply Q.max_r. lra. }
    rewrite Em. rewrite Hone. ring.
Qed.

(** X4.  For [heightMin < heightMax] the height map is a contrast stretch of
    the luminance: of two pixels the brighter is at least as high, a
    pixel at or below the lower threshold is 0 and one at or above the
    upper threshold is 255. *)
Theorem generateHeight_stretch (grayData : ImageData) (minP maxP : Q)
    (x y r g b a x' y' r' g' b' a' : Z) :
  well_formed grayData = true → (minP < maxP)%Q →
  pixelAt grayData x y = Some (r, g, b, a) →
  pixelAt grayData x' y' = Some (r', g', b', a') →
  ∃ v v',
    pixelAt (generateHeight grayData minP maxP) x y = Some (v, v, v, 255) ∧
    pixelAt (generateHeight grayData minP maxP) x' y' = Some (v', v', v', 255) ∧
    (r ≤ r' → v ≤ v') ∧
    ((inject_Z r <= minP / 100 * 255)%Q → v = 0) ∧
    ((maxP / 100 * 255 <= inject_Z r)%Q → v = 255).
Proof.
  intros Hwf Hlt Hpx Hpx'.
  exists (heightLevel minP maxP r), (heightLevel minP maxP r').
  rewrite (generateHeight_level _ _ _ _ _ _ _ _ _ Hwf Hpx).
  rewrite (generateHeight_level _ _ _ _ _ _ _ _ _ Hwf Hpx').
  destruct (heightLevel_stretch minP maxP r r' Hlt) as (H1 & H2 & H3).
  done.
Qed.

Lemma generateHeight_stretch_witness :
  ∃ v v',
    pixelAt (generateHeight (mkImageData 2 1 [10; 10; 10; 255; 200; 200; 200; 255]) 20 80)
            0 0 = Some (v, v, v, 255) ∧
    pixelAt (generateHeight (mkImageData 2 1 [10; 10; 10; 255; 200; 200; 200; 255]) 20 80)
            1 0 = Some (v', v', v', 255) ∧
    (10 ≤ 200 → v ≤ v') ∧
    ((inject_Z 10 <= 20 / 100 * 255)%Q → v = 0) ∧
    ((80 / 100 * 255 <= inject_Z 10)%Q → v = 255).
Proof.
  refine (generateHeight_stretch
            (mkImageData 2 1 [10; 10; 10; 255; 200; 200; 200; 255]) 20 80
            0 0 10 10 10 255 1 0 200 200 200 255 _ _ _ _); reflexivity.
Defined.

(** X5.  With the full range, [heightMin = 0] and [heightMax = 100], the
    height map is the luminance itself. *)
Theorem generateHeight_full_range (grayData : ImageData) :
  is_height_field grayData = true →
  generateHeight grayData 0 100 = grayData.
Proof.
  intros Hhf. apply is_height_field_spec in Hhf as (Hw & Hh & Hlen & Hg & Hb).
  destruct grayData as [w h d]. cbn [width height data] in *.
  unfold generateHeight, createBuffer. cbn [width height data]. f_equal.
  assert (Hr : js_or (100 / 100 * 255 - 0 / 100 * 255) 1 = (100 / 100 * 255 - 0 / 100 * 255)%Q)
    by reflexivity.
  apply (gray_loop_copy
           (λ i _, stored (heightValue (0 / 100 * 255) (100 / 100 * 255)
                             (heightRange (0 / 100 * 255) (100 / 100 * 255))
                             (get d i)))%Q
           _ d (Z.to_nat (w * h))); try done.
  - rewrite length_replicate. nia.
  - intros q Hq.
    assert (Hq' : (4 * q < length d)%nat) by lia.
    specialize (Hb _ Hq'). rewrite heightValue_finite. cbn [stored].
    rewrite Hr. unfold get.
    set (z := d !!! (4 * q)%nat) in *.
    rewrite <- (toUint8Clamp_byte z Hb) at 2.
    apply toUint8Clamp_comp.
    pose proof (inject_Z_le 0 z (proj1 Hb)) as H0.
    pose proof (inject_Z_le z 255 (proj2 Hb)) as H1.
    change (inject_Z 0) with 0%Q in *. change (inject_Z 255) with 255%Q in *.
    assert (EM : 100 / 100 * 255 == 255) by reflexivity.
    assert (Em : 0 / 100 * 255 == 0) by reflexivity.
    rewrite EM, Em.
    assert (E1 : Qmin 255 (inject_Z z) == inject_Z z) by (apply Q.min_r; lra).
    assert (E2 : Qmax 0 (inject_Z z) == inject_Z z) by (apply Q.max_r; lra).
    rewrite E1, E2. field.
Qed.

Lemma generateHeight_full_range_witness :
  generateHeight (mkImageData 2 1 [10; 10; 10; 255; 200; 200; 200; 255]) 0 100
  = mkImageData 2 1 [10; 10; 10; 255; 200; 200; 200; 255].
Proof.
  refine (generateHeight_full_range
            (mkImageData 2 1 [10; 10; 10; 255; 200; 200; 200; 255]) _).
  reflexivity.
Defined.

(** ** Displacement and roughness: levels *)

Lemma generateDisplacement_pixel (heightData : ImageData) (strength : Q)
    (x y hv g b a : Z) :
  well_formed heightData = true →
  pixelAt heightData x y = Some (hv, g, b, a) →
  pixelAt (generateDisplacement heightData strength) x y =
    let v := displacementLevel strength hv in Some (v, v, v, 255).
Proof.
  intros Hwf Hpx.
  apply well_formed_spec in Hwf as (Hw & Hh & Hlen & _).
  apply pixelAt_inside in Hpx as (Hx & Hy & Hpx).
  apply px_Some in Hpx as (Hr & _).
  unfold generateDisplacement, createBuffer. cbn [width height data]. rewrite Hlen.
  rewrite (pixelAt_gray_loop (width heightData) (height heightData)
             (λ i d, Qmax 0 (Qmin 255 ((get d i - 128) * strength + 128))))
    by (first [exact (displacement_local strength) | done]).
  cbv zeta. unfold displacementLevel. by rewrite (get_lookup _ _ _ Hr).
Qed.

Lemma displacementLevel_formula (strength : Q) (hv : Z) :
  displacementLevel strength hv = toUint8Clamp (displacement_formula hv strength).
Proof.
  unfold displacementLevel, displacement_formula.
  apply toUint8Clamp_comp, clamp_max_min.
Qed.



(** X7.  For a strength that is not negative, displacement keeps the order of
    heights: of two pixels, the higher one is displaced at least as far. *)
Theorem generateDisplacement_monotone (heightData : ImageData) (strength : Q)
    (x y hv g b a x' y' hv' g' b' a' : Z) :
  well_formed heightData = true → (0 <= strength)%Q →
  pixelAt heightData x y = Some (hv, g, b, a) →
  pixelAt heightData x' y' = Some (hv', g', b', a') →
  hv ≤ hv' →
  ∃ v v',
    pixelAt (generateDisplacement heightData strength) x y = Some (v, v, v, 255) ∧
    pixelAt (generateDisplacement heightData strength) x' y' = Some (v', v', v', 255) ∧
    v ≤ v'.
Proof.
  intros Hwf Hs Hpx Hpx' Hle.
  exists (displacementLevel strength hv), (displacementLevel strength hv').
  rewrite (generateDisplacement_pixel _ _ _ _ _ _ _ _ Hwf Hpx).
  rewrite (generateDisplacement_pixel _ _ _ _ _ _ _ _ Hwf Hpx').
  repeat split; try done.
  unfold displacementLevel. apply toUint8Clamp_mono.
  pose proof (inject_Z_le hv hv' Hle) as Hq.
  apply Q.max_le_compat; [lra|]. apply Q.min_le_compat; [lra|]. nra.
Qed.

Lemma generateDisplacement_monotone_witness :
  ∃ v v',
    pixelAt (generateDisplacement
               (mkImageData 2 1 [10; 10; 10; 255; 200; 200; 200; 255]) (1 # 2)) 0 0
      = Some (v, v, v, 255) ∧
    pixelAt (generateDisplacement
               (mkImageData 2 1 [10; 10; 10; 255; 200; 200; 200; 255]) (1 # 2)) 1 0
      = Some (v', v', v', 255) ∧
    v ≤ v'.
Proof.
  refine (generateDisplacement_monotone
            (mkImageData 2 1 [10; 10; 10; 255; 200; 200; 200; 255]) (1 # 2)
            0 0 10 10 10 255 1 0 200 200 200 255 _ _ _ _ _);
    first [reflexivity | discriminate | lia].
Defined.

(** X8.  Roughness inverts height: of two pixels, the higher one is at most as
    rough, whatever the offset; and a larger offset never lowers the
    roughness of a pixel. *)
Theorem generateRoughness_antitone (heightData : ImageData) (roughnessOffset : Q)
    (x y hv g b a x' y' hv' g' b' a' : Z) :
  well_formed heightData = true →
  pixelAt heightData x y = Some (hv, g, b, a) →
  pixelAt heightData x' y' = Some (hv', g', b', a') →
  hv ≤ hv' →
  ∃ v v',
    pixelAt (generateRoughness heightData roughnessOffset) x y = Some (v, v, v, 255) ∧
    pixelAt (generateRoughness heightData roughnessOffset) x' y' = Some (v', v', v', 255) ∧
    v' ≤ v ∧
    ∀ larger u, (roughnessOffset <= larger)%Q →
      pixelAt (generateRoughness heightData larger) x y = Some (u, u, u, 255) → v ≤ u.
Proof.
  intros Hwf Hpx Hpx' Hle.
  pose proof Hwf as Hwf'.
  apply well_formed_spec in Hwf' as (Hw & Hh & Hlen & _).
  pose proof Hpx as Hin. apply pixelAt_inside in Hin as (Hx & Hy & Hin).
  pose proof Hpx' as Hin'. apply pixelAt_inside in Hin' as (Hx' & Hy' & Hin').
  apply px_Some in Hin as (Hr & _). apply px_Some in Hin' as (Hr' & _).
  exists (roughnessLevel roughnessOffset hv), (roughnessLevel roughnessOffset hv').
  rewrite !generateRoughness_pixel by done. cbv zeta.
  rewrite (get_lookup _ _ _ Hr), (get_lookup _ _ _ Hr').
  pose proof (inject_Z_le hv hv' Hle) as Hq.
  repeat split; try done.
  - unfold roughnessLevel. apply toUint8Clamp_mono.
    apply Q.max_le_compat; [lra|]. apply Q.min_le_compat; [lra|]. lra.
  - intros larger u Hlarger Hu.
    rewrite generateRoughness_pixel in Hu by done. cbv zeta in Hu.
    rewrite (get_lookup _ _ _ Hr) in Hu. injection Hu as <-.
    unfold roughnessLevel. apply toUint8Clamp_mono.
    apply Q.max_le_compat; [lra|]. apply Q.min_le_compat; [lra|]. lra.
Qed.

Lemma generateRoughness_antitone_witness :
  ∃ v v',
    pixelAt (generateRoughness
               (mkImageData 2 1 [10; 10; 10; 255; 200; 200; 200; 255]) 5) 0 0
      = Some (v, v, v, 255) ∧
    pixelAt (generateRoughness
               (mkImageData 2 1 [10; 10; 10; 255; 200; 200; 200; 255]) 5) 1 0
      = Some (v', v', v', 255) ∧
    v' ≤ v ∧
    ∀ larger u, (5 <= larger)%Q →
      pixelAt (generateRoughness
                 (mkImageData 2 1 [10; 10; 10; 255; 200; 200; 200; 255]) larger) 0 0
        = Some (u, u, u, 255) → v ≤ u.
Proof.
  refine (generateRoughness_antitone
            (mkImageData 2 1 [10; 10; 10; 255; 200; 200; 200; 255]) 5
            0 0 10 10 10 255 1 0 200 200 200 255 _ _ _ _);
    first [reflexivity | lia].
Defined.

(** ** Ambient occlusion at strength 1 *)

Lemma generateAO_identity_on `{JsMath} (heightData : ImageData) (w h : Z)
    (strength : Q) :
  is_height_field heightData = true →
  width heightData = w → height heightData = h → strength == 1 →
  generateAO heightData w h strength = heightData.
Proof.
  intros Hhf Ew Eh Hs.
  apply is_height_field_spec in Hhf as (Hw & Hh & Hlen & Hg & Hb).
  destruct heightData as [w0 h0 d]. cbn [width height data] in *. subst w0 h0.
  unfold generateAO, createBuffer. cbn [width height data]. f_equal.
  assert (E : Qeq_bool strength 1 = true) by (by apply Qeq_bool_iff).
  rewrite E. cbn [negb].
  apply (gray_loop_copy (λ i _, Qmax 0 (Qmin 255 (get d i))) _ d (Z.to_nat (w * h)));
    try done.
  - rewrite length_replicate. nia.
  - intros q Hq. assert (Hq' : (4 * q < length d)%nat) by lia.
    specialize (Hb _ Hq'). unfold get. set (z := d !!! (4 * q)%nat) in *.
    rewrite <- (toUint8Clamp_byte z Hb) at 2. apply toUint8Clamp_comp.
    pose proof (inject_Z_le 0 z (proj1 Hb)) as H0.
    pose proof (inject_Z_le z 255 (proj2 Hb)) as H1.
    change (inject_Z 0) with 0%Q in *. change (inject_Z 255) with 255%Q in *.
    assert (E1 : Qmin 255 (inject_Z z) == inject_Z z) by (apply Q.min_r; lra).
    rewrite E1. apply Q.max_r. lra.
Qed.

(** X9.  With [aoStrength = 1], [generateAO] skips the gamma curve (it never
    calls [Math.pow]) and returns the height field as it is. *)
Theorem generateAO_identity `{JsMath} (heightData : ImageData) (strength : Q) :
  is_height_field heightData = true → strength == 1 →
  generateAO heightData (width heightData) (height heightData) strength = heightData.
Proof. intros Hhf Hs. by apply generateAO_identity_on. Qed.

Lemma generateAO_identity_witness :
  generateAO (H := refMath) (mkImageData 2 1 [10; 10; 10; 255; 200; 200; 200; 255]) 2 1 1
  = mkImageData 2 1 [10; 10; 10; 255; 200; 200; 200; 255].
Proof.
  refine (generateAO_identity (H := refMath)
            (mkImageData 2 1 [10; 10; 10; 255; 200; 200; 200; 255]) 1 _ _);
    reflexivity.
Defined.

Lemma deriveMaps_height_shape `{JsMath} (albedoData : ImageData) (w h : Z)
    (params : Params.PBRParams) :
  width (Rasters.height (deriveMaps albedoData w h params)) = width albedoData ∧
  height (Rasters.height (deriveMaps albedoData w h params)) = height albedoData.
Proof.
  unfold deriveMaps. cbv zeta. cbn [Rasters.height].
  set (bs := Params.borders params).
  destruct (applyDataBorder_shape (toGrayscale albedoData) (Params.top bs)
              (Params.right bs) (Params.bottom bs) (Params.left bs) 0 0 0 255)
    as (G1 & G2 & _).
  set (grayData := applyDataBorder (toGrayscale albedoData) _ _ _ _ 0 0 0 255) in *.
  destruct (applyDataBorder_shape
              (generateHeight grayData (Params.heightMin params) (Params.heightMax params))
              (Params.top bs) (Params.right bs) (Params.bottom bs) (Params.left bs)
              0 0 0 255) as (D1 & D2 & _).
  rewrite D1, D2. cbn [generateHeight width height]. rewrite G1, G2. done.
Qed.

(** X10.  In the pipeline, the AO map at [aoStrength = 1] is the height map:
    no border is applied to it, and it still carries the black border
    band of the height field it is derived from. *)
Theorem ao_is_height_at_strength_1 `{JsMath} `{Canvas2D} (ctx : Context2D)
    (sourceImage : HTMLImageElement) (params : Params.PBRParams) :
  let d := dimensions (Params.resolution params) in
  let maps := deriveMaps (albedoOf ctx sourceImage d.1 d.2 params) d.1 d.2 params in
  Params.aoStrength params == 1 →
  Rasters.ao maps = Rasters.height maps.
Proof.
  intros d maps Hs.
  pose proof (generateTextures_height_field ctx sourceImage params) as Hhf.
  cbv zeta in Hhf. fold d in Hhf. fold maps in Hhf.
  assert (Hd : 0 ≤ d.1 ∧ 0 ≤ d.2) by (unfold d; by destruct (Params.resolution params)).
  destruct (deriveMaps_height_shape (albedoOf ctx sourceImage d.1 d.2 params)
              d.1 d.2 params) as [S1 S2].
  fold maps in S1, S2.
  change (generateAO (Rasters.height maps) d.1 d.2 (Params.aoStrength params)
          = Rasters.height maps).
  by apply generateAO_identity_on.
Qed.

Lemma ao_is_height_at_strength_1_witness :
  Rasters.ao (deriveMaps (H := refMath)
                (albedoOf (H := refCanvas (λ _, true)) None tt 2048 2048
                          (sampleParams 20 80 4 0 0 0))
                2048 2048 (sampleParams 20 80 4 0 0 0))
  = Rasters.height (deriveMaps (H := refMath)
                (albedoOf (H := refCanvas (λ _, true)) None tt 2048 2048
                          (sampleParams 20 80 4 0 0 0))
                2048 2048 (sampleParams 20 80 4 0 0 0)).
Proof.
  refine (ao_is_height_at_strength_1 (H := refMath) (H0 := refCanvas (λ _, true))
            None tt (sampleParams 20 80 4 0 0 0) _).
  reflexivity.
Defined.

(** ** The normal synthesizer, pixel by pixel *)

Lemma paint_fold_each (w h : Z) (N : nat) (L : list (Z * Z))
    (act : Z → Z → list Z → list Z) (P : Z → Z → Z * Z * Z * Z) :
  paints_each w h N L act P →
  ∀ d, length d = N →
    length (foldl (λ d p, act p.1 p.2 d) d L) = N ∧
    ∀ x' y', 0 ≤ x' < w → 0 ≤ y' < h →
      px w (foldl (λ d p, act p.1 p.2 d) d L) x' y' =
        if decide ((x', y') ∈ L) then Some (P x' y') else px w d x' y'.
Proof.
  induction L as [|[x y] L IH]; intros Hact d Hlen.
  { split; [done|]. intros x' y' _ _. cbn [foldl].
    destruct (decide ((x', y') ∈ [])) as [Hin|_]; [|done].
    by apply elem_of_nil in Hin. }
  destruct (Hact x y d) as [Hl1 Hp1]; [by left|done|].
  destruct (IH (λ x0 y0 d0 Hin, Hact x0 y0 d0 (list_elem_of_further _ _ _ Hin))
               (act x y d) Hl1) as [Hl2 Hp2].
  simpl. split; [done|]. intros x' y' Hx' Hy'.
  rewrite Hp2, Hp1 by done.
  destruct (decide ((x', y') ∈ L)) as [Hin|Hnin].
  - rewrite decide_True; [done|by right].
  - destruct (decide ((x, y) = (x', y'))) as [E|Hne].
    + rewrite decide_True; [by simplify_eq|]. rewrite <- E. by left.
    + rewrite decide_False; [done|]. intros Hin'.
      apply elem_of_cons in Hin' as [E|Hin']; [by apply Hne|by apply Hnin].
Qed.

Lemma normalAt_stores `{JsMath} (src : list Z) (w h : Z) (strength : Q)
    (isDX : bool) (x y : Z) (dst : list Z) :
  normalAt src w h strength isDX x y dst =
    let e := normalEncoding src w h strength isDX x y in
    assign dst [(offset w x y, e.1.1); ((offset w x y + 1)%nat, e.1.2);
                ((offset w x y + 2)%nat, e.2); ((offset w x y + 3)%nat, 255%Q)].
Proof. reflexivity. Qed.

(** Every pixel of the normal map, in terms of the loop body. *)
Lemma generateNormal_pixel `{JsMath} (heightData : ImageData) (w h : Z)
    (strength : Q) (isDX : bool) (x y : Z) :
  0 ≤ x < w → 0 ≤ y < h →
  pixelAt (generateNormal heightData w h strength isDX) x y =
    let e := normalEncoding (data heightData) w h strength isDX x y in
    Some (toUint8Clamp e.1.1, toUint8Clamp e.1.2, toUint8Clamp e.2, 255).
Proof.
  intros Hx Hy. unfold generateNormal, createBuffer, pixelAt.
  cbn [width height data].
  replace (inside w h x y) with true by (symmetry; apply inside_spec; lia).
  rewrite for_rows_visits.
  destruct (paint_fold_each w h (Z.to_nat (w * h * 4)) (visits_rows h w)
              (normalAt (data heightData) w h strength isDX)
              (λ x y, let e := normalEncoding (data heightData) w h strength isDX x y in
                      (toUint8Clamp e.1.1, toUint8Clamp e.1.2, toUint8Clamp e.2, 255)))
    with (d := replicate (Z.to_nat (w * h * 4)) 0) as [_ Hpx].
  - intros x0 y0 d Hin Hlen. apply elem_of_visits_rows in Hin as [Hy0 Hx0].
    rewrite normalAt_stores. cbv zeta.
    pose proof (offset_lt w h x0 y0 Hx0 Hy0) as Hoff.
    split; [by rewrite assign_length|]. intros x' y' Hx' Hy'.
    destruct (decide ((x0, y0) = (x', y'))) as [E|Hne].
    + simplify_eq. rewrite px_assign_same by lia. by rewrite toUint8Clamp_255.
    + apply px_assign_other; try done; lia.
  - apply length_replicate.
  - rewrite Hpx by done. rewrite decide_True; [done|].
    apply elem_of_visits_rows. lia.
Qed.

Lemma clamp_reflect (u : Q) :
  Qmin (Qmax (255 - u) 0) 255 == 255 - Qmin (Qmax u 0) 255.
Proof.
  destruct (Q.max_spec (255 - u) 0) as [[H1 E1]|[H1 E1]];
    destruct (Q.max_spec u 0) as [[H2 E2]|[H2 E2]];
    rewrite E1, E2;
    destruct (Q.min_spec (255 - u) 255) as [[H3 E3]|[H3 E3]];
    destruct (Q.min_spec u 255) as [[H4 E4]|[H4 E4]];
    destruct (Q.min_spec 0 255) as [[H5 E5]|[H5 E5]];
    rewrite ?E3, ?E4, ?E5; lra.
Qed.

Lemma toUint8Clamp_reflect (u : Q) :
  254 ≤ toUint8Clamp u + toUint8Clamp (255 - u) ≤ 256.
Proof.
  pose proof (toUint8Clamp_near u) as H1.
  pose proof (toUint8Clamp_near (255 - u)) as H2.
  cbv zeta in H1, H2. rewrite clamp_reflect in H2.
  set (a := toUint8Clamp u) in *. set (b := toUint8Clamp (255 - u)) in *.
  assert (Hs : (254 <= inject_Z (a + b) <= 256)%Q).
  { rewrite inject_Z_plus. lra. }
  destruct Hs as [Hlo Hhi].
  change 254%Q with (inject_Z 254) in Hlo. change 256%Q with (inject_Z 256) in Hhi.
  rewrite <- Zle_Qle in Hlo, Hhi. lia.
Qed.

(** X11.  For a height raster of the target size, the normal map is defined
    and opaque at every pixel, and the convention touches the green
    channel alone: DX and GL give the same red and blue bytes, and greens
    that mirror each other about the middle, up to the rounding of a
    tie. *)
Theorem generateNormal_convention `{JsMath} (heightData : ImageData) (w h : Z)
    (strength : Q) (x y : Z) :
  well_formed heightData = true →
  width heightData = w → height heightData = h →
  0 ≤ x < w → 0 ≤ y < h →
  ∃ r g g' b,
    pixelAt (generateNormal heightData w h strength true) x y = Some (r, g, b, 255) ∧
    pixelAt (generateNormal heightData w h strength false) x y = Some (r, g', b, 255) ∧
    254 ≤ g + g' ≤ 256.
Proof.
  intros _ _ _ Hx Hy. rewrite !generateNormal_pixel by done.
  unfold normalEncoding. cbv zeta. cbn [negb fst snd].
  eexists _, _, _, _. split; [reflexivity|]. split; [reflexivity|].
  match goal with
  | |- _ ≤ toUint8Clamp (?u * 255) + _ ≤ _ =>
      pose proof (toUint8Clamp_reflect (u * 255)) as Hr;
      assert (E : (1 - u) * 255 == 255 - u * 255) by ring;
      rewrite (toUint8Clamp_comp _ _ E)
  end.
  exact Hr.
Qed.

Lemma generateNormal_convention_witness :
  ∃ r g g' b,
    pixelAt (generateNormal (H := refMath)
               (mkImageData 2 1 [10; 10; 10; 255; 200; 200; 200; 255]) 2 1 (3 # 2) true)
            1 0 = Some (r, g, b, 255) ∧
    pixelAt (generateNormal (H := refMath)
               (mkImageData 2 1 [10; 10; 10; 255; 200; 200; 200; 255]) 2 1 (3 # 2) false)
            1 0 = Some (r, g', b, 255) ∧
    254 ≤ g + g' ≤ 256.
Proof.
  refine (generateNormal_convention (H := refMath)
            (mkImageData 2 1 [10; 10; 10; 255; 200; 200; 200; 255]) 2 1 (3 # 2)
            1 0 _ _ _ _ _); first [reflexivity | lia].
Defined.

(** X12.  A pixel whose neighbours, clamped at the edges of the raster, all
    have its height encodes the normal that points up, under both
    conventions.  [Math.sqrt] is assumed exact on squares. *)
Theorem generateNormal_locally_flat `{M : JsMath} (heightData : ImageData)
    (w h c : Z) (strength : Q) (isDX : bool) (x y : Z) :
  sqrt_exact_on_squares M →
  0 ≤ x < w → 0 ≤ y < h →
  (∀ x' y', Z.max 0 (x - 1) ≤ x' ≤ Z.min (w - 1) (x + 1) →
            Z.max 0 (y - 1) ≤ y' ≤ Z.min (h - 1) (y + 1) →
            data heightData !! offset w x' y' = Some c) →
  pixelAt (generateNormal heightData w h strength isDX) x y =
    Some (128, 128, 255, 255).
Proof.
  intros Hsqrt Hx Hy Hflat. rewrite generateNormal_pixel by done.
  assert (G : ∀ x' y', Z.max 0 (x - 1) ≤ x' ≤ Z.min (w - 1) (x + 1) →
                       Z.max 0 (y - 1) ≤ y' ≤ Z.min (h - 1) (y + 1) →
              get (data heightData) (offset w x' y') = inject_Z c).
  { intros x' y' Hx' Hy'. apply get_lookup. by apply Hflat. }
  unfold normalEncoding. cbv zeta. rewrite !G by lia.
  destruct (flat_components Hsqrt (inject_Z c) strength) as (C1 & C2 & C3).
  cbn [fst snd].
  rewrite (toUint8Clamp_comp _ _ C1), (toUint8Clamp_comp _ _ C3).
  destruct isDX; cbn [negb].
  - by rewrite (toUint8Clamp_comp _ _ C1).
  - by rewrite (toUint8Clamp_comp _ _ C2).
Qed.

Lemma generateNormal_locally_flat_witness :
  pixelAt (generateNormal (H := refMath)
             (mkImageData 3 1 [90; 90; 90; 255; 90; 90; 90; 255; 7; 7; 7; 255])
             3 1 (3 # 2) true) 0 0
  = Some (128, 128, 255, 255).
Proof.
  refine (generateNormal_locally_flat (M := refMath)
            (mkImageData 3 1 [90; 90; 90; 255; 90; 90; 90; 255; 7; 7; 7; 255])
            3 1 90 (3 # 2) true 0 0 refMath_sqrt_ok _ _ _); try lia.
  intros x' y' Hx' Hy'.
  assert (y' = 0) as -> by lia.
  assert (x' = 0 ∨ x' = 1) as [-> | ->] by lia; reflexivity.
Defined.

(** X13.  A border as thick as the raster blanks the relief: when one
    thickness reaches the raster's extent on its axis, the height map is
    0 everywhere and the normal map is the flat normal everywhere.
    [Math.sqrt] is assumed exact on squares. *)
Theorem full_border_flattens `{M : JsMath} `{Canvas2D} (ctx : Context2D)
    (sourceImage : HTMLImageElement) (params : Params.PBRParams) (x y : Z) :
  let d := dimensions (Params.resolution params) in
  let bs := Params.borders params in
  let maps := deriveMaps (albedoOf ctx sourceImage d.1 d.2 params) d.1 d.2 params in
  sqrt_exact_on_squares M →
  d.2 ≤ Params.top bs ∨ d.2 ≤ Params.bottom bs ∨
  d.1 ≤ Params.left bs ∨ d.1 ≤ Params.right bs →
  0 ≤ x < d.1 → 0 ≤ y < d.2 →
  pixelAt (Rasters.height maps) x y = Some (0, 0, 0, 255) ∧
  pixelAt (Rasters.normal maps) x y = Some (128, 128, 255, 255).
Proof.
  intros d bs maps Hsqrt Hfull Hx Hy.
  assert (Hd : 0 ≤ d.1 ∧ 0 ≤ d.2) by (unfold d; by destruct (Params.resolution params)).
  assert (Hband : ∀ x' y', 0 ≤ x' < d.1 → 0 ≤ y' < d.2 →
            pixelAt (Rasters.height maps) x' y' = Some (0, 0, 0, 255)).
  { intros x' y' Hx' Hy'.
    apply (deriveMaps_band (albedoOf ctx sourceImage d.1 d.2 params) d.1 d.2 params);
      try done; try lia.
    unfold in_band. rewrite !orb_true_iff. fold bs. lia. }
  split; [by apply Hband|].
  destruct (deriveMaps_height_shape (albedoOf ctx sourceImage d.1 d.2 params)
              d.1 d.2 params) as [S1 S2].
  fold maps in S1, S2. cbn [albedoOf getImageData width height] in S1, S2.
  change (Rasters.normal maps) with
    (generateNormal (Rasters.height maps) d.1 d.2 (Params.normalStrength params)
                    (NormalMode_eqb (Params.normalMode params) DX)).
  apply (generateNormal_flat_any Hsqrt _ d.1 d.2 0); try done.
  intros x' y' Hx' Hy'. rewrite S1 in Hx' |- *. rewrite S2 in Hy'.
  specialize (Hband x' y' Hx' Hy').
  apply pixelAt_inside in Hband as (_ & _ & Hpx). rewrite S1 in Hpx.
  by apply px_Some in Hpx as (Hr & _).
Qed.

Lemma full_border_flattens_witness :
  pixelAt (Rasters.normal
             (deriveMaps (H := refMath)
                (albedoOf (H := refCanvas (λ _, true)) None tt 2048 2048
                          (sampleParams 20 80 5000 0 0 0))
                2048 2048 (sampleParams 20 80 5000 0 0 0))) 1000 1000
  = Some (128, 128, 255, 255).
Proof.
  refine (proj2 (full_border_flattens (M := refMath) (H := refCanvas (λ _, true))
                   None tt (sampleParams 20 80 5000 0 0 0) 1000 1000
                   refMath_sqrt_ok _ _ _));
    first [cbn; lia | left; cbn; lia].
Defined.

(** ** Every derived raster is well formed *)

Lemma height_field_intro (w h : Z) (d : list Z) :
  0 ≤ w → 0 ≤ h → length d = Z.to_nat (w * h * 4) →
  gray_bytes d → Forall (λ b, 0 ≤ b ≤ 255) d →
  is_height_field (mkImageData w h d) = true.
Proof.
  intros Hw Hh Hlen Hg Hb. unfold is_height_field, well_formed.
  cbn [width height data]. rewrite !andb_true_iff. repeat split; try lia.
  - by apply Nat.eqb_eq.
  - apply forallb_forall. intros z Hz. apply list_elem_of_In in Hz.
    rewrite Forall_forall in Hb. specialize (Hb z Hz). unfold byte. lia.
  - apply (gray_opaque_intro (length d)); [done| |done].
    exists (Z.to_nat (w * h)). nia.
Qed.

Lemma height_field_elim (img : ImageData) :
  is_height_field img = true →
  0 ≤ width img ∧ 0 ≤ height img ∧
  length (data img) = Z.to_nat (width img * height img * 4) ∧
  gray_bytes (data img) ∧ Forall (λ b, 0 ≤ b ≤ 255) (data img).
Proof.
  unfold is_height_field. rewrite andb_true_iff. intros [Hwf Hg].
  apply well_formed_spec in Hwf as (Hw & Hh & Hlen & Hb).
  repeat split; try done.
  - intros j Hj. by apply (gray_opaque_spec (length (data img))).
  - apply Forall_lookup. intros j b Hjb. split; by apply (Hb j).
Qed.

Lemma gray_loop_height_field (w h : Z) (f : nat → list Z → Q) (d0 : list Z) :
  (∀ i d d', (∀ j, (i ≤ j)%nat → d !! j = d' !! j) → f i d = f i d') →
  0 ≤ w → 0 ≤ h → length d0 = Z.to_nat (w * h * 4) →
  is_height_field (mkImageData w h (for_pixels (length d0) (gray_body f) d0)) = true.
Proof.
  intros Hloc Hw Hh Hlen.
  destruct (gray_body_gray_bytes f d0 (Z.to_nat (w * h)) Hloc) as [Hg Hb]; [nia|].
  apply height_field_intro; try done. by rewrite for_pixels_length.
Qed.

Lemma applyDataBorder_height_field (img : ImageData) (t r b l : Z) (v : Q) :
  is_height_field img = true →
  is_height_field (applyDataBorder img t r b l v v v 255) = true.
Proof.
  intros Hhf. apply height_field_elim in Hhf as (Hw & Hh & Hlen & Hg & Hb).
  destruct (applyDataBorder_gray_bytes img t r b l v Hw Hlen Hg Hb) as [Hg' Hb'].
  destruct (applyDataBorder_shape img t r b l v v v 255) as (S1 & S2 & S3).
  destruct (applyDataBorder img t r b l v v v 255) as [w' h' d'].
  cbn [width height data] in *. subst w' h'.
  apply height_field_intro; try done. lia.
Qed.

Lemma assign_bytes (d : list Z) (ws : list (nat * Q)) :
  Forall (λ b, 0 ≤ b ≤ 255) d → Forall (λ b, 0 ≤ b ≤ 255) (assign d ws).
Proof.
  unfold assign. revert d. induction ws as [|[i v] ws IH]; intros d Hd; [done|].
  cbn [foldl]. apply IH. apply Forall_insert; [done|]. apply toUint8Clamp_range.
Qed.

Lemma generateNormal_well_formed `{JsMath} (heightData : ImageData) (w h : Z)
    (strength : Q) (isDX : bool) :
  0 ≤ w → 0 ≤ h →
  well_formed (generateNormal heightData w h strength isDX) = true.
Proof.
  intros Hw Hh. unfold generateNormal, createBuffer. cbn [data].
  rewrite for_rows_visits.
  assert (Hinv : ∀ L d,
    length d = Z.to_nat (w * h * 4) → Forall (λ b, 0 ≤ b ≤ 255) d →
    let d' := foldl (λ a p, normalAt (data heightData) w h strength isDX p.1 p.2 a) d L in
    length d' = Z.to_nat (w * h * 4) ∧ Forall (λ b, 0 ≤ b ≤ 255) d').
  { induction L as [|p L IH]; intros d Hl Hb; [done|]. cbn [foldl].
    apply IH; rewrite normalAt_stores; cbv zeta.
    - by rewrite assign_length.
    - by apply assign_bytes. }
  destruct (Hinv (visits_rows h w) (replicate (Z.to_nat (w * h * 4)) 0)) as [Hl Hb].
  { apply length_replicate. }
  { apply Forall_replicate. lia. }
  unfold well_formed. cbn [width height data].
  rewrite !andb_true_iff. repeat split; try lia.
  - by apply Nat.eqb_eq.
  - apply forallb_forall. intros z Hz. apply list_elem_of_In in Hz.
    rewrite Forall_forall in Hb. specialize (Hb z Hz). unfold byte. lia.
Qed.

(** X14.  Whatever the source image and the parameters, the six rasters the
    pipeline derives have the target dimensions, four bytes a pixel and
    every byte in 0..255; the five maps other than the normal map are gray
    and opaque at every pixel. *)
Theorem derived_rasters_well_formed `{JsMath} `{Canvas2D} (ctx : Context2D)
    (sourceImage : HTMLImageElement) (params : Params.PBRParams) :
  let d := dimensions (Params.resolution params) in
  let maps := deriveMaps (albedoOf ctx sourceImage d.1 d.2 params) d.1 d.2 params in
  Forall (λ r, well_formed r = true ∧ width r = d.1 ∧ height r = d.2)
    [Rasters.normal maps; Rasters.roughness maps; Rasters.metallic maps;
     Rasters.height maps; Rasters.displacement maps; Rasters.ao maps] ∧
  Forall (λ r, gray_opaque (data r) = true)
    [Rasters.roughness maps; Rasters.metallic maps; Rasters.height maps;
     Rasters.displacement maps; Rasters.ao maps].
Proof.
  intros d maps.
  assert (Hd : 0 ≤ d.1 ∧ 0 ≤ d.2) by (unfold d; by destruct (Params.resolution params)).
  pose proof (generateTextures_height_field ctx sourceImage params) as Hhf.
  cbv zeta in Hhf. fold d in Hhf. fold maps in Hhf.
  destruct (deriveMaps_height_shape (albedoOf ctx sourceImage d.1 d.2 params)
              d.1 d.2 params) as [S1 S2].
  fold maps in S1, S2. cbn [albedoOf getImageData width height] in S1, S2.
  set (heightData := Rasters.height maps) in *.
  set (bs := Params.borders params).
  set (t := Params.top bs). set (r := Params.right bs).
  set (b := Params.bottom bs). set (l := Params.left bs).
  pose proof (height_field_elim _ Hhf) as (_ & _ & Hlen & _ & _).
  rewrite S1, S2 in Hlen.
  (* the five gray maps are height fields *)
  assert (Hdisp : is_height_field (Rasters.displacement maps) = true).
  { change (Rasters.displacement maps) with
      (applyDataBorder
         (generateDisplacement heightData (Params.displacementStrength params))
         t r b l 0 0 0 255).
    apply applyDataBorder_height_field.
    unfold generateDisplacement, createBuffer. cbn [width height data].
    rewrite S1, S2.
    apply (gray_loop_height_field d.1 d.2
             (λ i d0, Qmax 0 (Qmin 255 ((get d0 i - 128)
                                        * Params.displacementStrength params + 128))));
      try done; try lia.
    apply displacement_local. }
  assert (Hrough : is_height_field (Rasters.roughness maps) = true).
  { change (Rasters.roughness maps) with
      (applyDataBorder (generateRoughness heightData (Params.roughness params))
                       t r b l 255 255 255 255).
    apply applyDataBorder_height_field.
    unfold generateRoughness, createBuffer. cbn [width height data].
    rewrite S1, S2, Hlen.
    rewrite <- (length_replicate (Z.to_nat (d.1 * d.2 * 4)) 0) at 1.
    apply (gray_loop_height_field d.1 d.2
             (λ i _, Qmax 0 (Qmin 255 (255 - get (data heightData) i
                                       + Params.roughness params * (3 # 2)))));
      try done; try lia.
    apply length_replicate. }
  assert (Hmetal : is_height_field (Rasters.metallic maps) = true).
  { change (Rasters.metallic maps) with
      (applyDataBorder (generateMetallic d.1 d.2 (Params.metallic params))
                       t r b l 0 0 0 255).
    apply applyDataBorder_height_field.
    unfold generateMetallic, createBuffer. cbn [width height data].
    apply (gray_loop_height_field d.1 d.2
             (λ _ _, inject_Z (Qfloor (round64 (Params.metallic params * 255)))));
      try done; try lia.
    apply length_replicate. }
  assert (Hao : is_height_field (Rasters.ao maps) = true).
  { change (Rasters.ao maps) with
      (generateAO heightData d.1 d.2 (Params.aoStrength params)).
    unfold generateAO, createBuffer. cbn [width height data].
    rewrite Hlen.
    rewrite <- (length_replicate (Z.to_nat (d.1 * d.2 * 4)) 0) at 1.
    apply (gray_loop_height_field d.1 d.2); try done; try lia.
    apply length_replicate. }
  assert (Hshape : ∀ img v, width (applyDataBorder img t r b l v v v 255) = width img ∧
                           height (applyDataBorder img t r b l v v v 255) = height img).
  { intros img v. destruct (applyDataBorder_shape img t r b l v v v 255) as (A & B & _).
    done. }
  assert (Hwf : ∀ img, is_height_field img = true → well_formed img = true).
  { intros img Hi. unfold is_height_field in Hi. by apply andb_true_iff in Hi as [? _]. }
  assert (Hgo : ∀ img, is_height_field img = true → gray_opaque (data img) = true).
  { intros img Hi. unfold is_height_field in Hi. by apply andb_true_iff in Hi as [_ ?]. }
  assert (Rn : well_formed (Rasters.normal maps) = true ∧
               width (Rasters.normal maps) = d.1 ∧ height (Rasters.normal maps) = d.2).
  { split; [|done]. apply generateNormal_well_formed; lia. }
  assert (Rr : well_formed (Rasters.roughness maps) = true ∧
               width (Rasters.roughness maps) = d.1 ∧
               height (Rasters.roughness maps) = d.2).
  { split; [by apply Hwf|].
    change (Rasters.roughness maps) with
      (applyDataBorder (generateRoughness heightData (Params.roughness params))
                       t r b l 255 255 255 255).
    destruct (Hshape (generateRoughness heightData (Params.roughness params)) 255%Q)
      as [-> ->]. done. }
  assert (Rm : well_formed (Rasters.metallic maps) = true ∧
               width (Rasters.metallic maps) = d.1 ∧
               height (Rasters.metallic maps) = d.2).
  { split; [by apply Hwf|].
    change (Rasters.metallic maps) with
      (applyDataBorder (generateMetallic d.1 d.2 (Params.metallic params))
                       t r b l 0 0 0 255).
    destruct (Hshape (generateMetallic d.1 d.2 (Params.metallic params)) 0%Q)
      as [-> ->]. done. }
  assert (Rh : well_formed heightData = true ∧
               width heightData = d.1 ∧ height heightData = d.2).
  { split; [by apply Hwf|done]. }
  assert (Rd : well_formed (Rasters.displacement maps) = true ∧
               width (Rasters.displacement maps) = d.1 ∧
               height (Rasters.displacement maps) = d.2).
  { split; [by apply Hwf|].
    change (Rasters.displacement maps) with
      (applyDataBorder
         (generateDisplacement heightData (Params.displacementStrength params))
         t r b l 0 0 0 255).
    destruct (Hshape (generateDisplacement heightData
                        (Params.displacementStrength params)) 0%Q) as [-> ->].
    done. }
  assert (Ra : well_formed (Rasters.ao maps) = true ∧
               width (Rasters.ao maps) = d.1 ∧ height (Rasters.ao maps) = d.2).
  { split; [by apply Hwf|done]. }
  split.
  - rewrite !Forall_cons, Forall_nil. tauto.
  - rewrite !Forall_cons, Forall_nil.
    pose proof (Hgo _ Hrough). pose proof (Hgo _ Hmetal). pose proof (Hgo _ Hhf).
    pose proof (Hgo _ Hdisp). pose proof (Hgo _ Hao). tauto.
Qed.

(** ** The data border: edge cases and composition *)

(** Two rasters of whole pixels with the same pixels are the same. *)
Lemma raster_ext (img img' : ImageData) :
  0 ≤ width img →
  width img' = width img → height img' = height img →
  length (data img) = Z.to_nat (width img * height img * 4) →
  length (data img') = Z.to_nat (width img * height img * 4) →
  (∀ x y, 0 ≤ x < width img → 0 ≤ y < height img →
          pixelAt img' x y = pixelAt img x y) →
  img' = img.
Proof.
  destruct img as [w h d], img' as [w' h' d']. cbn [width height data].
  intros Hw -> -> Hl Hl' Hpx. f_equal. apply list_eq. intros j.
  destruct (decide (j < length d)%nat) as [Hlt|Hge].
  2:{ rewrite !lookup_ge_None_2; [done|lia|lia]. }
  assert (Hprod : 0 < w * h * 4) by lia.
  assert (Hwpos : 0 < w).
  { destruct (Z.eq_dec w 0) as [->|]; lia. }
  assert (Hhpos : 0 < h) by nia.
  pose proof (Nat.div_mod_eq j 4) as Hdm.
  pose proof (Nat.mod_upper_bound j 4 ltac:(lia)) as Hmod.
  set (k := Z.of_nat (j `div` 4)).
  assert (Hk : 0 ≤ k < w * h) by (unfold k; lia).
  set (x := k `mod` w). set (y := k `div` w).
  assert (Hx : 0 ≤ x < w) by (unfold x; apply Z.mod_pos_bound; lia).
  assert (Hy : 0 ≤ y < h).
  { unfold y. split; [apply Z.div_pos; lia|]. apply Z.div_lt_upper_bound; lia. }
  assert (Hoff : offset w x y = (4 * (j `div` 4))%nat).
  { rewrite offset_mul4 by lia. f_equal.
    replace (y * w + x) with k; [unfold k; lia|].
    unfold x, y. rewrite Z.mul_comm. apply Z.div_mod. lia. }
  specialize (Hpx x y Hx Hy). unfold pixelAt in Hpx. cbn [width height data] in Hpx.
  replace (inside w h x y) with true in Hpx by (symmetry; apply inside_spec; lia).
  pose proof (offset_lt w h x y Hx Hy) as Hob.
  destruct (lookup_lt_is_Some_2 d (offset w x y) ltac:(lia)) as [r Hr].
  destruct (lookup_lt_is_Some_2 d (offset w x y + 1) ltac:(lia)) as [g Hg].
  destruct (lookup_lt_is_Some_2 d (offset w x y + 2) ltac:(lia)) as [b Hb].
  destruct (lookup_lt_is_Some_2 d (offset w x y + 3) ltac:(lia)) as [a Ha].
  assert (Hd : px w d x y = Some (r, g, b, a)) by (by apply px_Some).
  rewrite Hd in Hpx. apply px_Some in Hpx as (Hr' & Hg' & Hb' & Ha').
  assert (Hj : ∃ c, (c < 4)%nat ∧ j = (offset w x y + c)%nat)
    by (exists (j `mod` 4)%nat; lia).
  destruct Hj as (c & Hc & Ej). rewrite Ej.
  destruct c as [|[|[|[|c]]]]; try lia.
  - rewrite Nat.add_0_r. congruence.
  - congruence.
  - congruence.
  - congruence.
Qed.

(** X15.  [applyDataBorder] is idempotent: a second pass with the same
    thicknesses and colour changes nothing. *)
Theorem applyDataBorder_idempotent (img : ImageData) (t r b l : Z)
    (red green blue alpha : Q) :
  well_formed img = true →
  let out := applyDataBorder img t r b l red green blue alpha in
  applyDataBorder out t r b l red green blue alpha = out.
Proof.
  intros Hwf out.
  apply well_formed_spec in Hwf as (Hw & Hh & Hlen & _).
  destruct (applyDataBorder_shape img t r b l red green blue alpha) as (S1 & S2 & S3).
  fold out in S1, S2, S3.
  destruct (applyDataBorder_shape out t r b l red green blue alpha) as (T1 & T2 & T3).
  apply raster_ext; rewrite ?S1, ?S2; try lia.
  intros x y Hx Hy.
  rewrite (applyDataBorder_pixel out) by (rewrite ?S1, ?S2; lia).
  rewrite S1, S2.
  destruct (in_band _ _ t r b l x y) eqn:E; [|done].
  unfold out. rewrite applyDataBorder_pixel by done. by rewrite E.
Qed.

Lemma applyDataBorder_idempotent_witness :
  applyDataBorder (applyDataBorder (mkImageData 2 2 (replicate 16 7)) 1 0 0 1 0 0 0 255)
                  1 0 0 1 0 0 0 255
  = applyDataBorder (mkImageData 2 2 (replicate 16 7)) 1 0 0 1 0 0 0 255.
Proof.
  refine (applyDataBorder_idempotent (mkImageData 2 2 (replicate 16 7))
            1 0 0 1 0 0 0 255 _).
  reflexivity.
Defined.

(** X16.  A negative thickness acts as 0, in the data border and in the visual
    border alike. *)
Theorem border_negative_is_zero `{Canvas2D} (img : ImageData) (ctx : Context2D)
    (w h t r b l : Z) (red green blue alpha : Q) (color : string) :
  applyDataBorder img t r b l red green blue alpha =
    applyDataBorder img (Z.max 0 t) (Z.max 0 r) (Z.max 0 b) (Z.max 0 l)
                    red green blue alpha ∧
  applyVisualBorder ctx w h t r b l color =
    applyVisualBorder ctx w h (Z.max 0 t) (Z.max 0 r) (Z.max 0 b) (Z.max 0 l) color.
Proof.
  unfold applyDataBorder, applyVisualBorder, border_loops.
  destruct (Z.max_spec 0 t) as [[Ht ->]|[Ht ->]];
    destruct (Z.max_spec 0 r) as [[Hr ->]|[Hr ->]];
    destruct (Z.max_spec 0 b) as [[Hb ->]|[Hb ->]];
    destruct (Z.max_spec 0 l) as [[Hl ->]|[Hl ->]];
    repeat match goal with
    | H : ?v ≤ 0 |- _ =>
        replace (v <=? 0) with true by (symmetry; apply Z.leb_le; lia);
        replace (0 <? v) with false by (symmetry; apply Z.ltb_ge; lia);
        clear H
    end;
    split; reflexivity.
Qed.

(** ** Where the canvas steps draw *)

Lemma Qle_bool_inject_Z (a b : Z) : Qle_bool (inject_Z a) (inject_Z b) = (a <=? b).
Proof.
  apply eq_true_iff_eq. rewrite Qle_bool_iff, Z.leb_le, <- Zle_Qle. done.
Qed.

Lemma fills_rect (style : string) (x y rx ry rw rh : Z) :
  fills style x y (FillRect style (inject_Z rx) (inject_Z ry) (inject_Z rw) (inject_Z rh))
  = (rx <=? x) && (x + 1 <=? rx + rw) && (ry <=? y) && (y + 1 <=? ry + rh).
Proof.
  unfold fills. rewrite String.eqb_refl. cbn [andb].
  rewrite !Qle_bool_inject_Z.
  assert (E : ∀ a b c : Z, Qle_bool (inject_Z a + 1) (inject_Z b + inject_Z c)
                           = (a + 1 <=? b + c)).
  { intros a b0 c. apply eq_true_iff_eq.
    rewrite Qle_bool_iff, Z.leb_le.
    change 1%Q with (inject_Z 1). rewrite <- !inject_Z_plus, <- Zle_Qle. done. }
  by rewrite !E.
Qed.

(** X17.  The visual border and the data border cover the same pixels: a pixel
    of the raster is filled with the border colour by [applyVisualBorder]
    exactly when it lies in the band that [applyDataBorder] forces. *)
Theorem visual_border_is_the_band (w h t r b l : Z) (color : string) (x y : Z) :
  0 ≤ x < w → 0 ≤ y < h →
  existsb (fills color x y)
          (applyVisualBorder (H := traceCanvas) [] w h t r b l color)
  = in_band w h t r b l x y.
Proof.
  intros Hx Hy. unfold applyVisualBorder, in_band.
  change (@fillRect traceCanvas)
    with (λ style x y w h (ctx : list DrawCall), ctx ++ [FillRect style x y w h]).
  cbv beta. change 0%Q with (inject_Z 0).
  destruct (Z.leb_spec t 0), (Z.leb_spec r 0), (Z.leb_spec b 0), (Z.leb_spec l 0);
    cbn [andb];
    destruct (Z.ltb_spec 0 t), (Z.ltb_spec 0 r), (Z.ltb_spec 0 b), (Z.ltb_spec 0 l);
    try lia;
    rewrite ?existsb_app; cbn [existsb app]; rewrite ?fills_rect;
    apply eq_true_iff_eq;
    rewrite ?orb_true_iff, ?andb_true_iff, ?orb_false_r;
    rewrite ?orb_true_iff, ?andb_true_iff;
    rewrite ?Z.leb_le, ?Z.ltb_lt; try lia; split; try lia; try discriminate.
Qed.

Lemma visual_border_is_the_band_witness :
  existsb (fills "#808080" 0 5)
          (applyVisualBorder (H := traceCanvas) [] 8 8 0 0 0 2 "#808080")
  = in_band 8 8 0 0 0 2 0 5.
Proof.
  refine (visual_border_is_the_band 8 8 0 0 0 2 "#808080" 0 5 _ _); lia.
Defined.

(** One side of the cover: the drawn extent [round64 (i * ratio)] against
    the canvas extent [c], for a ratio at least the rounded [c / i]. *)
Lemma cover_side (c i ratio : Q) :
  (0 < c)%Q → (0 < i)%Q → (round64 (c / i) <= ratio)%Q →
  (c * (1 - 2 ^ (-51)) <= round64 (i * ratio))%Q ∧
  (ratio == round64 (c / i) → round64 (i * ratio) <= c * (1 + 2 ^ (-51)))%Q.
Proof.
  intros Hc Hi Hr. destruct eps_facts as (E0 & E1 & E2). rewrite E2.
  set (e := (2 ^ (-53))%Q) in *.
  assert (Ha : (0 < c / i)%Q) by (apply Qlt_shift_div_l; lra).
  assert (Ea : (i * (c / i) == c)%Q) by (field; lra).
  destruct (round64_pos _ Ha) as [L1 U1]. fold e in L1, U1.
  set (a := (c / i)%Q) in *. set (ra := round64 a) in *.
  assert (Hra : (0 < ra)%Q) by nra.
  assert (Hir : (0 < i * ratio)%Q) by nra.
  destruct (round64_pos _ Hir) as [L2 U2]. fold e in L2, U2.
  set (d := round64 (i * ratio)) in *.
  assert (M1 : (i * ra <= i * ratio)%Q) by nra.
  assert (M2 : (c * (1 - e) <= i * ra)%Q) by nra.
  assert (M3 : (i * ra <= c * (1 + e))%Q) by nra.
  split.
  - set (p := (i * ratio)%Q) in *. set (p' := (i * ra)%Q) in *. nra.
  - intros Er. assert (M4 : (i * ratio == i * ra)%Q) by (rewrite Er; reflexivity).
    set (p := (i * ratio)%Q) in *. set (p' := (i * ra)%Q) in *. nra.
Qed.

(** X18.  [drawCover] paints the canvas black and then draws the whole image
    into a rectangle that covers the canvas up to the rounding of the
    doubles (a relative [2^-51]): each side of the rectangle is at least
    the side of the canvas, one of them is at most that side, the
    rectangle is centred on the canvas and keeps the aspect ratio of the
    image, all within that margin. *)
Theorem drawCover_covers `{Canvas2D} (ctx : Context2D) (img : HTMLImageElement)
    (w h : Z) :
  (0 < img_width img)%Q → (0 < img_height img)%Q → 0 < w → 0 < h →
  ∃ cx cy dw dh : Q,
    drawCover ctx img w h =
      drawImage img 0 0 (img_width img) (img_height img) cx cy dw dh
                (fillRect "#000000" 0 0 (inject_Z w) (inject_Z h) ctx) ∧
    (inject_Z w * (1 - 2 ^ (-51)) <= dw)%Q ∧
    (inject_Z h * (1 - 2 ^ (-51)) <= dh)%Q ∧
    ((dw <= inject_Z w * (1 + 2 ^ (-51)))%Q ∨ (dh <= inject_Z h * (1 + 2 ^ (-51)))%Q) ∧
    (Qabs (cx + cx + dw - inject_Z w) <= 2 ^ (-51) * Qabs (inject_Z w - dw))%Q ∧
    (Qabs (cy + cy + dh - inject_Z h) <= 2 ^ (-51) * Qabs (inject_Z h - dh))%Q ∧
    (Qabs (dw * img_height img - dh * img_width img)
       <= 2 ^ (-51) * (dw * img_height img))%Q.
Proof.
  intros Hiw Hih Hw Hh. unfold drawCover. cbv zeta.
  set (iw := img_width img) in *. set (ih := img_height img) in *.
  assert (HW : (0 < inject_Z w)%Q) by (change 0%Q with (inject_Z 0); rewrite <- Zlt_Qlt; lia).
  assert (HH : (0 < inject_Z h)%Q) by (change 0%Q with (inject_Z 0); rewrite <- Zlt_Qlt; lia).
  set (W := inject_Z w) in *. set (Hq := inject_Z h) in *.
  set (ratio := Qmax (round64 (W / iw)) (round64 (Hq / ih))).
  eexists _, _, _, _. split; [reflexivity|].
  assert (L1 : (round64 (W / iw) <= ratio)%Q) by apply Q.le_max_l.
  assert (L2 : (round64 (Hq / ih) <= ratio)%Q) by apply Q.le_max_r.
  destruct (cover_side W iw ratio HW Hiw L1) as [C1 D1].
  destruct (cover_side Hq ih ratio HH Hih L2) as [C2 D2].
  split; [exact C1|]. split; [exact C2|]. split; [|split; [|split]].
  - destruct (Q.max_dec (round64 (W / iw)) (round64 (Hq / ih))) as [E|E];
      fold ratio in E; [left; by apply D1|right; by apply D2].
  - pose proof (halved_error (W - round64 (iw * ratio))) as Hc. cbv zeta in Hc.
    set (cx := round64 (round64 (W - round64 (iw * ratio)) / 2)) in *.
    set (dw := round64 (iw * ratio)) in *.
    assert (E : cx + cx + dw - W == cx + cx - (W - dw)) by ring.
    by rewrite E.
  - pose proof (halved_error (Hq - round64 (ih * ratio))) as Hc. cbv zeta in Hc.
    set (cy := round64 (round64 (Hq - round64 (ih * ratio)) / 2)) in *.
    set (dh := round64 (ih * ratio)) in *.
    assert (E : cy + cy + dh - Hq == cy + cy - (Hq - dh)) by ring.
    by rewrite E.
  - destruct eps_facts as (E0 & E1 & E2). rewrite E2.
    set (e := (2 ^ (-53))%Q) in *.
    assert (Hr : (0 < ratio)%Q).
    { assert (Ha : (0 < W / iw)%Q) by (apply Qlt_shift_div_l; lra).
      destruct (round64_pos _ Ha) as [La _]. fold e in La.
      set (a := (W / iw)%Q) in *. nra. }
    assert (P1 : (0 < iw * ratio)%Q) by nra.
    assert (P2 : (0 < ih * ratio)%Q) by nra.
    destruct (round64_pos _ P1) as [A1 A2]. destruct (round64_pos _ P2) as [B1 B2].
    fold e in A1, A2, B1, B2.
    set (dw := round64 (iw * ratio)) in *. set (dh := round64 (ih * ratio)) in *.
    set (P := (iw * ih * ratio)%Q).
    assert (HP : (0 < P)%Q) by (unfold P; nra).
    assert (X1 : (P * (1 - e) <= dw * ih)%Q) by (unfold P; nra).
    assert (X2 : (dw * ih <= P * (1 + e))%Q) by (unfold P; nra).
    assert (Y1 : (P * (1 - e) <= dh * iw)%Q) by (unfold P; nra).
    assert (Y2 : (dh * iw <= P * (1 + e))%Q) by (unfold P; nra).
    set (x := (dw * ih)%Q) in *. set (y := (dh * iw)%Q) in *.
    apply Qabs_Qle_condition. split; nra.
Qed.

Lemma drawCover_covers_witness :
  ∃ cx cy dw dh : Q,
    drawCover (H := traceCanvas) [] (49, 100)%Q 2048 2048 =
      drawImage (Canvas2D := traceCanvas) (49, 100)%Q 0 0 49 100 cx cy dw dh
                (fillRect (Canvas2D := traceCanvas) "#000000" 0 0
                          (inject_Z 2048) (inject_Z 2048) []) ∧
    (inject_Z 2048 * (1 - 2 ^ (-51)) <= dw)%Q ∧
    (inject_Z 2048 * (1 - 2 ^ (-51)) <= dh)%Q ∧
    ((dw <= inject_Z 2048 * (1 + 2 ^ (-51)))%Q ∨
     (dh <= inject_Z 2048 * (1 + 2 ^ (-51)))%Q) ∧
    (Qabs (cx + cx + dw - inject_Z 2048) <= 2 ^ (-51) * Qabs (inject_Z 2048 - dw))%Q ∧
    (Qabs (cy + cy + dh - inject_Z 2048) <= 2 ^ (-51) * Qabs (inject_Z 2048 - dh))%Q ∧
    (Qabs (dw * 100 - dh * 49) <= 2 ^ (-51) * (dw * 100))%Q.
Proof.
  refine (drawCover_covers (H := traceCanvas) [] (49, 100)%Q 2048 2048 _ _ _ _);
    reflexivity.
Defined.

(** * Properties of the component *)

Lemma run_snoc (events : list App.Event) (e : App.Event) :
  App.run (events ++ [e]) = App.handle e (App.run events).
Proof. unfold App.run. by rewrite foldl_app. Qed.

Lemma run_invariant (P : Params.PBRParams → Prop) (events : list App.Event) :
  P App.DEFAULT_PARAMS →
  (∀ e params, e ∈ events → P params → P (App.handle e params)) →
  P (App.run events).
Proof.
  intros H0 Hstep. induction events as [|e events IH] using rev_ind; [done|].
  rewrite run_snoc. apply Hstep; [apply elem_of_app; right; apply list_elem_of_here|].
  apply IH. intros e' p' He'. apply Hstep. apply elem_of_app. by left.
Qed.

Lemma Qltb_spec (x y : Q) : App.Qltb x y = true ↔ (x < y)%Q.
Proof.
  unfold App.Qltb. rewrite negb_true_iff. split.
  - intros E. apply Qnot_le_lt. intros L. apply Qle_bool_iff in L. congruence.
  - intros L. destruct (Qle_bool y x) eqn:E; [|done].
    apply Qle_bool_iff in E. lra.
Qed.

Lemma updateParam_heights (kv : App.ParamUpdate) (params : Params.PBRParams) :
  match kv with
  | App.heightMin _ | App.heightMax _ => True
  | _ => Params.heightMin (App.updateParam kv params) = Params.heightMin params ∧
         Params.heightMax (App.updateParam kv params) = Params.heightMax params
  end.
Proof. by destruct params, kv. Qed.

Lemma updateBorder_heights (key : App.BorderKey) (value : App.BorderValue)
    (params p' : Params.PBRParams) :
  App.updateBorder key value params = Some p' →
  Params.heightMin p' = Params.heightMin params ∧
  Params.heightMax p' = Params.heightMax params.
Proof.
  unfold App.updateBorder. destruct params as [? ? ? ? ? ? ? ? ? [t b l r lk c]].
  cbn. destruct key, value, lk; intros [= <-]; done.
Qed.

(** X19. The height window never closes.  From the initial parameters,
    after any sequence of the component's events (slider moves with any
    integer value, resets, border edits, ...), [heightMin < heightMax]
    holds: the two sliders refuse a value that would cross the other
    bound, and the resets restore the pair 20, 80. *)
Theorem height_window_invariant (events : list App.Event) :
  (Params.heightMin (App.run events) < Params.heightMax (App.run events))%Q.
Proof.
  apply (run_invariant (λ p, (Params.heightMin p < Params.heightMax p)%Q));
    [reflexivity|].
  intros e params _ I.
  assert (B : ∀ key value,
    (Params.heightMin (default params (App.updateBorder key value params))
     < Params.heightMax (default params (App.updateBorder key value params)))%Q).
  { intros key value. destruct (App.updateBorder key value params) as [p'|] eqn:E;
      [|exact I].
    apply updateBorder_heights in E as [E1 E2]. simpl. by rewrite E1, E2. }
  destruct e; cbn [App.handle]; try apply B; try reflexivity;
    try (destruct params; exact I).
  - by destruct params.
  - unfold App.onHeightMin.
    destruct (App.Qltb _ _) eqn:E; [|exact I].
    apply Qltb_spec in E. by destruct params.
  - unfold App.onHeightMax.
    destruct (App.Qltb _ _) eqn:E; [|exact I].
    apply Qltb_spec in E. by destruct params.
Qed.

(** X20. While the link toggle is not used, the four border thicknesses
    stay equal: after any sequence of events without [ToggleLinked], from
    the initial parameters, the borders are linked and
    [top = bottom = left = right]. *)
Theorem linked_borders_stay_equal (events : list App.Event) :
  App.ToggleLinked ∉ events →
  let bs := Params.borders (App.run events) in
  Params.linked bs = true ∧
  Params.bottom bs = Params.top bs ∧ Params.left bs = Params.top bs ∧
  Params.right bs = Params.top bs.
Proof.
  intros Hno bs. subst bs.
  apply (run_invariant (λ p,
    Params.linked (Params.borders p) = true ∧
    Params.bottom (Params.borders p) = Params.top (Params.borders p) ∧
    Params.left (Params.borders p) = Params.top (Params.borders p) ∧
    Params.right (Params.borders p) = Params.top (Params.borders p))); [done|].
  intros e params He I.
  destruct params as [? ? ? ? ? ? ? ? ? [t b l r lk c]]. cbn in I.
  destruct I as (-> & -> & -> & ->).
  destruct e; try done.
  - cbn. unfold App.onHeightMin. by destruct (App.Qltb _ _).
  - cbn. unfold App.onHeightMax. by destruct (App.Qltb _ _).
Qed.

Lemma linked_borders_stay_equal_witness :
  (App.ToggleLinked ∉ [App.EditTop 12; App.SlideHeightMin 30; App.EditLeft 7]) ∧
  (let bs := Params.borders
               (App.run [App.EditTop 12; App.SlideHeightMin 30; App.EditLeft 7]) in
   Params.linked bs = true ∧
   Params.bottom bs = Params.top bs ∧ Params.left bs = Params.top bs ∧
   Params.right bs = Params.top bs).
Proof.
  assert (N : App.ToggleLinked ∉ [App.EditTop 12; App.SlideHeightMin 30; App.EditLeft 7]).
  { rewrite !not_elem_of_cons. repeat split; try discriminate. apply not_elem_of_nil. }
  split; [exact N|].
  exact (linked_borders_stay_equal
           [App.EditTop 12; App.SlideHeightMin 30; App.EditLeft 7] N).
Defined.

(** X21. A number typed into a border field.  For a side key and any
    integer, [updateBorder] stores the number under that key; the other
    three sides receive the same number when the borders are linked and
    keep their values when they are not; the link flag, the colour and
    every parameter outside the borders are unchanged. *)
Theorem updateBorder_number (key : App.BorderKey) (n : Z)
    (prev : Params.PBRParams) :
  is_Some (App.side key (Params.borders prev)) →
  ∃ p', App.updateBorder key (App.Num n) prev = Some p' ∧
    App.side key (Params.borders p') = Some n ∧
    (∀ k, k ≠ key → is_Some (App.side k (Params.borders prev)) →
       App.side k (Params.borders p') =
         if Params.linked (Params.borders prev) then Some n
         else App.side k (Params.borders prev)) ∧
    Params.linked (Params.borders p') = Params.linked (Params.borders prev) ∧
    Params.color (Params.borders p') = Params.color (Params.borders prev) ∧
    App.updateParam (App.borders (Params.borders prev)) p' = prev.
Proof.
  destruct prev as [? ? ? ? ? ? ? ? ? [t b l r lk c]].
  intros [z Hz]. unfold App.updateBorder. cbn [Params.borders].
  destruct key; try discriminate; destruct lk; cbn;
    (eexists; split; [reflexivity|]; cbn; repeat split; try done;
     intros k Hk [z' Hz']; by destruct k).
Qed.

Lemma updateBorder_number_witness :
  is_Some (App.side App.Left (Params.borders (sampleParams 20 80 1 2 3 4))) ∧
  ∃ p', App.updateBorder App.Left (App.Num 9) (sampleParams 20 80 1 2 3 4) = Some p' ∧
    App.side App.Left (Params.borders p') = Some 9 ∧
    (∀ k, k ≠ App.Left →
       is_Some (App.side k (Params.borders (sampleParams 20 80 1 2 3 4))) →
       App.side k (Params.borders p') =
         if Params.linked (Params.borders (sampleParams 20 80 1 2 3 4)) then Some 9
         else App.side k (Params.borders (sampleParams 20 80 1 2 3 4))) ∧
    Params.linked (Params.borders p') =
      Params.linked (Params.borders (sampleParams 20 80 1 2 3 4)) ∧
    Params.color (Params.borders p') =
      Params.color (Params.borders (sampleParams 20 80 1 2 3 4)) ∧
    App.updateParam (App.borders (Params.borders (sampleParams 20 80 1 2 3 4))) p' =
      sampleParams 20 80 1 2 3 4.
Proof.
  assert (S : is_Some (App.side App.Left (Params.borders (sampleParams 20 80 1 2 3 4))))
    by (eexists; reflexivity).
  split; [exact S|].
  exact (updateBorder_number App.Left 9 (sampleParams 20 80 1 2 3 4) S).
Defined.

Lemma map_fixed {A} (f : A → A) (l : list A) :
  (∀ x, f (f x) = f x) → f <$> (f <$> l) = f <$> l.
Proof.
  intros Hf. rewrite <- list_fmap_compose. apply list_fmap_ext. intros _ x _. apply Hf.
Qed.

Lemma name_unit_not_space (c : N) :
  Archive.isUpper c || Archive.isLower c || Archive.isDigit c
    || (c =? Archive.underscore)%N || (c =? Archive.hyphen)%N = true →
  Archive.isWhiteSpace c = false.
Proof.
  intros E. unfold Archive.isWhiteSpace. apply bool_decide_eq_false. intros Hin.
  repeat (apply elem_of_cons in Hin as [->|Hin]; [by vm_compute in E|]).
  by apply elem_of_nil in Hin.
Qed.

Lemma trim_no_space (s : Archive.JsString) :
  Forall (λ c, Archive.isWhiteSpace c = false) s → Archive.trim s = s.
Proof.
  assert (T : ∀ l, Forall (λ c, Archive.isWhiteSpace c = false) l →
                   Archive.trimStart l = l).
  { intros [|c l]; [done|]. intros F. apply Forall_cons in F as [E _].
    cbn. by rewrite E. }
  intros F. unfold Archive.trim. rewrite (T s F).
  rewrite T by by apply Forall_reverse. apply reverse_involutive.
Qed.

(** X22. The name field.  Whatever is typed or pasted, the stored
    material name has the same number of code units, holds only ASCII
    letters, digits, underscores and hyphens, is left unchanged by a
    second pass through the handler and by [trim]: the blank-name guard of
    the download therefore fires exactly on the empty name. *)
Theorem onNameChange_safe (value : Archive.JsString) :
  let name := Archive.onNameChange value in
  length name = length value ∧
  Forall (λ c, Archive.isUpper c || Archive.isLower c || Archive.isDigit c
               || (c =? Archive.underscore)%N || (c =? Archive.hyphen)%N = true) name ∧
  Archive.onNameChange name = name ∧
  Archive.trim name = name ∧
  (Archive.trim name = [] ↔ value = []).
Proof.
  intros name.
  assert (F : Forall (λ c, Archive.isUpper c || Archive.isLower c || Archive.isDigit c
               || (c =? Archive.underscore)%N || (c =? Archive.hyphen)%N = true) name).
  { subst name. unfold Archive.onNameChange. apply Forall_fmap, Forall_true.
    intros c. simpl.
    destruct (Archive.isUpper c || Archive.isLower c || Archive.isDigit c
              || (c =? Archive.underscore)%N || (c =? Archive.hyphen)%N) eqn:E;
      [exact E|reflexivity]. }
  assert (T : Archive.trim name = name).
  { apply trim_no_space. eapply Forall_impl; [exact F|]. apply name_unit_not_space. }
  split; [apply length_fmap|]. split; [exact F|]. split; [|split; [exact T|]].
  - subst name. unfold Archive.onNameChange. apply map_fixed. intros c.
    destruct (Archive.isUpper c || Archive.isLower c || Archive.isDigit c
              || (c =? Archive.underscore)%N || (c =? Archive.hyphen)%N) eqn:E;
      [by rewrite E|reflexivity].
  - rewrite T. subst name. unfold Archive.onNameChange. by destruct value.
Qed.

(** X23. The file-name stem.  [cleanName] keeps the number of code units
    and leaves only ASCII letters, digits and underscores; it is
    idempotent, and on a name that went through the name field it differs
    from the name only by hyphens turned into underscores: cleaning the
    raw text and cleaning the stored name give the same stem. *)
Theorem cleanName_safe (s : Archive.JsString) :
  length (Archive.cleanName s) = length s ∧
  Forall (λ c, Archive.isLower c || Archive.isUpper c || Archive.isDigit c
               || (c =? Archive.underscore)%N = true) (Archive.cleanName s) ∧
  Archive.cleanName (Archive.cleanName s) = Archive.cleanName s ∧
  Archive.cleanName (Archive.onNameChange s) = Archive.cleanName s ∧
  Archive.cleanName (Archive.onNameChange s) =
    (λ c, if (c =? Archive.hyphen)%N then Archive.underscore else c)
      <$> Archive.onNameChange s.
Proof.
  unfold Archive.cleanName, Archive.onNameChange.
  split; [apply length_fmap|]. split; [|split; [|split]].
  - apply Forall_fmap, Forall_true. intros c. cbn.
    destruct (Archive.isLower c || Archive.isUpper c || Archive.isDigit c) eqn:E;
      [by rewrite E|done].
  - apply map_fixed. intros c.
    destruct (Archive.isLower c || Archive.isUpper c || Archive.isDigit c) eqn:E;
      [by rewrite E|done].
  - rewrite <- list_fmap_compose. apply list_fmap_ext. intros _ c _. simpl.
    destruct (Archive.isUpper c) eqn:U, (Archive.isLower c) eqn:L,
      (Archive.isDigit c) eqn:D; simpl; rewrite ?U, ?L, ?D; simpl; try done.
    destruct (c =? Archive.underscore)%N eqn:E1; simpl.
    { apply N.eqb_eq in E1. by subst c. }
    destruct (c =? Archive.hyphen)%N eqn:E2; simpl; [|done].
    apply N.eqb_eq in E2. by subst c.
  - rewrite <- !list_fmap_compose. apply list_fmap_ext. intros _ c _. simpl.
    destruct (Archive.isUpper c) eqn:U, (Archive.isLower c) eqn:L,
      (Archive.isDigit c) eqn:D; simpl; rewrite ?U, ?L, ?D; simpl;
      try (destruct (c =? Archive.hyphen)%N eqn:E;
           [apply N.eqb_eq in E; by subst c|done]).
    destruct (c =? Archive.underscore)%N eqn:E1; simpl.
    { apply N.eqb_eq in E1. by subst c. }
    destruct (c =? Archive.hyphen)%N eqn:E2; simpl; [|done].
    apply N.eqb_eq in E2. by subst c.
Qed.

Section Download.
Context `{Canvas2D} `{JsMath}.

Lemma handleGenerateZip_run (st : Archive.State) (n : nat) :
  let d := dimensions (Params.resolution (Archive.params st)) in
  Archive.handleGenerateZip st n =
    match Archive.trim (Archive.materialName st), Archive.sourceImage st with
    | [], _ => ((Archive.setNameError true st, None), n)
    | _ :: _, None => ((st, None), n)
    | _ :: _, Some img =>
        match getContext n d.1 d.2 with
        | None => ((Archive.setIsProcessing true st, None), S n)
        | Some ctx =>
            let textures :=
              (encodeMaps (deriveMaps (albedoOf ctx img d.1 d.2 (Archive.params st))
                                      d.1 d.2 (Archive.params st)) (S n)).1 in
            let stem := Archive.cleanName (Archive.materialName st) in
            ((Archive.setIsProcessing false st,
              Some (Archive.mkDownload (stem ++ Archive.units "_D5_PBR.zip")
                                       (Archive.addAll stem textures))),
             (S n + 7)%nat)
        end
    end.
Proof.
  intros d. unfold Archive.handleGenerateZip.
  destruct (Archive.trim _) as [|c s]; [done|].
  destruct (Archive.sourceImage st) as [img|]; [|done].
  unfold mbind at 1. unfold Dom_bind.
  pose proof (generateTextures_run img (Archive.params st) n) as E.
  cbv zeta in E. fold d in E. cbn [Archive.params Archive.setIsProcessing].
  rewrite E. by destruct (getContext n d.1 d.2).
Qed.


(** X25. A failed download leaves the busy flag set.  When the context of
    the working canvas cannot be created, [generateTextures] rejects;
    [handleGenerateZip] does not catch the rejection, so it ends with
    [isProcessing = true] and saves nothing, whereas the preview effect on
    the same state resets the flag in its [finally] and keeps the previous
    textures. *)
Theorem failed_download_stays_busy (st : Archive.State) (img : HTMLImageElement)
    (n : nat) :
  let d := dimensions (Params.resolution (Archive.params st)) in
  Archive.trim (Archive.materialName st) ≠ [] →
  Archive.sourceImage st = Some img →
  getContext n d.1 d.2 = None →
  Archive.handleGenerateZip st n = ((Archive.setIsProcessing true st, None), S n) ∧
  Archive.isProcessing (Archive.handleGenerateZip st n).1.1 = true ∧
  (Archive.showPreview st = true →
   Archive.previewEffect st n = (Archive.setIsProcessing false st, S n) ∧
   Archive.isProcessing (Archive.previewEffect st n).1 = false ∧
   Archive.generatedTextures (Archive.previewEffect st n).1 =
     Archive.generatedTextures st).
Proof.
  intros d Hname Himg Hctx.
  pose proof (handleGenerateZip_run st n) as E. cbv zeta in E. fold d in E.
  rewrite E. clear E. rewrite Himg, Hctx.
  destruct (Archive.trim _) as [|c s]; [done|].
  split; [reflexivity|]. split; [reflexivity|]. intros Hp.
  assert (P : Archive.previewEffect st n = (Archive.setIsProcessing false st, S n)).
  { unfold Archive.previewEffect. rewrite Himg, Hp.
    unfold mbind, Dom_bind.
    pose proof (generateTextures_run img (Archive.params st) n) as E.
    cbv zeta in E. fold d in E. cbn [Archive.params Archive.setIsProcessing].
    rewrite E, Hctx. reflexivity. }
  rewrite P. repeat split.
Qed.

(** X26. What the archive holds.  On success the download is named
    [<stem>_D5_PBR.zip] and holds seven files, in this order and with
    pairwise different names: [<stem>_Albedo.jpg], then [_Normal],
    [_Roughness], [_Metallic], [_Height], [_Displacement] and [_AO] with
    the extension [.png]; the data of each file is what follows the
    first comma of the corresponding entry of the texture set, and every
    one of these entries, the six saved as [.png] included, is the empty
    string or a [toDataURL('image/jpeg', 0.95)] encoding.  The busy flag
    is reset. *)
Theorem archive_contents (st : Archive.State) (img : HTMLImageElement)
    (ctx : Context2D) (n : nat) :
  let d := dimensions (Params.resolution (Archive.params st)) in
  let stem := Archive.cleanName (Archive.materialName st) in
  Archive.trim (Archive.materialName st) ≠ [] →
  Archive.sourceImage st = Some img →
  getContext n d.1 d.2 = Some ctx →
  ∃ textures download,
    (generateTextures img (Archive.params st) n).1 = inr textures ∧
    Archive.handleGenerateZip st n =
      ((Archive.setIsProcessing false st, Some download), (n + 8)%nat) ∧
    Archive.fileName download = stem ++ Archive.units "_D5_PBR.zip" ∧
    (Archive.content download).*1 =
      (λ suffix, stem ++ Archive.units suffix)
        <$> ["_Albedo.jpg"; "_Normal.png"; "_Roughness.png"; "_Metallic.png";
             "_Height.png"; "_Displacement.png"; "_AO.png"] ∧
    NoDup (Archive.content download).*1 ∧
    (Archive.content download).*2 =
      (λ url, Archive.split Archive.comma url !! 1%nat)
        <$> [Textures.albedo textures; Textures.normal textures;
             Textures.roughness textures; Textures.metallic textures;
             Textures.height textures; Textures.displacement textures;
             Textures.ao textures] ∧
    Forall (λ url, url = "" ∨
                   ∃ c, url = toDataURL c "image/jpeg" (95 # 100))
      [Textures.albedo textures; Textures.normal textures;
       Textures.roughness textures; Textures.metallic textures;
       Textures.height textures; Textures.displacement textures;
       Textures.ao textures].
Proof.
  intros d stem Hname Himg Hctx.
  pose proof (handleGenerateZip_run st n) as E. cbv zeta in E. fold d in E.
  rewrite Himg, Hctx in E.
  destruct (Archive.trim _) as [|c0 s0]; [done|].
  pose proof (generateTextures_run img (Archive.params st) n) as G.
  cbv zeta in G. fold d in G. rewrite Hctx in G.
  set (maps := deriveMaps _ _ _ _) in *.
  eexists _, _. split; [by rewrite G|].
  split; [rewrite E; replace (n + 8)%nat with (S n + 7)%nat by lia; reflexivity|].
  split; [reflexivity|]. split; [reflexivity|]. split; [|split; [reflexivity|]].
  - change (NoDup ((λ suffix, stem ++ Archive.units suffix)
        <$> ["_Albedo.jpg"; "_Normal.png"; "_Roughness.png"; "_Metallic.png";
             "_Height.png"; "_Displacement.png"; "_AO.png"])).
    rewrite (list_fmap_compose Archive.units (λ u, stem ++ u)).
    apply NoDup_fmap_2; [intros u v; apply app_inv_head|].
    apply (bool_decide_unpack _). by vm_compute.
  - rewrite encodeMaps_run. cbn [fst Textures.albedo Textures.normal
      Textures.roughness Textures.metallic Textures.height
      Textures.displacement Textures.ao].
    rewrite !imageDataToDataURL_run. cbn [fst].
    repeat (apply Forall_cons; split;
            [match goal with |- context [getContext ?a ?b ?c] =>
               destruct (getContext a b c); [right; by eexists|by left] end|]).
    apply Forall_nil_2.
Qed.
End Download.

Lemma failed_download_stays_busy_witness :
  Archive.trim (Archive.materialName (sampleState (λ _, false) "Wood_01")) ≠ [] ∧
  Archive.sourceImage (sampleState (λ _, false) "Wood_01") = Some tt ∧
  getContext (Canvas2D := refCanvas (λ _, false)) 0%nat 2048 2048 = None ∧
  Archive.handleGenerateZip (H := refCanvas (λ _, false)) (H0 := refMath)
      (sampleState (λ _, false) "Wood_01") 0%nat =
    ((Archive.setIsProcessing true (sampleState (λ _, false) "Wood_01"), None), 1%nat) ∧
  Archive.isProcessing
    (Archive.handleGenerateZip (H := refCanvas (λ _, false)) (H0 := refMath)
       (sampleState (λ _, false) "Wood_01") 0%nat).1.1 = true ∧
  (Archive.showPreview (sampleState (λ _, false) "Wood_01") = true →
   Archive.previewEffect (H := refCanvas (λ _, false)) (H0 := refMath)
       (sampleState (λ _, false) "Wood_01") 0%nat =
     (Archive.setIsProcessing false (sampleState (λ _, false) "Wood_01"), 1%nat) ∧
   Archive.isProcessing
     (Archive.previewEffect (H := refCanvas (λ _, false)) (H0 := refMath)
        (sampleState (λ _, false) "Wood_01") 0%nat).1 = false ∧
   Archive.generatedTextures
     (Archive.previewEffect (H := refCanvas (λ _, false)) (H0 := refMath)
        (sampleState (λ _, false) "Wood_01") 0%nat).1 =
     Archive.generatedTextures (sampleState (λ _, false) "Wood_01")).
Proof.
  assert (N : Archive.trim (Archive.materialName (sampleState (λ _, false) "Wood_01"))
              ≠ []) by (vm_compute; discriminate).
  split; [exact N|]. split; [reflexivity|]. split; [reflexivity|].
  exact (failed_download_stays_busy (H := refCanvas (λ _, false)) (H0 := refMath)
           (sampleState (λ _, false) "Wood_01") tt 0%nat N eq_refl eq_refl).
Defined.

Lemma archive_contents_witness :
  Archive.trim (Archive.materialName (sampleState (λ _, true) "Wood-01")) ≠ [] ∧
  Archive.sourceImage (sampleState (λ _, true) "Wood-01") = Some tt ∧
  getContext (Canvas2D := refCanvas (λ _, true)) 0%nat 2048 2048 = Some None ∧
  ∃ textures download,
    (generateTextures (H := refMath) (H0 := refCanvas (λ _, true)) tt
       (Archive.params (sampleState (λ _, true) "Wood-01")) 0%nat).1 = inr textures ∧
    Archive.handleGenerateZip (H := refCanvas (λ _, true)) (H0 := refMath)
        (sampleState (λ _, true) "Wood-01") 0%nat =
      ((Archive.setIsProcessing false (sampleState (λ _, true) "Wood-01"),
        Some download), (0 + 8)%nat) ∧
    Archive.fileName download = Archive.units "Wood_01_D5_PBR.zip" ∧
    (Archive.content download).*1 =
      Archive.units
        <$> ["Wood_01_Albedo.jpg"; "Wood_01_Normal.png"; "Wood_01_Roughness.png";
             "Wood_01_Metallic.png"; "Wood_01_Height.png";
             "Wood_01_Displacement.png"; "Wood_01_AO.png"] ∧
    NoDup (Archive.content download).*1 ∧
    (Archive.content download).*2 =
      (λ url, Archive.split Archive.comma url !! 1%nat)
        <$> [Textures.albedo textures; Textures.normal textures;
             Textures.roughness textures; Textures.metallic textures;
             Textures.height textures; Textures.displacement textures;
             Textures.ao textures] ∧
    Forall (λ url, url = "" ∨
                   ∃ c, url = toDataURL (Canvas2D := refCanvas (λ _, true)) c
                                        "image/jpeg" (95 # 100))
      [Textures.albedo textures; Textures.normal textures;
       Textures.roughness textures; Textures.metallic textures;
       Textures.height textures; Textures.displacement textures;
       Textures.ao textures].
Proof.
  assert (N : Archive.trim (Archive.materialName (sampleState (λ _, true) "Wood-01"))
              ≠ []) by (vm_compute; discriminate).
  split; [exact N|]. split; [reflexivity|]. split; [reflexivity|].
  exact (archive_contents (H := refCanvas (λ _, true)) (H0 := refMath)
           (sampleState (λ _, true) "Wood-01") tt None 0%nat N eq_refl eq_refl).
Defined.

(** X27. The preview's displacement.  For a slider value in 0..5 the
    scale passed to the material lies in 0..0.15; with the bias the mesh
    receives, a texel [t] in 0..1 moves a vertex by
    [visualDisplacement * t + displacementBias], which stays within
    -0.075..0.075 and is symmetric about the undisplaced surface
    ([t] and [1 - t] give opposite offsets).  The map displaced by is the
    height entry of the texture set: the displacement entry plays no part
    in the preview. *)
Theorem preview_displacement_centred (s t : Q) :
  (0 <= s <= 5)%Q → (0 <= t <= 1)%Q →
  (0 <= Preview.visualDisplacement s <= 15 # 100)%Q ∧
  (- (3 # 40) <= Preview.visualDisplacement s * t + Preview.displacementBias s
              <= 3 # 40)%Q ∧
  (Preview.visualDisplacement s * (1 - t) + Preview.displacementBias s ==
     - (Preview.visualDisplacement s * t + Preview.displacementBias s))%Q ∧
  ∀ textures d,
    Preview.maps
      (Textures.Build_TextureSet (Textures.albedo textures) (Textures.normal textures)
         (Textures.roughness textures) (Textures.metallic textures)
         (Textures.height textures) d (Textures.ao textures)) =
    Preview.maps textures.
Proof.
  intros [Hs0 Hs5] [Ht0 Ht1].
  unfold Preview.displacementBias, Preview.visualDisplacement.
  unfold Qdiv. change (/ 2)%Q with (1 # 2)%Q.
  split; [lra|]. split; [|split; [ring|done]].
  assert (A : (0 <= s * t)%Q) by (apply Qmult_le_0_compat; lra).
  assert (B : (0 <= s * (1 - t))%Q) by (apply Qmult_le_0_compat; lra).
  lra.
Qed.

Lemma preview_displacement_centred_witness :
  (0 <= 22 # 10 <= 5)%Q ∧ (0 <= 1 # 4 <= 1)%Q ∧
  (0 <= Preview.visualDisplacement (22 # 10) <= 15 # 100)%Q ∧
  (- (3 # 40) <= Preview.visualDisplacement (22 # 10) * (1 # 4)
                 + Preview.displacementBias (22 # 10) <= 3 # 40)%Q ∧
  (Preview.visualDisplacement (22 # 10) * (1 - (1 # 4))
     + Preview.displacementBias (22 # 10) ==
     - (Preview.visualDisplacement (22 # 10) * (1 # 4)
        + Preview.displacementBias (22 # 10)))%Q ∧
  ∀ textures d,
    Preview.maps
      (Textures.Build_TextureSet (Textures.albedo textures) (Textures.normal textures)
         (Textures.roughness textures) (Textures.metallic textures)
         (Textures.height textures) d (Textures.ao textures)) =
    Preview.maps textures.
Proof.
  assert (S : (0 <= 22 # 10 <= 5)%Q) by (split; discriminate).
  assert (T : (0 <= 1 # 4 <= 1)%Q) by (split; discriminate).
  split; [exact S|]. split; [exact T|].
  exact (preview_displacement_centred (22 # 10) (1 # 4) S T).
Defined.
